(** * tscache: a sharded in-memory byte cache with LRU / LFU / FIFO eviction

    A shallow embedding of the storage engine of [tinystack/tscache]
    (shard.go, cache.go, the eviction lists and the sizing helpers), and
    the properties its specification states about it.

    Conventions of the embedding.
    - Go's [int] is a 64-bit two's complement integer.  Where a value can
      leave the range the wrap-around is written out ([wrap_int]); byte
      counts, entry counts and statistics counters are sums of slice
      lengths and of calls and are kept as unbounded [Z].
    - [time.Time] is a [Z]: nanoseconds elapsed since Go's zero instant, so
      [IsZero t] is [t = 0], [t.Add d] is [t + d], [t.After u] is [u < t].
      Every operation receives the instant [now] that its [time.Now()]
      reads return.
    - A Go map is a [gmap]; a [container/list] is a [list], front first.
    - The shard's locks serialise its critical sections; the embedding
      describes the shard at quiescent points, one operation at a time.
      The goroutine started by [go s.Delete(key)] is returned by [Get] as
      a pending deletion and appears in a history as a [Delete] step. *)

From Stdlib Require Import ZArith Lia List String Ascii.
From Stdlib.Strings Require Import Byte.
From stdpp Require Import base gmap strings list fin_maps.

Open Scope Z_scope.

(** ** Basic data *)

Definition bytes := list byte.

(** [len(b)] of a byte slice. *)
Definition len (b : bytes) : Z := Z.of_nat (length b).

Definition Time := Z.

(** [t.IsZero()] *)
Definition IsZero (t : Time) : bool := t =? 0.

(** [t.After(u)] *)
Definition After (t u : Time) : bool := u <? t.

(** [t.Before(u)] *)
Definition Before (t u : Time) : bool := t <? u.

(** Modelled from the spec: the package-level error values, whose
    declarations are not among the sources.  The specification lists
    KeyNotFound ("lookup target absent or expired"; [ErrKeyNotFound] in
    shard.go) and KeyInvalid ("empty key passed to set or get").
    [ErrCompressor] stands for whatever error an injected compressor
    returns. *)
Inductive error : Type :=
| ErrKeyNotFound
| ErrKeyInvalid
| ErrCompressor (msg : string).

(** The [Compressor] interface (compression.go). *)
Record Compressor : Type := {
  Compress : bytes -> bytes * option error;
  Decompress : bytes -> bytes * option error
}.

(** [NoCompressor]: both methods return their input. *)
Definition NewNoCompressor : Compressor :=
  {| Compress := fun data => (data, None);
     Decompress := fun data => (data, None) |}.

(** [CacheItem] (shard.go). *)
Record CacheItem : Type := {
  Key : string;
  Value : bytes;
  Size : Z;
  ExpireAt : Time;
  CreatedAt : Time;
  AccessAt : Time;
  AccessCount : Z;
  Compressed : bool
}.

(** ** Sizing helpers and the key hash (utils) *)

Module Utils.

Definition max_int : Z := 2 ^ 63 - 1.

(** Reduction of an integer to Go's 64-bit [int]. *)
Definition wrap_int (z : Z) : Z := (z + 2 ^ 63) mod 2 ^ 64 - 2 ^ 63.

(** Reduction to [uint32]. *)
Definition uint32 (z : Z) : Z := z mod 2 ^ 32.

Definition fnvOffsetBasis : Z := 2166136261.
Definition fnvPrime : Z := 16777619.

(** The loop of [fnv1a]: [hash ^= uint32(key[i]); hash *= fnvPrime]. *)
Fixpoint fnv1a_loop (key : string) (hash : Z) : Z :=
  match key with
  | EmptyString => hash
  | String c rest =>
      let hash1 := Z.lxor hash (Z.of_N (N_of_ascii c)) in
      fnv1a_loop rest (uint32 (hash1 * fnvPrime))
  end.

Definition fnv1a (key : string) : Z := fnv1a_loop key (uint32 fnvOffsetBasis).

(** [for power < n { power <<= 1 }].  The loop either stops within 64
    doublings or never does (after 64 shifts [power] is 0 for good):
    [None] is the run that does not return. *)
Fixpoint roundToPowerOfTwo_loop (fuel : nat) (power n : Z) : option Z :=
  match fuel with
  | O => None
  | S fuel' =>
      if power <? n
      then roundToPowerOfTwo_loop fuel' (wrap_int (Z.shiftl power 1)) n
      else Some power
  end.

Definition roundToPowerOfTwo (n : Z) : option Z :=
  if n <=? 1 then Some 1
  else if Z.land n (n - 1) =? 0 then Some n
  else roundToPowerOfTwo_loop 65 1 n.

(** [getOptimalShardCount], with [runtime.NumCPU()] as its input. *)
Definition getOptimalShardCount (numCPU : Z) : option Z :=
  let shardCount := wrap_int (numCPU * 2) in
  let shardCount := if shardCount <? 4 then 4 else shardCount in
  let shardCount := if 256 <? shardCount then 256 else shardCount in
  roundToPowerOfTwo shardCount.

End Utils.

(** ** Eviction lists *)

(** The [EvictionList] interface.  [now] is what [time.Now()] returns
    inside the method. *)
Class EvictionList (L : Type) : Type := {
  Add : string -> CacheItem -> Time -> L -> L;
  Remove : string -> L -> L;
  Update : string -> CacheItem -> Time -> L -> L;
  RemoveLeast : Time -> L -> string * L;
  Clear : L -> L
}.

(** [list.Remove(element)] for the element that carries [key]: the first
    (and, in a list indexed by a node map, only) node with that key is
    unlinked. *)
Fixpoint unlink (key : string) (l : list string) : list string :=
  match l with
  | [] => []
  | k :: rest => if decide (k = key) then rest else k :: unlink key rest
  end.

(** [LRUList]: a linked list of nodes, most recently used at the front, and
    [nodeMap], the index of its nodes by key.  Every method updates the two
    together, so [nodeMap[key]] exists exactly when a node with that key is
    linked: the embedding keeps the list of keys and answers the index by
    membership.  The [Item] pointer stored in a node is never read back. *)
Module LRU.

Record LRUList : Type := { list_ : list string }.

Definition NewLRUList : LRUList := {| list_ := [] |}.

Definition Add (key : string) (item : CacheItem) (now : Time) (lru : LRUList) : LRUList :=
  if bool_decide (key ∈ list_ lru)
  then {| list_ := key :: unlink key (list_ lru) |}     (* MoveToFront *)
  else {| list_ := key :: list_ lru |}.                 (* PushFront *)

Definition Remove (key : string) (lru : LRUList) : LRUList :=
  if bool_decide (key ∈ list_ lru)
  then {| list_ := unlink key (list_ lru) |}
  else lru.

Definition Update (key : string) (item : CacheItem) (now : Time) (lru : LRUList) : LRUList :=
  if bool_decide (key ∈ list_ lru)
  then {| list_ := key :: unlink key (list_ lru) |}
  else lru.

Definition RemoveLeast (now : Time) (lru : LRUList) : string * LRUList :=
  match last (list_ lru) with
  | None => (EmptyString, lru)
  | Some key => (key, {| list_ := removelast (list_ lru) |})
  end.

Definition Clear (lru : LRUList) : LRUList := {| list_ := [] |}.

End LRU.

(** [FIFOList]: a queue of nodes, oldest at the front, indexed by [nodeMap]
    as in [LRUList].  [FIFONode.CreatedAt] is written once and never read. *)
Module FIFO.

Record FIFOList : Type := { list_ : list string }.

Definition NewFIFOList : FIFOList := {| list_ := [] |}.

Definition Add (key : string) (item : CacheItem) (now : Time) (fifo : FIFOList) : FIFOList :=
  if bool_decide (key ∈ list_ fifo)
  then fifo                                   (* node.Item = item *)
  else {| list_ := list_ fifo ++ [key] |}.    (* PushBack *)

Definition Remove (key : string) (fifo : FIFOList) : FIFOList :=
  if bool_decide (key ∈ list_ fifo)
  then {| list_ := unlink key (list_ fifo) |}
  else fifo.

Definition Update (key : string) (item : CacheItem) (now : Time) (fifo : FIFOList) : FIFOList :=
  fifo.

Definition RemoveLeast (now : Time) (fifo : FIFOList) : string * FIFOList :=
  match list_ fifo with
  | [] => (EmptyString, fifo)
  | key :: rest => (key, {| list_ := rest |})
  end.

Definition Clear (fifo : FIFOList) : FIFOList := {| list_ := [] |}.

End FIFO.

(** [LFUList].  [nodes] maps a key to its node; a frequency bucket is a
    list of node pointers.  A node is shared between [nodes] and its
    bucket and is updated in place, so the embedding keeps the node
    records in [nodes] and lets a bucket hold the keys of its nodes, the
    keys being the references.  ([LFUNode.Key] is the key under which the
    node is stored; [LFUNode.Item] is never read back.) *)
Module LFU.

Record LFUNode : Type := { Frequency : Z; LastUsed : Time }.

Record LFUList : Type := {
  nodes : gmap string LFUNode;
  frequencies : gmap Z (list string);
  minFreq : Z
}.

Definition NewLFUList : LFUList :=
  {| nodes := ∅; frequencies := ∅; minFreq := 1 |}.

Definition with_nodes (n : gmap string LFUNode) (lfu : LFUList) : LFUList :=
  {| nodes := n; frequencies := frequencies lfu; minFreq := minFreq lfu |}.

Definition with_frequencies (f : gmap Z (list string)) (lfu : LFUList) : LFUList :=
  {| nodes := nodes lfu; frequencies := f; minFreq := minFreq lfu |}.

Definition with_minFreq (m : Z) (lfu : LFUList) : LFUList :=
  {| nodes := nodes lfu; frequencies := frequencies lfu; minFreq := m |}.

(** [freqList.Len() == 0] *)
Definition is_nil (l : list string) : bool :=
  match l with [] => true | _ => false end.

Definition addToFrequency (key : string) (frequency : Z) (lfu : LFUList) : LFUList :=
  let freqList := default [] (frequencies lfu !! frequency) in
  with_frequencies (<[frequency := freqList ++ [key]]> (frequencies lfu)) lfu.

Definition removeFromFrequency (key : string) (frequency : Z) (lfu : LFUList) : LFUList :=
  match frequencies lfu !! frequency with
  | Some freqList =>
      with_frequencies (<[frequency := unlink key freqList]> (frequencies lfu)) lfu
  | None => lfu
  end.

Definition isEmpty (lfu : LFUList) (frequency : Z) : bool :=
  match frequencies lfu !! frequency with
  | Some freqList => is_nil freqList
  | None => true
  end.

(** One iteration of the [range lfu.frequencies] loop of [updateMinFreq]. *)
Definition updateMinFreq_step (m : Z) (e : Z * list string) : Z :=
  if is_nil e.2 then m
  else if (e.1 <? m) || (m =? 1) then e.1 else m.

(** The loop, over the buckets in the order [order].  Go leaves the
    iteration order of a map unspecified. *)
Definition updateMinFreq_scan (order : list (Z * list string)) : Z :=
  fold_left updateMinFreq_step order 1.

Definition updateMinFreq (lfu : LFUList) : LFUList :=
  if isEmpty lfu (minFreq lfu)
  then with_minFreq (updateMinFreq_scan (map_to_list (frequencies lfu))) lfu
  else lfu.

Definition Add (key : string) (item : CacheItem) (now : Time) (lfu : LFUList) : LFUList :=
  match nodes lfu !! key with
  | Some node =>
      let oldFreq := Frequency node in
      let newFreq := AccessCount item in
      if bool_decide (oldFreq ≠ newFreq) then
        let lfu := removeFromFrequency key oldFreq lfu in
        let lfu := with_nodes (<[key := {| Frequency := newFreq; LastUsed := now |}]> (nodes lfu)) lfu in
        let lfu := addToFrequency key newFreq lfu in
        updateMinFreq lfu
      else
        with_nodes (<[key := {| Frequency := oldFreq; LastUsed := now |}]> (nodes lfu)) lfu
  | None =>
      let frequency := if AccessCount item =? 0 then 1 else AccessCount item in
      let lfu := with_nodes (<[key := {| Frequency := frequency; LastUsed := now |}]> (nodes lfu)) lfu in
      let lfu := addToFrequency key frequency lfu in
      if (frequency <? minFreq lfu) || isEmpty lfu (minFreq lfu)
      then with_minFreq frequency lfu
      else lfu
  end.

Definition Remove (key : string) (lfu : LFUList) : LFUList :=
  match nodes lfu !! key with
  | Some node =>
      let lfu := removeFromFrequency key (Frequency node) lfu in
      let lfu := with_nodes (delete key (nodes lfu)) lfu in
      updateMinFreq lfu
  | None => lfu
  end.

Definition Update (key : string) (item : CacheItem) (now : Time) (lfu : LFUList) : LFUList :=
  match nodes lfu !! key with
  | Some node =>
      let oldFreq := Frequency node in
      let newFreq := AccessCount item in
      if bool_decide (oldFreq ≠ newFreq) then
        let lfu := removeFromFrequency key oldFreq lfu in
        let lfu := with_nodes (<[key := {| Frequency := newFreq; LastUsed := now |}]> (nodes lfu)) lfu in
        let lfu := addToFrequency key newFreq lfu in
        updateMinFreq lfu
      else
        with_nodes (<[key := {| Frequency := oldFreq; LastUsed := now |}]> (nodes lfu)) lfu
  | None => lfu
  end.

(** [node.LastUsed], read through the pointer held by a bucket. *)
Definition lastUsedOf (lfu : LFUList) (key : string) : Time :=
  match nodes lfu !! key with
  | Some node => LastUsed node
  | None => 0
  end.

(** One iteration of the scan for the oldest node of the bucket; the
    accumulator is [(oldestElement, oldestTime)]. *)
Definition oldest_step (lfu : LFUList) (acc : option string * Time) (key : string)
  : option string * Time :=
  match acc.1 with
  | None => (Some key, lastUsedOf lfu key)
  | Some _ =>
      if Before (lastUsedOf lfu key) acc.2
      then (Some key, lastUsedOf lfu key)
      else acc
  end.

Definition RemoveLeast (now : Time) (lfu : LFUList) : string * LFUList :=
  if bool_decide (size (nodes lfu) = 0%nat) then (EmptyString, lfu)
  else
    match frequencies lfu !! minFreq lfu with
    | None => (EmptyString, lfu)
    | Some freqList =>
        if is_nil freqList then (EmptyString, lfu)
        else
          match (fold_left (oldest_step lfu) freqList (None, now)).1 with
          | None => (EmptyString, lfu)
          | Some key =>
              let lfu := with_frequencies
                           (<[minFreq lfu := unlink key freqList]> (frequencies lfu)) lfu in
              let lfu := with_nodes (delete key (nodes lfu)) lfu in
              (key, updateMinFreq lfu)
          end
    end.

Definition Clear (lfu : LFUList) : LFUList := NewLFUList.

End LFU.

#[export] Instance LRU_EvictionList : EvictionList LRU.LRUList :=
  {| Add := LRU.Add; Remove := LRU.Remove; Update := LRU.Update;
     RemoveLeast := LRU.RemoveLeast; Clear := LRU.Clear |}.

#[export] Instance LFU_EvictionList : EvictionList LFU.LFUList :=
  {| Add := LFU.Add; Remove := LFU.Remove; Update := LFU.Update;
     RemoveLeast := LFU.RemoveLeast; Clear := LFU.Clear |}.

#[export] Instance FIFO_EvictionList : EvictionList FIFO.FIFOList :=
  {| Add := FIFO.Add; Remove := FIFO.Remove; Update := FIFO.Update;
     RemoveLeast := FIFO.RemoveLeast; Clear := FIFO.Clear |}.

(** A value of interface type [EvictionList]: one of the three
    implementations, with calls dispatched on the dynamic type. *)
Inductive AnyList : Type :=
| OfLRU (lru : LRU.LRUList)
| OfLFU (lfu : LFU.LFUList)
| OfFIFO (fifo : FIFO.FIFOList).

#[export] Instance AnyList_EvictionList : EvictionList AnyList :=
  {| Add key item now l :=
       match l with
       | OfLRU x => OfLRU (Add key item now x)
       | OfLFU x => OfLFU (Add key item now x)
       | OfFIFO x => OfFIFO (Add key item now x)
       end;
     Remove key l :=
       match l with
       | OfLRU x => OfLRU (Remove key x)
       | OfLFU x => OfLFU (Remove key x)
       | OfFIFO x => OfFIFO (Remove key x)
       end;
     Update key item now l :=
       match l with
       | OfLRU x => OfLRU (Update key item now x)
       | OfLFU x => OfLFU (Update key item now x)
       | OfFIFO x => OfFIFO (Update key item now x)
       end;
     RemoveLeast now l :=
       match l with
       | OfLRU x => let r := RemoveLeast now x in (r.1, OfLRU r.2)
       | OfLFU x => let r := RemoveLeast now x in (r.1, OfLFU r.2)
       | OfFIFO x => let r := RemoveLeast now x in (r.1, OfFIFO r.2)
       end;
     Clear l :=
       match l with
       | OfLRU x => OfLRU (Clear x)
       | OfLFU x => OfLFU (Clear x)
       | OfFIFO x => OfFIFO (Clear x)
       end |}.

(** ** The shard (shard.go) *)

Definition EvictionLRU : string := "LRU"%string.
Definition EvictionLFU : string := "LFU"%string.
Definition EvictionFIFO : string := "FIFO"%string.

Module Shard.

Record ShardStats : Type := { Hits : Z; Misses : Z; Evictions : Z }.

Record ShardStatsSnapshot : Type := {
  snap_Hits : Z;
  snap_Misses : Z;
  snap_Evictions : Z;
  snap_CurrentCount : Z;
  snap_CurrentSize : Z
}.

(** [compressor] is an interface value and may be [nil]. *)
Record CacheShard : Type := {
  maxSize : Z;
  evictionPolicy : string;
  data : gmap string CacheItem;
  evictionList : AnyList;
  stats : ShardStats;
  currentSize : Z;
  currentCount : Z;
  compressor : option Compressor;
  compressSize : Z
}.

Definition with_data (d : gmap string CacheItem) (s : CacheShard) : CacheShard :=
  {| maxSize := maxSize s; evictionPolicy := evictionPolicy s; data := d;
     evictionList := evictionList s; stats := stats s;
     currentSize := currentSize s; currentCount := currentCount s;
     compressor := compressor s; compressSize := compressSize s |}.

Definition with_evictionList (l : AnyList) (s : CacheShard) : CacheShard :=
  {| maxSize := maxSize s; evictionPolicy := evictionPolicy s; data := data s;
     evictionList := l; stats := stats s;
     currentSize := currentSize s; currentCount := currentCount s;
     compressor := compressor s; compressSize := compressSize s |}.

Definition with_stats (st : ShardStats) (s : CacheShard) : CacheShard :=
  {| maxSize := maxSize s; evictionPolicy := evictionPolicy s; data := data s;
     evictionList := evictionList s; stats := st;
     currentSize := currentSize s; currentCount := currentCount s;
     compressor := compressor s; compressSize := compressSize s |}.

Definition with_currentSize (n : Z) (s : CacheShard) : CacheShard :=
  {| maxSize := maxSize s; evictionPolicy := evictionPolicy s; data := data s;
     evictionList := evictionList s; stats := stats s;
     currentSize := n; currentCount := currentCount s;
     compressor := compressor s; compressSize := compressSize s |}.

Definition with_currentCount (n : Z) (s : CacheShard) : CacheShard :=
  {| maxSize := maxSize s; evictionPolicy := evictionPolicy s; data := data s;
     evictionList := evictionList s; stats := stats s;
     currentSize := currentSize s; currentCount := n;
     compressor := compressor s; compressSize := compressSize s |}.

Definition NewCacheShard (maxSize : Z) (evictionPolicy : string)
    (compressor : option Compressor) (compressSize : Z) : CacheShard :=
  let shard l p :=
    {| maxSize := maxSize; evictionPolicy := p; data := ∅;
       evictionList := l; stats := {| Hits := 0; Misses := 0; Evictions := 0 |};
       currentSize := 0; currentCount := 0;
       compressor := compressor; compressSize := compressSize |} in
  if decide (evictionPolicy = EvictionLRU) then shard (OfLRU LRU.NewLRUList) evictionPolicy
  else if decide (evictionPolicy = EvictionLFU) then shard (OfLFU LFU.NewLFUList) evictionPolicy
  else if decide (evictionPolicy = EvictionFIFO) then shard (OfFIFO FIFO.NewFIFOList) evictionPolicy
  else shard (OfLRU LRU.NewLRUList) EvictionLRU.

(** [evictOne]: the key handed out by [RemoveLeast] is dropped from the
    map; the empty string is the list's "nothing to evict". *)
Definition evictOne (now : Time) (s : CacheShard) : bool * CacheShard :=
  let r := RemoveLeast now (evictionList s) in
  let keyToEvict := r.1 in
  let s := with_evictionList r.2 s in
  if decide (keyToEvict = EmptyString) then (false, s)
  else
    match data s !! keyToEvict with
    | Some item =>
        let s := with_data (delete keyToEvict (data s)) s in
        let s := with_currentSize (currentSize s - Size item) s in
        let s := with_currentCount (currentCount s - 1) s in
        let st := stats s in
        let s := with_stats {| Hits := Hits st; Misses := Misses st;
                               Evictions := Evictions st + 1 |} s in
        (true, s)
    | None => (false, s)
    end.

(** The loop condition of [evictIfNeeded]. *)
Definition overBudget (newItemSize : Z) (s : CacheShard) : bool :=
  (0 <? maxSize s) && (maxSize s <? currentSize s + newItemSize).

(** [for s.maxSize > 0 && s.currentSize+newItemSize > s.maxSize
      { if !s.evictOne() { break } }], by iteration count. *)
Fixpoint evictIfNeeded_loop (fuel : nat) (newItemSize : Z) (now : Time)
    (s : CacheShard) : CacheShard :=
  match fuel with
  | O => s
  | S fuel' =>
      if overBudget newItemSize s then
        let r := evictOne now s in
        if r.1 then evictIfNeeded_loop fuel' newItemSize now r.2 else r.2
      else s
  end.

(** Every iteration that does not leave the loop removes an entry of
    [data], so [size data + 1] iterations are all the loop can make
    ([evictIfNeeded_terminates] below). *)
Definition evictIfNeeded (newItemSize : Z) (now : Time) (s : CacheShard) : CacheShard :=
  evictIfNeeded_loop (S (size (data s))) newItemSize now s.

(** The compression decision of [Set]:
    [(finalValue, size, compressed)]. *)
Definition compressDecision (s : CacheShard) (value : bytes) : bytes * Z * bool :=
  let size := len value in
  if compressSize s <? size then
    match compressor s with
    | Some c =>
        let r := Compress c value in
        match r.2 with
        | None =>
            let compressedSize := len r.1 in
            if compressedSize <? size then (r.1, compressedSize, true)
            else (value, size, false)
        | Some _ => (value, size, false)
        end
    | None => (value, size, false)
    end
  else (value, size, false).

(** The critical section of [Set] up to, not including, the call of
    [evictIfNeeded]. *)
Definition Set_store (s : CacheShard) (key : string) (value : bytes) (ttl : Z)
    (now : Time) : CacheShard :=
  let '(finalValue, size, compressed) := compressDecision s value in
  let expireAt := if 0 <? ttl then now + ttl else 0 in
  match data s !! key with
  | Some oldItem =>
      let oldSize := Size oldItem in
      let s := with_currentSize (currentSize s - oldSize) s in
      let s := with_evictionList (Remove key (evictionList s)) s in
      let item := {| Key := Key oldItem; Value := finalValue; Size := size;
                     ExpireAt := expireAt; CreatedAt := CreatedAt oldItem;
                     AccessAt := now; AccessCount := AccessCount oldItem;
                     Compressed := compressed |} in
      let s := with_data (<[key := item]> (data s)) s in
      let s := with_currentSize (currentSize s + size) s in
      with_evictionList (Add key item now (evictionList s)) s
  | None =>
      let item := {| Key := key; Value := finalValue; Size := size;
                     ExpireAt := expireAt; CreatedAt := now;
                     AccessAt := now; AccessCount := 0;
                     Compressed := compressed |} in
      let s := with_data (<[key := item]> (data s)) s in
      let s := with_currentSize (currentSize s + size) s in
      let s := with_currentCount (currentCount s + 1) s in
      with_evictionList (Add key item now (evictionList s)) s
  end.

(** [Set]: the returned error and the shard afterwards. *)
Definition Set_ (s : CacheShard) (key : string) (value : bytes) (ttl : Z)
    (now : Time) : option error * CacheShard :=
  (None, evictIfNeeded 0 now (Set_store s key value ttl now)).

(** What a call of [Get] does: it returns a value and an error, or it
    panics (a method call on a nil [compressor]). *)
Inductive GetResult : Type :=
| Returned (value : bytes) (err : option error)
| Panicked.

Definition recordMiss (s : CacheShard) : CacheShard :=
  let st := stats s in
  with_stats {| Hits := Hits st; Misses := Misses st + 1; Evictions := Evictions st |} s.

Definition recordHit (s : CacheShard) : CacheShard :=
  let st := stats s in
  with_stats {| Hits := Hits st + 1; Misses := Misses st; Evictions := Evictions st |} s.

(** [Get]: the result, the shard afterwards, and the key of the
    goroutine [go s.Delete(key)] when one is started. *)
Definition Get (s : CacheShard) (key : string) (now : Time)
    : GetResult * CacheShard * option string :=
  match data s !! key with
  | None => (Returned [] (Some ErrKeyNotFound), recordMiss s, None)
  | Some item =>
      if negb (IsZero (ExpireAt item)) && After now (ExpireAt item) then
        (Returned [] (Some ErrKeyNotFound), recordMiss s, Some key)
      else
        let item := {| Key := Key item; Value := Value item; Size := Size item;
                       ExpireAt := ExpireAt item; CreatedAt := CreatedAt item;
                       AccessAt := now; AccessCount := AccessCount item + 1;
                       Compressed := Compressed item |} in
        let s := with_data (<[key := item]> (data s)) s in
        let s := with_evictionList (Update key item now (evictionList s)) s in
        let s := recordHit s in
        if Compressed item then
          match compressor s with
          | Some c => let r := Decompress c (Value item) in (Returned r.1 r.2, s, None)
          | None => (Panicked, s, None)
          end
        else (Returned (Value item) None, s, None)
  end.

Definition Delete (s : CacheShard) (key : string) : CacheShard :=
  match data s !! key with
  | None => s
  | Some item =>
      let s := with_data (delete key (data s)) s in
      let s := with_currentSize (currentSize s - Size item) s in
      let s := with_currentCount (currentCount s - 1) s in
      with_evictionList (Remove key (evictionList s)) s
  end.

Definition Clear (s : CacheShard) : CacheShard :=
  let s := with_data ∅ s in
  let s := with_currentSize 0 s in
  let s := with_currentCount 0 s in
  let s := with_evictionList (Clear (evictionList s)) s in
  with_stats {| Hits := 0; Misses := 0; Evictions := 0 |} s.

Definition getStats (s : CacheShard) : ShardStatsSnapshot :=
  {| snap_Hits := Hits (stats s); snap_Misses := Misses (stats s);
     snap_Evictions := Evictions (stats s);
     snap_CurrentCount := currentCount s; snap_CurrentSize := currentSize s |}.

(** *** Histories of a shard *)

(** One locked step of a shard.  The deletion that a [Get] hands to a
    goroutine is an [OpDelete] step, placed where the goroutine gets the
    lock. *)
Inductive Op : Type :=
| OpSet (key : string) (value : bytes) (ttl : Z)
| OpGet (key : string)
| OpDelete (key : string)
| OpClear.

Definition step (s : CacheShard) (e : Op * Time) : CacheShard :=
  match e.1 with
  | OpSet key value ttl => (Set_ s key value ttl e.2).2
  | OpGet key => (Get s key e.2).1.2
  | OpDelete key => Delete s key
  | OpClear => Clear s
  end.

Definition run (h : list (Op * Time)) (s : CacheShard) : CacheShard :=
  fold_left step h s.

(** The key an operation writes, if it writes one. *)
Definition stores_nonempty_key (e : Op * Time) : Prop :=
  match e.1 with
  | OpSet key _ _ => key ≠ EmptyString
  | _ => True
  end.

(** The operations that end the life of the entry stored under [key]:
    a later [Set] or [Delete] of it, and [Clear]. *)
Definition overwrites (key : string) (e : Op * Time) : Prop :=
  match e.1 with
  | OpSet k _ _ => k = key
  | OpGet _ => False
  | OpDelete k => k = key
  | OpClear => True
  end.

(** Sum of [Size] over the stored entries. *)
Definition sumSizes (d : gmap string CacheItem) : Z :=
  map_fold (fun _ item acc => Size item + acc) 0 d.

End Shard.

(** ** The cache (cache.go) *)

Module Cache.

Record cacheOptions : Type := {
  opt_maxSize : Z;
  opt_evictionPolicy : string;
  opt_compressor : option Compressor;
  opt_compressSize : Z
}.

(** A functional option.  Go applies it to a pointer; here it maps the
    options to the updated options. *)
Definition Option := cacheOptions -> cacheOptions.

Definition WithMaxSize (size : Z) : Option := fun opts =>
  {| opt_maxSize := size; opt_evictionPolicy := opt_evictionPolicy opts;
     opt_compressor := opt_compressor opts; opt_compressSize := opt_compressSize opts |}.

Definition WithCompressSize (size : Z) : Option := fun opts =>
  {| opt_maxSize := opt_maxSize opts; opt_evictionPolicy := opt_evictionPolicy opts;
     opt_compressor := opt_compressor opts; opt_compressSize := size |}.

Definition WithEvictionPolicy (policy : string) : Option := fun opts =>
  {| opt_maxSize := opt_maxSize opts; opt_evictionPolicy := policy;
     opt_compressor := opt_compressor opts; opt_compressSize := opt_compressSize opts |}.

Definition WithCompressor (compressor : option Compressor) : Option := fun opts =>
  {| opt_maxSize := opt_maxSize opts; opt_evictionPolicy := opt_evictionPolicy opts;
     opt_compressor := compressor; opt_compressSize := opt_compressSize opts |}.

Record Cache : Type := {
  maxSize : Z;
  evictionPolicy : string;
  shards : list Shard.CacheShard;
  shardCount : Z
}.

Record Stats : Type := {
  Hits : Z;
  Misses : Z;
  Evictions : Z;
  CurrentCount : Z;
  CurrentSize : Z;
  MaxSize : Z;
  EvictionPolicy : string;
  ShardCount : Z
}.

Definition defaultOptions : cacheOptions :=
  {| opt_maxSize := 1024 * 1024 * 100;
     opt_evictionPolicy := EvictionLRU;
     opt_compressor := Some NewNoCompressor;
     opt_compressSize := 1024 * 1024 |}.

(** The memory limit each shard is created with. *)
Definition shardMaxSizeOf (maxSize shardCount : Z) : Z :=
  let shardMaxSize := Z.quot maxSize shardCount in
  if (shardMaxSize =? 0) && (0 <? maxSize) then 1 else shardMaxSize.

(** [NewCache], on a host with [numCPU] logical CPUs.  [None] is the run
    in which [getOptimalShardCount] does not return. *)
Definition NewCache (numCPU : Z) (opts : list Option) : option Cache :=
  let options := fold_left (fun o opt => opt o) opts defaultOptions in
  let policy :=
    if decide (opt_evictionPolicy options = EvictionLRU) then opt_evictionPolicy options
    else if decide (opt_evictionPolicy options = EvictionLFU) then opt_evictionPolicy options
    else if decide (opt_evictionPolicy options = EvictionFIFO) then opt_evictionPolicy options
    else EvictionLRU in
  match Utils.getOptimalShardCount numCPU with
  | None => None
  | Some shardCount =>
      let shardMaxSize := shardMaxSizeOf (opt_maxSize options) shardCount in
      Some {| maxSize := opt_maxSize options;
              evictionPolicy := policy;
              shardCount := shardCount;
              shards := replicate (Z.to_nat shardCount)
                          (Shard.NewCacheShard shardMaxSize policy
                             (opt_compressor options) (opt_compressSize options)) |}
  end.

(** [int(hash) % c.shardCount]; [None] is the division by zero. *)
Definition shardIndex (c : Cache) (key : string) : option Z :=
  if shardCount c =? 0 then None
  else Some (Z.rem (Utils.fnv1a key) (shardCount c)).

(** [getShard]: the index of the shard and the shard; [None] where Go
    panics (division by zero, index out of range). *)
Definition getShard (c : Cache) (key : string) : option (nat * Shard.CacheShard) :=
  match shardIndex c key with
  | None => None
  | Some i =>
      if i <? 0 then None
      else match shards c !! Z.to_nat i with
           | Some shard => Some (Z.to_nat i, shard)
           | None => None
           end
  end.

(** The cache after the shard at index [i] has changed in place. *)
Definition with_shard (i : nat) (shard : Shard.CacheShard) (c : Cache) : Cache :=
  {| maxSize := maxSize c; evictionPolicy := evictionPolicy c;
     shards := <[i := shard]> (shards c); shardCount := shardCount c |}.

Definition Set_ (c : Cache) (key : string) (value : bytes) (ttl : Z) (now : Time)
    : option (option error * Cache) :=
  match getShard c key with
  | None => None
  | Some (i, shard) =>
      let r := Shard.Set_ shard key value ttl now in
      Some (r.1, with_shard i r.2 c)
  end.

Definition Get (c : Cache) (key : string) (now : Time)
    : option (Shard.GetResult * Cache * option string) :=
  match getShard c key with
  | None => None
  | Some (i, shard) =>
      let r := Shard.Get shard key now in
      Some (r.1.1, with_shard i r.1.2 c, r.2)
  end.

Definition Delete (c : Cache) (key : string) : option Cache :=
  match getShard c key with
  | None => None
  | Some (i, shard) => Some (with_shard i (Shard.Delete shard key) c)
  end.

Definition Clear (c : Cache) : Cache :=
  {| maxSize := maxSize c; evictionPolicy := evictionPolicy c;
     shards := map Shard.Clear (shards c); shardCount := shardCount c |}.

Definition Stats_ (c : Cache) : Stats :=
  let sum f := fold_left (fun acc shard => acc + f (Shard.getStats shard)) (shards c) 0 in
  {| Hits := sum Shard.snap_Hits;
     Misses := sum Shard.snap_Misses;
     Evictions := sum Shard.snap_Evictions;
     CurrentCount := sum Shard.snap_CurrentCount;
     CurrentSize := sum Shard.snap_CurrentSize;
     MaxSize := maxSize c;
     EvictionPolicy := evictionPolicy c;
     ShardCount := shardCount c |}.

(** Sum of the memory limits of the shards. *)
Definition sumShardMaxSize (c : Cache) : Z :=
  fold_left (fun acc shard => acc + Shard.maxSize shard) (shards c) 0.

End Cache.

(** ** Fixtures for examples *)

(** A toy compressor for examples: a run of [n <= 255] equal bytes [b] is
    stored as the two bytes [n, b]. *)
Module ToyRLE.

Fixpoint encode_runs (b : byte) (n : nat) (rest : bytes) : bytes :=
  match rest with
  | [] => [default x00 (Byte.of_nat n); b]
  | c :: rest' =>
      if Byte.eqb c b then
        if (n <? 255)%nat then encode_runs b (S n) rest'
        else (default x00 (Byte.of_nat n)) :: b :: encode_runs c 1 rest'
      else (default x00 (Byte.of_nat n)) :: b :: encode_runs c 1 rest'
  end.

Definition compress (data : bytes) : bytes * option error :=
  match data with
  | [] => ([], None)
  | b :: rest => (encode_runs b 1 rest, None)
  end.

Fixpoint decompress_loop (data : bytes) : option bytes :=
  match data with
  | [] => Some []
  | [_] => None
  | n :: b :: rest =>
      match decompress_loop rest with
      | Some out => Some (replicate (Byte.to_nat n) b ++ out)
      | None => None
      end
  end.

Definition decompress (data : bytes) : bytes * option error :=
  match decompress_loop data with
  | Some out => (out, None)
  | None => ([], Some (ErrCompressor "truncated run"%string))
  end.

Definition compressor : Compressor :=
  {| Compress := compress; Decompress := decompress |}.

End ToyRLE.

(** ** Vocabulary of the specification *)

(** [clamp lo hi x]: [x] brought into [[lo, hi]]. *)
Definition clamp (lo hi x : Z) : Z := Z.max lo (Z.min hi x).

(** [p] is the least power of two that is at least [m]. *)
Definition is_next_power_of_two (m p : Z) : Prop :=
  (exists k, 0 <= k /\ p = 2 ^ k) /\
  m <= p /\
  (forall j, 0 <= j -> m <= 2 ^ j -> p <= 2 ^ j).

(** Accounting: the two counters of a shard agree with its map. *)
Definition accounting (s : Shard.CacheShard) : Prop :=
  Shard.currentSize s = Shard.sumSizes (Shard.data s) /\
  Shard.currentCount s = Z.of_nat (size (Shard.data s)).

(** The Go loop of [evictIfNeeded], step by step: [evict_loop_run n now s s']
    when the loop entered in state [s] leaves in state [s']. *)
Inductive evict_loop_run (n : Z) (now : Time)
  : Shard.CacheShard -> Shard.CacheShard -> Prop :=
| loop_within s :
    Shard.overBudget n s = false -> evict_loop_run n now s s
| loop_break s s' :
    Shard.overBudget n s = true ->
    Shard.evictOne now s = (false, s') ->
    evict_loop_run n now s s'
| loop_iter s s' s'' :
    Shard.overBudget n s = true ->
    Shard.evictOne now s = (true, s') ->
    evict_loop_run n now s' s'' ->
    evict_loop_run n now s s''.

(** What a later operation leaves of a stored entry: its payload and
    expiry, and the fields [Set] preserves. *)
Definition same_payload (a b : CacheItem) : Prop :=
  Key a = Key b /\ Value a = Value b /\ Size a = Size b /\
  ExpireAt a = ExpireAt b /\ CreatedAt a = CreatedAt b /\
  Compressed a = Compressed b.

(** [e] is a [Set] of [key]. *)
Definition sets_key (key : string) (e : Shard.Op * Time) : Prop :=
  match e.1 with
  | Shard.OpSet k _ _ => k = key
  | _ => False
  end.

(** [e] is no [Set] at all. *)
Definition no_set (e : Shard.Op * Time) : Prop :=
  match e.1 with
  | Shard.OpSet _ _ _ => False
  | _ => True
  end.

(** A cache whose shard array has [shardCount > 0] entries, as [NewCache]
    builds it. *)
Definition cache_wf (c : Cache.Cache) : Prop :=
  0 < Cache.shardCount c /\
  length (Cache.shards c) = Z.to_nat (Cache.shardCount c).

(** *** The shard invariant *)

(** A list-based index ([LRUList], [FIFOList]) covers exactly the keys of
    the map, each once. *)
Definition index_matches (l : list string) (d : gmap string CacheItem) : Prop :=
  NoDup l /\ forall k, k ∈ l <-> is_Some (d !! k).

(** [unlinkNode key frequency] and [linkNode key frequency now]: a node
    leaves [nodes] and its bucket, a node enters [nodes] and the back of
    its bucket.  The methods of [LFUList] are made of these two and of
    [updateMinFreq]. *)
Definition unlinkNode (key : string) (frequency : Z) (lfu : LFU.LFUList) : LFU.LFUList :=
  LFU.with_nodes (delete key (LFU.nodes lfu)) (LFU.removeFromFrequency key frequency lfu).

Definition linkNode (key : string) (frequency : Z) (now : Time) (lfu : LFU.LFUList)
  : LFU.LFUList :=
  LFU.addToFrequency key frequency
    (LFU.with_nodes (<[key := {| LFU.Frequency := frequency; LFU.LastUsed := now |}]>
                       (LFU.nodes lfu)) lfu).

(** The structure of an [LFUList], without its [minFreq]: every node sits
    once in the bucket of its frequency, every bucket holds nodes of its
    frequency, and frequencies are at least 1. *)
Definition lfu_buckets_wf (lfu : LFU.LFUList) : Prop :=
  (forall k n, LFU.nodes lfu !! k = Some n ->
     exists b, LFU.frequencies lfu !! LFU.Frequency n = Some b /\ k ∈ b) /\
  (forall f b k, LFU.frequencies lfu !! f = Some b -> k ∈ b ->
     exists n, LFU.nodes lfu !! k = Some n /\ LFU.Frequency n = f) /\
  (forall f b, LFU.frequencies lfu !! f = Some b -> NoDup b) /\
  (forall k n, LFU.nodes lfu !! k = Some n -> 1 <= LFU.Frequency n).

(** [minFreq] is a lower bound of the frequencies of the nodes. *)
Definition lfu_min_bound (lfu : LFU.LFUList) : Prop :=
  1 <= LFU.minFreq lfu /\
  forall k n, LFU.nodes lfu !! k = Some n -> LFU.minFreq lfu <= LFU.Frequency n.

(** [minFreq] is the least frequency of a node, when there is a node. *)
Definition lfu_min_exact (lfu : LFU.LFUList) : Prop :=
  lfu_min_bound lfu /\
  forall k n, LFU.nodes lfu !! k = Some n -> LFU.isEmpty lfu (LFU.minFreq lfu) = false.

Definition lfu_wf (lfu : LFU.LFUList) : Prop :=
  lfu_buckets_wf lfu /\ lfu_min_exact lfu.

(** An [LFUList] covers exactly the keys of the map, and indexes every
    entry at frequency [max 1 AccessCount]. *)
Definition lfu_matches (lfu : LFU.LFUList) (d : gmap string CacheItem) : Prop :=
  lfu_wf lfu /\
  (forall k, is_Some (LFU.nodes lfu !! k) <-> is_Some (d !! k)) /\
  (forall k n item, LFU.nodes lfu !! k = Some n -> d !! k = Some item ->
     LFU.Frequency n = Z.max 1 (AccessCount item)).

Definition list_matches (l : AnyList) (d : gmap string CacheItem) : Prop :=
  match l with
  | OfLRU lru => index_matches (LRU.list_ lru) d
  | OfLFU lfu => lfu_matches lfu d
  | OfFIFO fifo => index_matches (FIFO.list_ fifo) d
  end.

(** The dynamic type of the list is [*LFUList]. *)
Definition is_lfu (l : AnyList) : Prop :=
  match l with
  | OfLFU _ => True
  | _ => False
  end.

(** The invariant of a shard whose keys are non-empty. *)
Definition shard_inv (s : Shard.CacheShard) : Prop :=
  accounting s /\
  (forall k item, Shard.data s !! k = Some item ->
     k ≠ EmptyString /\ 0 <= Size item /\ 0 <= AccessCount item) /\
  list_matches (Shard.evictionList s) (Shard.data s).

(** The shard respects its memory limit, when it has one. *)
Definition within_budget (s : Shard.CacheShard) : Prop :=
  0 < Shard.maxSize s -> Shard.currentSize s <= Shard.maxSize s.

(** The states of an LFU shard in which the budget loop of a [Set] calls
    [evictOne]: after the write of a [Set] that follows any history (with
    non-empty keys) of a new shard, and after each eviction that leaves
    the shard over budget. *)
Inductive lfu_eviction_point : Shard.CacheShard -> Prop :=
| eviction_first m c cs h key value ttl now :
    Forall Shard.stores_nonempty_key h ->
    key ≠ EmptyString ->
    Shard.overBudget 0
      (Shard.Set_store (Shard.run h (Shard.NewCacheShard m EvictionLFU c cs))
         key value ttl now) = true ->
    lfu_eviction_point
      (Shard.Set_store (Shard.run h (Shard.NewCacheShard m EvictionLFU c cs))
         key value ttl now)
| eviction_next now s s' :
    lfu_eviction_point s ->
    Shard.evictOne now s = (true, s') ->
    Shard.overBudget 0 s' = true ->
    lfu_eviction_point s'.

(** The check that [roundToPowerOfTwo m] returns [2 ^ ceil(log2 m)]. *)
Definition rounds_to_log2_up (m : Z) : bool :=
  match Utils.roundToPowerOfTwo m with
  | Some p => p =? 2 ^ Z.log2_up m
  | None => false
  end.

(** ** Vocabulary of the further properties *)

(** [e] is not a [Clear]. *)
Definition no_clear (e : Shard.Op * Time) : Prop :=
  match e.1 with
  | Shard.OpClear => False
  | _ => True
  end.

(** [e] is a [Get]. *)
Definition is_get (e : Shard.Op * Time) : Prop :=
  match e.1 with
  | Shard.OpGet _ => True
  | _ => False
  end.

(** The number of [Get] calls of a history. *)
Definition count_gets (h : list (Shard.Op * Time)) : Z :=
  fold_right (fun e n => match e.1 with Shard.OpGet _ => 1 + n | _ => n end) 0 h.

(** The entry after a hit at [now]: [AccessAt] and [AccessCount] as [Get]
    writes them. *)
Definition touched (now : Time) (item : CacheItem) : CacheItem :=
  {| Key := Key item; Value := Value item; Size := Size item;
     ExpireAt := ExpireAt item; CreatedAt := CreatedAt item;
     AccessAt := now; AccessCount := AccessCount item + 1;
     Compressed := Compressed item |}.

(** The entry has not expired at [now]: it has no expiry, or [now] is not
    after it. *)
Definition live_at (now : Time) (item : CacheItem) : Prop :=
  ExpireAt item = 0 \/ now <= ExpireAt item.

(** [key] has a node in the eviction list. *)
Definition indexed (l : AnyList) (key : string) : Prop :=
  match l with
  | OfLRU lru => key ∈ LRU.list_ lru
  | OfLFU lfu => is_Some (LFU.nodes lfu !! key)
  | OfFIFO fifo => key ∈ FIFO.list_ fifo
  end.

(** The policy name of the dynamic type of an eviction list. *)
Definition kind (l : AnyList) : string :=
  match l with
  | OfLRU _ => EvictionLRU
  | OfLFU _ => EvictionLFU
  | OfFIFO _ => EvictionFIFO
  end.

(** [key] is the key that the list hands out last: the front of an
    [LRUList], the back of a [FIFOList]. *)
Definition evicted_last (l : AnyList) (key : string) : Prop :=
  match l with
  | OfLRU lru => exists rest, LRU.list_ lru = key :: rest
  | OfLFU _ => False
  | OfFIFO fifo => exists rest, FIFO.list_ fifo = rest ++ [key]
  end.

(** The expiry test of [Get]. *)
Definition expired (now : Time) (item : CacheItem) : bool :=
  negb (IsZero (ExpireAt item)) && After now (ExpireAt item).

(** The call is a [Get] of [key] that finds [item] not expired. *)
Definition hits (key : string) (item : CacheItem) (e : Shard.Op * Time) : bool :=
  match e.1 with
  | Shard.OpGet k => bool_decide (k = key) && negb (expired e.2 item)
  | _ => false
  end.

(** The compressor contract at [value], for the compressor of a shard. *)
Definition compressor_sound_at (s : Shard.CacheShard) (value : bytes) : Prop :=
  forall c out, Shard.compressor s = Some c ->
                Compress c value = (out, None) -> Decompress c out = (value, None).

(** Every stored entry carries its key and the length of its payload, has
    been read a non-negative number of times, and is marked compressed
    only in a shard that has a compressor. *)
Definition entries_wf (s : Shard.CacheShard) : Prop :=
  forall k item, Shard.data s !! k = Some item ->
    Key item = k /\ Size item = len (Value item) /\ 0 <= AccessCount item /\
    (Compressed item = true -> is_Some (Shard.compressor s)).

(** All stored sizes are non-negative. *)
Definition sizes_nonneg (d : gmap string CacheItem) : Prop :=
  forall k item, d !! k = Some item -> 0 <= Size item.

(** *** Histories of a cache *)

Inductive CacheOp : Type :=
| COpSet (key : string) (value : bytes) (ttl : Z)
| COpGet (key : string)
| COpDelete (key : string)
| COpClear.

(** One call on the cache; [None] where the call panics. *)
Definition cache_step (c : Cache.Cache) (e : CacheOp * Time) : option Cache.Cache :=
  match e.1 with
  | COpSet key value ttl =>
      match Cache.Set_ c key value ttl e.2 with
      | Some r => Some r.2
      | None => None
      end
  | COpGet key =>
      match Cache.Get c key e.2 with
      | Some r => Some r.1.2
      | None => None
      end
  | COpDelete key => Cache.Delete c key
  | COpClear => Some (Cache.Clear c)
  end.

Fixpoint cache_run (h : list (CacheOp * Time)) (c : Cache.Cache) : option Cache.Cache :=
  match h with
  | [] => Some c
  | e :: h' =>
      match cache_step c e with
      | Some c' => cache_run h' c'
      | None => None
      end
  end.

Definition cache_stores_nonempty_key (e : CacheOp * Time) : Prop :=
  match e.1 with
  | COpSet key _ _ => key ≠ EmptyString
  | _ => True
  end.

(** The index of the shard of [key] in a cache of [n] shards. *)
Definition shard_of (n : Z) (key : string) : nat :=
  Z.to_nat (Z.rem (Utils.fnv1a key) n).

(** The key of a keyed operation. *)
Definition op_key (e : CacheOp * Time) : option string :=
  match e.1 with
  | COpSet key _ _ | COpGet key | COpDelete key => Some key
  | COpClear => None
  end.

(** The call on a shard that a call on the cache makes. *)
Definition shard_op (e : CacheOp * Time) : Shard.Op * Time :=
  (match e.1 with
   | COpSet key value ttl => Shard.OpSet key value ttl
   | COpGet key => Shard.OpGet key
   | COpDelete key => Shard.OpDelete key
   | COpClear => Shard.OpClear
   end, e.2).

(** The call reaches shard [i] of [n]: [Clear] reaches every shard, a
    keyed call the shard of its key. *)
Definition routed (n : Z) (i : nat) (e : CacheOp * Time) : bool :=
  match op_key e with
  | Some key => bool_decide (shard_of n key = i)
  | None => true
  end.

(** The history of shard [i] inside the history [h] of the cache. *)
Definition project (n : Z) (i : nat) (h : list (CacheOp * Time))
  : list (Shard.Op * Time) :=
  map shard_op (List.filter (routed n i) h).

(** [key] is stored in the cache, in the shard of its hash. *)
Definition cache_stored (c : Cache.Cache) (key : string) : Prop :=
  exists shard, Cache.shards c !! shard_of (Cache.shardCount c) key = Some shard /\
                is_Some (Shard.data shard !! key).

(** Every shard of the cache satisfies [P]. *)
Definition all_shards (P : Shard.CacheShard -> Prop) (c : Cache.Cache) : Prop :=
  Forall P (Cache.shards c).

(** Sum of [Size] over all entries of all shards. *)
Definition cacheSumSizes (c : Cache.Cache) : Z :=
  fold_left (fun acc shard => acc + Shard.sumSizes (Shard.data shard)) (Cache.shards c) 0.

(** * Properties *)

(** ** Shard count selection *)

Section ShardCount.

Import Utils.

Lemma wrap_int_small (z : Z) : - 2 ^ 63 <= z <= max_int -> wrap_int z = z.
Proof.
  unfold wrap_int, max_int. intros Hz.
  rewrite Z.mod_small by lia. lia.
Qed.

Lemma wrap_int_range (z : Z) : - 2 ^ 63 <= wrap_int z <= max_int.
Proof.
  unfold wrap_int, max_int.
  pose proof (Z.mod_pos_bound (z + 2 ^ 63) (2 ^ 64) ltac:(lia)). lia.
Qed.

Lemma roundToPowerOfTwo_clamped (m : Z) :
  4 <= m <= 256 -> roundToPowerOfTwo m = Some (2 ^ Z.log2_up m).
Proof.
  intros Hm.
  assert (Hall : forallb rounds_to_log2_up (seqZ 4 253) = true)
    by (vm_compute; reflexivity).
  rewrite forallb_forall in Hall.
  assert (Hin : In m (seqZ 4 253)).
  { apply list_elem_of_In, elem_of_seqZ. lia. }
  specialize (Hall m Hin). unfold rounds_to_log2_up in Hall.
  destruct (roundToPowerOfTwo m) as [p|]; [|discriminate].
  apply Z.eqb_eq in Hall. congruence.
Qed.

Lemma log2_up_next_power_of_two (m : Z) :
  1 < m -> is_next_power_of_two m (2 ^ Z.log2_up m).
Proof.
  intros Hm. split; [|split].
  - exists (Z.log2_up m). split; [apply Z.log2_up_nonneg | reflexivity].
  - apply Z.log2_up_spec. lia.
  - intros j Hj Hle. apply Z.pow_le_mono_r; [lia|].
    apply Z.log2_up_le_pow2; lia.
Qed.

Lemma clamp_range (x : Z) : 4 <= clamp 4 256 x <= 256.
Proof. unfold clamp. lia. Qed.

Lemma getOptimalShardCount_clamp (n : Z) :
  getOptimalShardCount n = roundToPowerOfTwo (clamp 4 256 (wrap_int (n * 2))).
Proof.
  unfold getOptimalShardCount, clamp.
  set (w := wrap_int (n * 2)).
  destruct (w <? 4) eqn:H4.
  - apply Z.ltb_lt in H4. replace (256 <? 4) with false by reflexivity.
    f_equal. lia.
  - apply Z.ltb_ge in H4. destruct (256 <? w) eqn:H256.
    + apply Z.ltb_lt in H256. f_equal. lia.
    + apply Z.ltb_ge in H256. f_equal. lia.
Qed.

(** For any reading of the CPU count the shard count is returned, lies
    in [[4, 256]] and is a power of two. *)
Lemma getOptimalShardCount_returns (n : Z) :
  exists p, getOptimalShardCount n = Some p /\ 4 <= p <= 256 /\
            is_next_power_of_two (clamp 4 256 (wrap_int (n * 2))) p.
Proof.
  rewrite getOptimalShardCount_clamp.
  pose proof (clamp_range (wrap_int (n * 2))) as Hc.
  set (m := clamp 4 256 (wrap_int (n * 2))) in *.
  exists (2 ^ Z.log2_up m). split; [by apply roundToPowerOfTwo_clamped|].
  pose proof (log2_up_next_power_of_two m ltac:(lia)) as Hnext.
  split; [|exact Hnext].
  destruct Hnext as (_ & Hle & Hmin). split; [lia|].
  apply (Hmin 8); [lia|]. change (2 ^ 8) with 256. lia.
Qed.

End ShardCount.

(** C10.  For every logical CPU count [n >= 1] (with [2 * n] an [int]),
    [getOptimalShardCount] returns the least power of two that is at least
    [clamp (2 * n) 4 256]; the result lies in [[4, 256]] and is a power of
    two. *)
Theorem shard_count_selection (n : Z) :
  1 <= n -> 2 * n <= Utils.max_int ->
  exists p, Utils.getOptimalShardCount n = Some p /\
            is_next_power_of_two (clamp 4 256 (2 * n)) p /\
            4 <= p <= 256 /\
            (exists k, 0 <= k /\ p = 2 ^ k).
Proof.
  intros Hn Hmax.
  destruct (getOptimalShardCount_returns n) as (p & Hp & Hrange & Hnext).
  rewrite wrap_int_small in Hnext by (unfold Utils.max_int in *; lia).
  replace (n * 2) with (2 * n) in Hnext by lia.
  exists p. split; [exact Hp|]. split; [exact Hnext|]. split; [exact Hrange|].
  apply Hnext.
Qed.

Lemma shard_count_selection_witness :
  1 <= 6 /\ 2 * 6 <= Utils.max_int /\
  exists p, Utils.getOptimalShardCount 6 = Some p /\
            is_next_power_of_two (clamp 4 256 (2 * 6)) p /\
            4 <= p <= 256 /\
            (exists k, 0 <= k /\ p = 2 ^ k).
Proof.
  split; [lia|]. split; [unfold Utils.max_int; lia|].
  apply (shard_count_selection 6); [lia | unfold Utils.max_int; lia].
Defined.

(** ** Budget partition *)

Section Budget.

Import Cache.

Lemma NewCacheShard_maxSize m p c cs :
  Shard.maxSize (Shard.NewCacheShard m p c cs) = m.
Proof. unfold Shard.NewCacheShard. repeat case_decide; reflexivity. Qed.

Lemma fold_left_add_const {A : Type} (f : A -> Z) (l : list A) (x acc : Z) :
  (forall a, a ∈ l -> f a = x) ->
  fold_left (fun acc a => acc + f a) l acc = acc + Z.of_nat (length l) * x.
Proof.
  revert acc. induction l as [|a l IH]; intros acc Hall; simpl.
  - lia.
  - rewrite IH by (intros b Hb; apply Hall; by right).
    rewrite (Hall a) by (by left). lia.
Qed.

Lemma NewCache_shape numCPU opts c :
  NewCache numCPU opts = Some c ->
  4 <= shardCount c <= 256 /\
  length (shards c) = Z.to_nat (shardCount c) /\
  (forall shard, shard ∈ shards c ->
     Shard.maxSize shard = shardMaxSizeOf (maxSize c) (shardCount c)).
Proof.
  unfold NewCache. intros Hnew.
  destruct (getOptimalShardCount_returns numCPU) as (p & Hp & Hrange & _).
  rewrite Hp in Hnew. injection Hnew as <-. simpl.
  split; [exact Hrange|]. split; [apply length_replicate|].
  intros shard Hin. apply elem_of_replicate in Hin as [-> _].
  apply NewCacheShard_maxSize.
Qed.

End Budget.

(** C8, as the code has it.  Every shard is created with the limit
    [maxSize / shardCount] (Go's truncating division), or with one byte
    when that quotient is 0 and [maxSize > 0].  The limits of the shards
    add up to [shardCount] times that limit: to [maxSize] itself when
    [shardCount] divides it, to more than [maxSize - shardCount] and at most
    [maxSize] when [maxSize >= shardCount], and to [shardCount] (more than
    [maxSize]) when [0 < maxSize < shardCount]. *)
Theorem budget_partition (numCPU : Z) (opts : list Cache.Option) (c : Cache.Cache) :
  Cache.NewCache numCPU opts = Some c ->
  let m := Cache.maxSize c in
  let n := Cache.shardCount c in
  let per_shard := if (Z.quot m n =? 0) && (0 <? m) then 1 else Z.quot m n in
  4 <= n <= 256 /\
  length (Cache.shards c) = Z.to_nat n /\
  (forall shard, shard ∈ Cache.shards c -> Shard.maxSize shard = per_shard) /\
  Cache.sumShardMaxSize c = n * per_shard /\
  (0 <= m -> m mod n = 0 -> Cache.sumShardMaxSize c = m) /\
  (n <= m -> m - n < Cache.sumShardMaxSize c <= m) /\
  (0 < m < n -> Cache.sumShardMaxSize c = n).
Proof.
  intros Hnew m n per_shard.
  destruct (NewCache_shape _ _ _ Hnew) as (Hn & Hlen & Hmax).
  fold n in Hn, Hlen, Hmax. fold m in Hmax.
  assert (Hsum : Cache.sumShardMaxSize c = n * per_shard).
  { unfold Cache.sumShardMaxSize.
    rewrite (fold_left_add_const _ _ per_shard) by exact Hmax.
    rewrite Hlen. lia. }
  split; [exact Hn|]. split; [exact Hlen|]. split; [exact Hmax|].
  split; [exact Hsum|].
  rewrite Hsum. subst per_shard.
  split; [|split].
  - intros Hm Hdiv. rewrite Z.quot_div_nonneg by lia.
    pose proof (Z.div_mod m n ltac:(lia)) as Hdm. rewrite Hdiv in Hdm.
    destruct (m / n =? 0) eqn:Hq; simpl.
    + apply Z.eqb_eq in Hq. rewrite Hq in Hdm.
      replace (0 <? m) with false by (symmetry; apply Z.ltb_ge; lia). lia.
    + lia.
  - intros Hle. rewrite Z.quot_div_nonneg by lia.
    pose proof (Z.div_mod m n ltac:(lia)) as Hdm.
    pose proof (Z.mod_pos_bound m n ltac:(lia)) as Hmod.
    assert (Hq1 : 1 <= m / n) by (apply Z.div_le_lower_bound; lia).
    replace (m / n =? 0) with false by (symmetry; apply Z.eqb_neq; lia).
    simpl. lia.
  - intros Hlt. rewrite Z.quot_div_nonneg by lia.
    rewrite Z.div_small by lia. simpl.
    replace (0 <? m) with true by (symmetry; apply Z.ltb_lt; lia). lia.
Qed.

Lemma budget_partition_witness :
  exists c, Cache.NewCache 2 [Cache.WithMaxSize 1000] = Some c /\
    4 <= Cache.shardCount c <= 256 /\
    length (Cache.shards c) = Z.to_nat (Cache.shardCount c) /\
    Cache.sumShardMaxSize c = 1000.
Proof.
  eexists. split; [reflexivity|].
  pose proof (budget_partition 2 [Cache.WithMaxSize 1000] _ eq_refl) as H.
  cbv zeta in H. destruct H as (Hn & Hlen & _ & _ & Hdiv & _).
  split; [exact Hn|]. split; [exact Hlen|].
  apply Hdiv; [vm_compute; discriminate | reflexivity].
Defined.

(** C8, the claim as stated fails: with 150 bytes over 4 shards every shard
    gets 37 bytes, and the limits add up to 148, not to the cache's 150. *)
Lemma budget_partition_sum_counterexample :
  exists c, Cache.NewCache 2 [Cache.WithMaxSize 150] = Some c /\
    Cache.shardCount c = 4 /\
    Cache.maxSize c = 150 /\
    (forall shard, shard ∈ Cache.shards c -> Shard.maxSize shard = 37) /\
    Cache.sumShardMaxSize c = 148 /\
    Cache.maxSize c <> Cache.sumShardMaxSize c.
Proof.
  eexists. split; [reflexivity|].
  split; [reflexivity|]. split; [reflexivity|].
  split; [|split; [reflexivity | vm_compute; discriminate]].
  intros shard Hin. simpl in Hin.
  repeat (apply elem_of_cons in Hin as [-> | Hin]; [reflexivity|]).
  by apply elem_of_nil in Hin.
Qed.

(** ** The shard: accounting, the eviction loop, frames *)

Section ShardBasics.

Import Shard.

Lemma sumSizes_empty : sumSizes ∅ = 0.
Proof. apply map_fold_empty. Qed.

Lemma sumSizes_insert_fresh (d : gmap string CacheItem) k item :
  d !! k = None -> sumSizes (<[k := item]> d) = Size item + sumSizes d.
Proof.
  intros Hk. unfold sumSizes.
  apply (map_fold_insert_L (fun _ item acc => Size item + acc)); [|exact Hk].
  intros. lia.
Qed.

Lemma sumSizes_delete (d : gmap string CacheItem) k item :
  d !! k = Some item -> sumSizes (delete k d) = sumSizes d - Size item.
Proof.
  intros Hk. unfold sumSizes.
  rewrite (map_fold_delete_L (fun _ item acc => Size item + acc) 0 k item d);
    [lia | intros; lia | exact Hk].
Qed.

Lemma sumSizes_insert_over (d : gmap string CacheItem) k old item :
  d !! k = Some old -> sumSizes (<[k := item]> d) = sumSizes d - Size old + Size item.
Proof.
  intros Hk. rewrite <- insert_delete_eq.
  rewrite sumSizes_insert_fresh by apply lookup_delete_eq.
  rewrite (sumSizes_delete _ _ old) by exact Hk. lia.
Qed.

Lemma size_delete_stored (d : gmap string CacheItem) k item :
  d !! k = Some item -> S (size (delete k d)) = size d.
Proof.
  intros Hk. rewrite map_size_delete_Some by eauto.
  assert (size d ≠ 0%nat).
  { intros H0. apply map_size_empty_iff in H0. subst d.
    by rewrite lookup_empty in Hk. }
  lia.
Qed.

(** *** [evictOne] *)

Lemma evictOne_true now s s' :
  evictOne now s = (true, s') ->
  exists k item,
    k ≠ EmptyString /\
    (RemoveLeast now (evictionList s)).1 = k /\
    data s !! k = Some item /\
    s' = {| maxSize := maxSize s; evictionPolicy := evictionPolicy s;
            data := delete k (data s);
            evictionList := (RemoveLeast now (evictionList s)).2;
            stats := {| Hits := Hits (stats s); Misses := Misses (stats s);
                        Evictions := Evictions (stats s) + 1 |};
            currentSize := currentSize s - Size item;
            currentCount := currentCount s - 1;
            compressor := compressor s; compressSize := compressSize s |}.
Proof.
  unfold evictOne. cbv zeta.
  destruct (decide _) as [|Hne]; [discriminate|]. simpl.
  destruct (data s !! _) as [item|] eqn:Hk; [|discriminate].
  intros [= <-]. exists (RemoveLeast now (evictionList s)).1, item.
  repeat split; done.
Qed.

Lemma evictOne_false now s s' :
  evictOne now s = (false, s') ->
  s' = with_evictionList (RemoveLeast now (evictionList s)).2 s.
Proof.
  unfold evictOne. cbv zeta.
  destruct (decide _) as [|Hne]; [by intros [= <-]|]. simpl.
  destruct (data s !! _) as [item|] eqn:Hk; [discriminate|].
  by intros [= <-].
Qed.

(** *** The loop of [evictIfNeeded] *)

Lemma evictIfNeeded_loop_invariant (P : CacheShard -> Prop) n now :
  (forall s b s', P s -> overBudget n s = true -> evictOne now s = (b, s') -> P s') ->
  forall fuel s, P s -> P (evictIfNeeded_loop fuel n now s).
Proof.
  intros Hstep. induction fuel as [|fuel IH]; intros s Hs; simpl; [exact Hs|].
  destruct (overBudget n s) eqn:Hover; [|exact Hs].
  destruct (evictOne now s) as [b s'] eqn:Hev. simpl.
  pose proof (Hstep _ _ _ Hs Hover Hev) as Hs'.
  destruct b; [by apply IH | exact Hs'].
Qed.

Lemma evictIfNeeded_invariant (P : CacheShard -> Prop) n now s :
  (forall s b s', P s -> overBudget n s = true -> evictOne now s = (b, s') -> P s') ->
  P s -> P (evictIfNeeded n now s).
Proof.
  intros Hstep Hs. unfold evictIfNeeded.
  by apply evictIfNeeded_loop_invariant.
Qed.

Lemma evictIfNeeded_loop_runs n now fuel :
  forall s, (size (data s) < fuel)%nat ->
            evict_loop_run n now s (evictIfNeeded_loop fuel n now s).
Proof.
  induction fuel as [|fuel IH]; intros s Hfuel; [lia|]. simpl.
  destruct (overBudget n s) eqn:Hover; [|by apply loop_within].
  destruct (evictOne now s) as [b s'] eqn:Hev. simpl. destruct b.
  - eapply loop_iter; [exact Hover | exact Hev |]. apply IH.
    apply evictOne_true in Hev as (k & item & _ & _ & Hk & ->). simpl.
    pose proof (size_delete_stored _ _ _ Hk). lia.
  - by eapply loop_break.
Qed.

(** The iteration bound of [evictIfNeeded] is never what stops it: the
    state it returns is the state in which the Go loop exits. *)
Lemma evictIfNeeded_terminates n now s :
  evict_loop_run n now s (evictIfNeeded n now s).
Proof. apply evictIfNeeded_loop_runs. lia. Qed.

(** *** What the loop leaves alone *)

Lemma evictOne_data_subseteq now s b s' :
  evictOne now s = (b, s') -> data s' ⊆ data s.
Proof.
  destruct b; intros Hev.
  - apply evictOne_true in Hev as (k & item & _ & _ & _ & ->). simpl.
    apply delete_subseteq.
  - apply evictOne_false in Hev as ->. done.
Qed.

Lemma evictOne_config now s b s' :
  evictOne now s = (b, s') ->
  maxSize s' = maxSize s /\ evictionPolicy s' = evictionPolicy s /\
  compressor s' = compressor s /\ compressSize s' = compressSize s /\
  Hits (stats s') = Hits (stats s) /\ Misses (stats s') = Misses (stats s).
Proof.
  destruct b; intros Hev.
  - apply evictOne_true in Hev as (k & item & _ & _ & _ & ->). done.
  - apply evictOne_false in Hev as ->. done.
Qed.

Lemma evictIfNeeded_data_subseteq n now s :
  data (evictIfNeeded n now s) ⊆ data s.
Proof.
  apply (evictIfNeeded_invariant (fun s' => data s' ⊆ data s)); [|done].
  intros s1 b s2 Hs1 _ Hev. etrans; [|exact Hs1].
  by eapply evictOne_data_subseteq.
Qed.

Lemma evictIfNeeded_config n now s :
  maxSize (evictIfNeeded n now s) = maxSize s /\
  evictionPolicy (evictIfNeeded n now s) = evictionPolicy s /\
  compressor (evictIfNeeded n now s) = compressor s /\
  compressSize (evictIfNeeded n now s) = compressSize s /\
  Hits (stats (evictIfNeeded n now s)) = Hits (stats s) /\
  Misses (stats (evictIfNeeded n now s)) = Misses (stats s).
Proof.
  apply (evictIfNeeded_invariant (fun s' =>
    maxSize s' = maxSize s /\ evictionPolicy s' = evictionPolicy s /\
    compressor s' = compressor s /\ compressSize s' = compressSize s /\
    Hits (stats s') = Hits (stats s) /\ Misses (stats s') = Misses (stats s)));
    [|done].
  intros s1 b s2 Hs1 _ Hev.
  apply evictOne_config in Hev. destruct Hev as (-> & -> & -> & -> & -> & ->).
  exact Hs1.
Qed.

(** The loop leaves a shard that is within budget untouched. *)
Lemma evictIfNeeded_within n now s :
  overBudget n s = false -> evictIfNeeded n now s = s.
Proof. intros Hover. unfold evictIfNeeded. simpl. by rewrite Hover. Qed.

(** *** Accounting *)

Lemma accounting_new m p c cs : accounting (NewCacheShard m p c cs).
Proof.
  unfold NewCacheShard, accounting.
  repeat case_decide; simpl; rewrite sumSizes_empty, map_size_empty; done.
Qed.

Lemma accounting_evictOne now s b s' :
  accounting s -> evictOne now s = (b, s') -> accounting s'.
Proof.
  intros [Hsz Hcnt]. destruct b; intros Hev.
  - apply evictOne_true in Hev as (k & item & _ & _ & Hk & ->).
    split; simpl.
    + rewrite (sumSizes_delete _ _ item) by exact Hk. lia.
    + pose proof (size_delete_stored _ _ _ Hk). lia.
  - apply evictOne_false in Hev as ->. done.
Qed.

Lemma accounting_evictIfNeeded n now s :
  accounting s -> accounting (evictIfNeeded n now s).
Proof.
  apply evictIfNeeded_invariant. intros s1 b s2 Hs1 _ Hev.
  by eapply accounting_evictOne.
Qed.

Lemma accounting_Set_store s key value ttl now :
  accounting s -> accounting (Set_store s key value ttl now).
Proof.
  intros [Hsz Hcnt]. unfold Set_store.
  destruct (compressDecision s value) as [[finalValue size] compressed].
  destruct (data s !! key) as [oldItem|] eqn:Hk; split; simpl.
  - rewrite (sumSizes_insert_over _ _ oldItem) by exact Hk. simpl. lia.
  - rewrite map_size_insert_Some by eauto. exact Hcnt.
  - rewrite sumSizes_insert_fresh by exact Hk. simpl. lia.
  - rewrite map_size_insert_None by exact Hk. lia.
Qed.

Lemma accounting_Set s key value ttl now :
  accounting s -> accounting (Set_ s key value ttl now).2.
Proof. intros Hs. by apply accounting_evictIfNeeded, accounting_Set_store. Qed.

Lemma accounting_Get s key now :
  accounting s -> accounting (Get s key now).1.2.
Proof.
  intros [Hsz Hcnt]. unfold Get.
  destruct (data s !! key) as [item|] eqn:Hk; [|done].
  destruct (negb _ && _); [done|].
  assert (accounting (recordHit (with_evictionList
    (Update key
       {| Key := Key item; Value := Value item; Size := Size item;
          ExpireAt := ExpireAt item; CreatedAt := CreatedAt item;
          AccessAt := now; AccessCount := AccessCount item + 1;
          Compressed := Compressed item |} now (evictionList s))
    (with_data (<[key :=
       {| Key := Key item; Value := Value item; Size := Size item;
          ExpireAt := ExpireAt item; CreatedAt := CreatedAt item;
          AccessAt := now; AccessCount := AccessCount item + 1;
          Compressed := Compressed item |}]> (data s)) s)))) as Hacc.
  { split; simpl.
    - rewrite (sumSizes_insert_over _ _ item) by exact Hk. simpl. lia.
    - rewrite map_size_insert_Some by eauto. exact Hcnt. }
  cbv zeta. simpl Compressed.
  destruct (Compressed item); [|exact Hacc].
  simpl compressor. destruct (compressor s); exact Hacc.
Qed.

Lemma accounting_Delete s key :
  accounting s -> accounting (Delete s key).
Proof.
  intros [Hsz Hcnt]. unfold Delete.
  destruct (data s !! key) as [item|] eqn:Hk; [|done]. split; simpl.
  - rewrite (sumSizes_delete _ _ item) by exact Hk. lia.
  - pose proof (size_delete_stored _ _ _ Hk). lia.
Qed.

Lemma accounting_Clear s : accounting (Clear s).
Proof. split; simpl; [by rewrite sumSizes_empty | by rewrite map_size_empty]. Qed.

Lemma accounting_step s e : accounting s -> accounting (step s e).
Proof.
  intros Hs. unfold step. destruct e.1.
  - by apply accounting_Set.
  - by apply accounting_Get.
  - by apply accounting_Delete.
  - apply accounting_Clear.
Qed.

(** An invariant of the steps is an invariant of every history. *)
Lemma run_invariant (P : CacheShard -> Prop) (Q : Op * Time -> Prop) h :
  (forall s e, P s -> Q e -> P (step s e)) ->
  forall s, P s -> Forall Q h -> P (run h s).
Proof.
  intros Hstep. unfold run.
  induction h as [|e h IH]; intros s Hs Hall; simpl; [exact Hs|].
  inversion Hall; subst. apply IH; [|assumption]. by apply Hstep.
Qed.

Lemma accounting_run h s : accounting s -> accounting (run h s).
Proof.
  intros Hs.
  apply (run_invariant accounting (fun _ => True)); [|exact Hs|].
  - intros s1 e Hs1 _. by apply accounting_step.
  - by apply Forall_true.
Qed.

End ShardBasics.

(** C3.  The accounting invariant ([currentSize] is the sum of [Size] over
    the stored entries, [currentCount] their number) holds for a new shard
    and is preserved by [Set] (on a new key and on a stored one), [Get],
    [Delete], [Clear] and by every eviction; so it holds after every
    history of operations. *)
Theorem accounting_invariant (s : Shard.CacheShard) :
  accounting s ->
  (forall key value ttl now, accounting (Shard.Set_ s key value ttl now).2) /\
  (forall key now, accounting (Shard.Get s key now).1.2) /\
  (forall key, accounting (Shard.Delete s key)) /\
  accounting (Shard.Clear s) /\
  (forall now, accounting (Shard.evictOne now s).2) /\
  (forall n now, accounting (Shard.evictIfNeeded n now s)) /\
  (forall h, accounting (Shard.run h s)) /\
  (forall m p c cs h, accounting (Shard.run h (Shard.NewCacheShard m p c cs))).
Proof.
  intros Hs.
  split; [intros; by apply accounting_Set|].
  split; [intros; by apply accounting_Get|].
  split; [intros; by apply accounting_Delete|].
  split; [apply accounting_Clear|].
  split.
  { intros now. destruct (Shard.evictOne now s) as [b s'] eqn:Hev.
    apply (accounting_evictOne now s b s' Hs Hev). }
  split; [intros; by apply accounting_evictIfNeeded|].
  split; [intros; by apply accounting_run|].
  intros. apply accounting_run, accounting_new.
Qed.

Lemma accounting_invariant_witness :
  let s := Shard.run [(Shard.OpSet "a"%string [x61; x62] 0, 1);
                      (Shard.OpSet "b"%string [x63] 0, 2)]
                     (Shard.NewCacheShard 10 EvictionLFU None 0) in
  accounting s /\
  accounting (Shard.Set_ s "a"%string [x64] 0 3).2 /\
  accounting (Shard.Delete s "b"%string).
Proof.
  intros s.
  assert (Hs : accounting s) by (split; vm_compute; reflexivity).
  split; [exact Hs|].
  destruct (accounting_invariant s Hs) as (Hset & _ & Hdel & _).
  split; [apply Hset | apply Hdel].
Defined.

(** ** The shard: what [Set], [Get] and [Delete] do to an entry *)

Section ShardFrames.

Import Shard.

Lemma evictIfNeeded_lookup n now s k item :
  data (evictIfNeeded n now s) !! k = Some item -> data s !! k = Some item.
Proof. intros Hk. eapply lookup_weaken; [exact Hk|]. apply evictIfNeeded_data_subseteq. Qed.

Lemma compressDecision_sound s value finalValue size compressed :
  compressDecision s value = (finalValue, size, compressed) ->
  size = len finalValue /\
  (compressed = false -> finalValue = value) /\
  (compressed = true ->
     exists c, compressor s = Some c /\ Compress c value = (finalValue, None)).
Proof.
  unfold compressDecision.
  destruct (compressSize s <? len value);
    [|intros [= <- <- <-]; split; [done|]; split; [done|discriminate]].
  destruct (compressor s) as [c|];
    [|intros [= <- <- <-]; split; [done|]; split; [done|discriminate]].
  destruct (Compress c value) as [out err] eqn:Hc. simpl.
  destruct err;
    [intros [= <- <- <-]; split; [done|]; split; [done|discriminate]|].
  destruct (len out <? len value);
    intros [= <- <- <-]; (split; [done|]); split; try done.
  intros _. by exists c.
Qed.

(** The entry that [Set] writes and the map it leaves before the budget
    is enforced. *)
Lemma Set_store_data s key value ttl now :
  exists item,
    data (Set_store s key value ttl now) = <[key := item]> (data s) /\
    Value item = (compressDecision s value).1.1 /\
    Size item = (compressDecision s value).1.2 /\
    Compressed item = (compressDecision s value).2 /\
    ExpireAt item = (if 0 <? ttl then now + ttl else 0) /\
    AccessAt item = now /\
    match data s !! key with
    | Some old => Key item = Key old /\ CreatedAt item = CreatedAt old /\
                  AccessCount item = AccessCount old
    | None => Key item = key /\ CreatedAt item = now /\ AccessCount item = 0
    end.
Proof.
  unfold Set_store.
  destruct (compressDecision s value) as [[finalValue size] compressed].
  destruct (data s !! key) as [old|]; eexists; simpl; repeat split; reflexivity.
Qed.

Lemma Set_store_config s key value ttl now :
  maxSize (Set_store s key value ttl now) = maxSize s /\
  evictionPolicy (Set_store s key value ttl now) = evictionPolicy s /\
  compressor (Set_store s key value ttl now) = compressor s /\
  compressSize (Set_store s key value ttl now) = compressSize s /\
  stats (Set_store s key value ttl now) = stats s.
Proof.
  unfold Set_store.
  destruct (compressDecision s value) as [[finalValue size] compressed].
  destruct (data s !! key); done.
Qed.

Lemma Set_config s key value ttl now :
  maxSize (Set_ s key value ttl now).2 = maxSize s /\
  evictionPolicy (Set_ s key value ttl now).2 = evictionPolicy s /\
  compressor (Set_ s key value ttl now).2 = compressor s /\
  compressSize (Set_ s key value ttl now).2 = compressSize s.
Proof.
  unfold Set_. simpl.
  destruct (evictIfNeeded_config 0 now (Set_store s key value ttl now))
    as (-> & -> & -> & -> & _).
  destruct (Set_store_config s key value ttl now) as (-> & -> & -> & -> & _).
  done.
Qed.

(** [Get] of a key that is not stored. *)
Lemma Get_absent s key now :
  data s !! key = None ->
  Get s key now = (Returned [] (Some ErrKeyNotFound), recordMiss s, None).
Proof. intros Hk. unfold Get. by rewrite Hk. Qed.

(** [Get] of an expired entry. *)
Lemma Get_expired s key item now :
  data s !! key = Some item ->
  ExpireAt item ≠ 0 -> ExpireAt item < now ->
  Get s key now = (Returned [] (Some ErrKeyNotFound), recordMiss s, Some key).
Proof.
  intros Hk Hnz Hlt. unfold Get. rewrite Hk.
  unfold IsZero, After.
  replace (ExpireAt item =? 0) with false by (symmetry; by apply Z.eqb_neq).
  replace (ExpireAt item <? now) with true by (symmetry; by apply Z.ltb_lt).
  reflexivity.
Qed.

(** [Get] of a live entry: what it returns. *)
Lemma Get_live_result s key item now :
  data s !! key = Some item ->
  (ExpireAt item = 0 \/ now <= ExpireAt item) ->
  (Get s key now).1.1 =
    if Compressed item then
      match compressor s with
      | Some c => Returned (Decompress c (Value item)).1 (Decompress c (Value item)).2
      | None => Panicked
      end
    else Returned (Value item) None.
Proof.
  intros Hk Hlive. unfold Get. rewrite Hk.
  assert (negb (IsZero (ExpireAt item)) && After now (ExpireAt item) = false) as ->.
  { unfold IsZero, After. destruct Hlive as [->|Hle]; [reflexivity|].
    apply andb_false_iff. right. by apply Z.ltb_ge. }
  cbv zeta. simpl Compressed. destruct (Compressed item); [|reflexivity].
  simpl compressor. destruct (compressor s); reflexivity.
Qed.

(** What [Get] does to the map: nothing, or the access metadata of the
    entry it read. *)
Lemma Get_data s key now :
  data (Get s key now).1.2 = data s \/
  exists item item',
    data s !! key = Some item /\ same_payload item item' /\
    AccessCount item' = AccessCount item + 1 /\ AccessAt item' = now /\
    data (Get s key now).1.2 = <[key := item']> (data s).
Proof.
  unfold Get. destruct (data s !! key) as [item|] eqn:Hk; [|by left].
  destruct (negb _ && _); [by left|]. right.
  exists item,
    {| Key := Key item; Value := Value item; Size := Size item;
       ExpireAt := ExpireAt item; CreatedAt := CreatedAt item;
       AccessAt := now; AccessCount := AccessCount item + 1;
       Compressed := Compressed item |}.
  split; [reflexivity|]. split; [done|]. split; [done|]. split; [done|].
  cbv zeta. simpl Compressed.
  destruct (Compressed item); [simpl compressor; destruct (compressor s)|];
    reflexivity.
Qed.

Lemma Get_config s key now :
  maxSize (Get s key now).1.2 = maxSize s /\
  evictionPolicy (Get s key now).1.2 = evictionPolicy s /\
  compressor (Get s key now).1.2 = compressor s /\
  compressSize (Get s key now).1.2 = compressSize s /\
  Evictions (stats (Get s key now).1.2) = Evictions (stats s).
Proof.
  unfold Get. destruct (data s !! key) as [item|]; [|done].
  destruct (negb _ && _); [done|]. cbv zeta. simpl Compressed.
  destruct (Compressed item);
    [simpl compressor; destruct (compressor s) eqn:Hc|];
    simpl; rewrite ?Hc; done.
Qed.

Lemma Delete_config s key :
  maxSize (Delete s key) = maxSize s /\
  evictionPolicy (Delete s key) = evictionPolicy s /\
  compressor (Delete s key) = compressor s /\
  compressSize (Delete s key) = compressSize s /\
  stats (Delete s key) = stats s.
Proof. unfold Delete. destruct (data s !! key); done. Qed.

Lemma Delete_data s key : data (Delete s key) = delete key (data s).
Proof.
  unfold Delete. destruct (data s !! key) eqn:Hk; [done|].
  symmetry. by apply delete_id.
Qed.

Lemma step_config s e :
  maxSize (step s e) = maxSize s /\
  evictionPolicy (step s e) = evictionPolicy s /\
  compressor (step s e) = compressor s /\
  compressSize (step s e) = compressSize s.
Proof.
  unfold step. destruct e.1.
  - apply Set_config.
  - destruct (Get_config s key e.2) as (? & ? & ? & ? & _). done.
  - destruct (Delete_config s key) as (? & ? & ? & ? & _). done.
  - done.
Qed.

Lemma run_config h s :
  maxSize (run h s) = maxSize s /\
  evictionPolicy (run h s) = evictionPolicy s /\
  compressor (run h s) = compressor s /\
  compressSize (run h s) = compressSize s.
Proof.
  apply (run_invariant
           (fun s' => maxSize s' = maxSize s /\ evictionPolicy s' = evictionPolicy s /\
                      compressor s' = compressor s /\ compressSize s' = compressSize s)
           (fun _ => True)); [|done|by apply Forall_true].
  intros s1 e Hs1 _.
  destruct (step_config s1 e) as (-> & -> & -> & ->). exact Hs1.
Qed.

Lemma same_payload_refl a : same_payload a a.
Proof. done. Qed.

Lemma same_payload_trans a b c :
  same_payload a b -> same_payload b c -> same_payload a c.
Proof. unfold same_payload. intros ? ?. intuition congruence. Qed.

(** An entry found under [key] after a step that is not a [Set] of
    [key] was there before, with the same payload. *)
Lemma step_keeps_entry s e key item' :
  ~ sets_key key e ->
  data (step s e) !! key = Some item' ->
  exists item, data s !! key = Some item /\ same_payload item item'.
Proof.
  unfold sets_key, step. destruct e.1 as [k value ttl|k|k|]; intros Hns Hk.
  - apply evictIfNeeded_lookup in Hk.
    destruct (Set_store_data s k value ttl e.2) as (it & Hd & _).
    rewrite Hd, lookup_insert_ne in Hk by exact Hns.
    exists item'. done.
  - destruct (Get_data s k e.2) as [Hd|(it & it' & Hit & Hsame & _ & _ & Hd)];
      rewrite Hd in Hk; [by exists item'|].
    destruct (decide (k = key)) as [->|Hne].
    + rewrite lookup_insert_eq in Hk. injection Hk as <-. by exists it.
    + rewrite lookup_insert_ne in Hk by exact Hne. by exists item'.
  - rewrite Delete_data in Hk.
    apply lookup_delete_Some in Hk as [_ Hk]. by exists item'.
  - simpl in Hk. by rewrite lookup_empty in Hk.
Qed.

Lemma run_keeps_entry h : forall s key item',
  Forall (fun e => ~ sets_key key e) h ->
  data (run h s) !! key = Some item' ->
  exists item, data s !! key = Some item /\ same_payload item item'.
Proof.
  unfold run. induction h as [|e h IH]; intros s key item' Hall Hk; simpl in *.
  - by exists item'.
  - inversion Hall as [|? ? He Hh]; subst.
    destruct (IH _ _ _ Hh Hk) as (it1 & Hk1 & Hsame1).
    destruct (step_keeps_entry _ _ _ _ He Hk1) as (it0 & Hk0 & Hsame0).
    exists it0. split; [exact Hk0|]. by eapply same_payload_trans.
Qed.

(** Only a budget eviction raises the eviction counter: a step that is
    not a [Set] leaves it as it is, or resets it ([Clear]). *)
Lemma step_no_set_evictions s e :
  no_set e ->
  Evictions (stats (step s e)) = Evictions (stats s) \/
  Evictions (stats (step s e)) = 0.
Proof.
  unfold no_set, step. destruct e.1; intros Hns; [done| | |by right]; left.
  - by destruct (Get_config s key e.2) as (_ & _ & _ & _ & ->).
  - by destruct (Delete_config s key) as (_ & _ & _ & _ & ->).
Qed.

Lemma run_no_set_evictions h s :
  Forall no_set h -> Evictions (stats s) = 0 -> Evictions (stats (run h s)) = 0.
Proof.
  intros Hall H0.
  apply (run_invariant (fun s' => Evictions (stats s') = 0) no_set);
    [|exact H0|exact Hall].
  intros s1 e Hs1 He. destruct (step_no_set_evictions s1 e He); congruence.
Qed.

End ShardFrames.

(** ** Overwrite frame *)

(** C9.  A [Set] on a key that is stored keeps the entry's [CreatedAt] and
    [AccessCount] and overwrites its payload, size, expiry, access time
    and compression flag; if the shard is within budget after the write
    the entry is still stored.  Every other entry is unchanged, or was
    removed by the budget loop. *)
Theorem overwrite_frame (s : Shard.CacheShard) (key : string) (value : bytes)
    (ttl : Z) (now : Time) (old : CacheItem) :
  Shard.data s !! key = Some old ->
  let s' := (Shard.Set_ s key value ttl now).2 in
  let written := Shard.compressDecision s value in
  let stored := Shard.Set_store s key value ttl now in
  (forall item, Shard.data s' !! key = Some item ->
     CreatedAt item = CreatedAt old /\
     AccessCount item = AccessCount old /\
     Value item = written.1.1 /\
     Size item = len (Value item) /\
     (Compressed item = false -> Value item = value) /\
     ExpireAt item = (if 0 <? ttl then now + ttl else 0) /\
     AccessAt item = now /\
     Compressed item = written.2) /\
  (Shard.overBudget 0 stored = false -> is_Some (Shard.data s' !! key)) /\
  (forall k, k ≠ key ->
     Shard.data s' !! k = Shard.data s !! k \/
     (Shard.data s' !! k = None /\ Shard.overBudget 0 stored = true)).
Proof.
  intros Hold s' written stored.
  destruct (Set_store_data s key value ttl now)
    as (it & Hd & Hval & Hsize & Hcomp & Hexp & Hacc & Hkeep).
  rewrite Hold in Hkeep. destruct Hkeep as (_ & Hcreated & Hcount).
  fold stored in Hd. fold written in Hval, Hsize, Hcomp.
  destruct written as [[finalValue size] compressed] eqn:Hw.
  apply compressDecision_sound in Hw as (Hlen & Hplain & _).
  simpl in *.
  split; [|split].
  - intros item Hitem. apply evictIfNeeded_lookup in Hitem.
    fold stored in Hitem. rewrite Hd, lookup_insert_eq in Hitem.
    injection Hitem as <-.
    repeat split; try assumption; try congruence.
    intros Hc. rewrite Hval. apply Hplain. congruence.
  - intros Hwithin. subst s'. unfold Shard.Set_. simpl.
    fold stored. rewrite evictIfNeeded_within by exact Hwithin.
    rewrite Hd, lookup_insert_eq. by eexists.
  - intros k Hne. subst s'. unfold Shard.Set_. simpl. fold stored.
    destruct (Shard.overBudget 0 stored) eqn:Hover.
    + destruct (Shard.data (Shard.evictIfNeeded 0 now stored) !! k) as [x|] eqn:Hk;
        [|by right].
      left. apply evictIfNeeded_lookup in Hk.
      rewrite Hd, lookup_insert_ne in Hk by done. by rewrite Hk.
    + left. rewrite evictIfNeeded_within by exact Hover.
      rewrite Hd. by apply lookup_insert_ne.
Qed.

Lemma overwrite_frame_witness :
  let s := Shard.run [(Shard.OpSet "a"%string [x61; x62] 0, 1);
                      (Shard.OpGet "a"%string, 2);
                      (Shard.OpSet "b"%string [x63] 0, 3)]
                     (Shard.NewCacheShard 10 EvictionLRU None 0) in
  exists old, Shard.data s !! "a"%string = Some old /\
    AccessCount old = 1 /\
    forall item,
      Shard.data (Shard.Set_ s "a"%string [x64] 50 4).2 !! "a"%string = Some item ->
      CreatedAt item = 1 /\ AccessCount item = 1 /\
      Value item = [x64] /\ ExpireAt item = 54.
Proof.
  intros s. eexists. split; [vm_compute; reflexivity|]. split; [reflexivity|].
  intros item Hitem.
  pose proof (overwrite_frame s "a"%string [x64] 50 4 _ ltac:(vm_compute; reflexivity))
    as (H & _).
  destruct (H item Hitem) as (Hc & Hn & Hv & _ & _ & He & _).
  repeat split; assumption.
Defined.

(** ** Errors of [Set] and [Get] *)

Section CacheDispatch.

Lemma fnv1a_loop_range key : forall hash,
  0 <= hash < 2 ^ 32 -> 0 <= Utils.fnv1a_loop key hash < 2 ^ 32.
Proof.
  induction key as [|c key IH]; intros hash Hh; simpl; [exact Hh|].
  apply IH. unfold Utils.uint32. apply Z.mod_pos_bound. lia.
Qed.

Lemma fnv1a_range key : 0 <= Utils.fnv1a key < 2 ^ 32.
Proof.
  apply fnv1a_loop_range. unfold Utils.uint32. apply Z.mod_pos_bound. lia.
Qed.

(** In a well-formed cache every key has its shard. *)
Lemma getShard_wf c key :
  cache_wf c -> exists i shard, Cache.getShard c key = Some (i, shard).
Proof.
  intros [Hpos Hlen]. unfold Cache.getShard, Cache.shardIndex.
  replace (Cache.shardCount c =? 0) with false by (symmetry; apply Z.eqb_neq; lia).
  pose proof (fnv1a_range key) as Hh.
  pose proof (Z.rem_bound_pos (Utils.fnv1a key) (Cache.shardCount c)
                ltac:(lia) Hpos) as Hrem.
  replace (_ <? 0) with false by (symmetry; apply Z.ltb_ge; lia).
  destruct (Cache.shards c !! Z.to_nat _) as [shard|] eqn:Hl; [by eauto|].
  apply lookup_ge_None in Hl. lia.
Qed.

End CacheDispatch.

(** C4, as the code has it.  [Set] with a non-empty key never fails: the
    shard's [Set] returns no error, and so does the cache's [Set] on a
    cache with its shard array in place.  Keys are not validated and no
    operation returns KeyInvalid: a [Get] with the empty key, when no
    entry is stored under it, fails with KeyNotFound and records a miss,
    as for any absent key. *)
Theorem set_get_key_errors (s : Shard.CacheShard) (c : Cache.Cache) (key : string)
    (value : bytes) (ttl : Z) (now : Time) :
  key ≠ EmptyString ->
  (Shard.Set_ s key value ttl now).1 = None /\
  (cache_wf c -> exists c', Cache.Set_ c key value ttl now = Some (None, c')) /\
  (Shard.data s !! EmptyString = None ->
     (Shard.Get s EmptyString now).1.1 = Shard.Returned [] (Some ErrKeyNotFound) /\
     Shard.Misses (Shard.stats (Shard.Get s EmptyString now).1.2)
       = Shard.Misses (Shard.stats s) + 1).
Proof.
  intros _. split; [reflexivity|]. split.
  - intros Hwf. destruct (getShard_wf c key Hwf) as (i & shard & Hg).
    unfold Cache.Set_. rewrite Hg. simpl. by eexists.
  - intros Habs. by rewrite Get_absent.
Qed.

Lemma set_get_key_errors_witness :
  "k"%string ≠ EmptyString /\
  (Shard.Set_ (Shard.NewCacheShard 100 EvictionLRU None 0) "k"%string [x76] 0 1).1 = None.
Proof.
  split; [discriminate|].
  apply (set_get_key_errors (Shard.NewCacheShard 100 EvictionLRU None 0)
           {| Cache.maxSize := 0; Cache.evictionPolicy := EvictionLRU;
              Cache.shards := []; Cache.shardCount := 0 |}
           "k"%string [x76] 0 1).
  discriminate.
Defined.

(** C4, the claim as stated fails: [Set] with the empty key returns
    success and stores the entry, and [Get] with the empty key returns
    KeyNotFound on a new shard and the stored value afterwards; neither
    returns KeyInvalid. *)
Lemma empty_key_counterexample :
  let s := Shard.NewCacheShard 100 EvictionLRU None 0 in
  let r := Shard.Set_ s EmptyString [x76] 0 1 in
  r.1 = None /\
  r.1 ≠ Some ErrKeyInvalid /\
  (Shard.Get s EmptyString 1).1.1 = Shard.Returned [] (Some ErrKeyNotFound) /\
  (Shard.Get r.2 EmptyString 2).1.1 = Shard.Returned [x76] None /\
  (exists c c', Cache.NewCache 2 [] = Some c /\
                Cache.Set_ c EmptyString [x76] 0 1 = Some (None, c')).
Proof.
  intros s r. split; [reflexivity|]. split; [discriminate|].
  split; [reflexivity|]. split; [vm_compute; reflexivity|].
  eexists. eexists. split; [reflexivity|]. vm_compute. reflexivity.
Qed.

(** ** Round trip and expiry *)

Section Lifetimes.

Import Shard.

Lemma not_overwrites_not_sets key e : ~ overwrites key e -> ~ sets_key key e.
Proof. unfold overwrites, sets_key. destruct e.1; tauto. Qed.

(** The entry found under [key] after [Set key value ttl] and a history
    without another [Set] of [key] carries what that [Set] wrote. *)
Lemma entry_after_Set s key value ttl now h item :
  Forall (fun e => ~ sets_key key e) h ->
  data (run h (Set_ s key value ttl now).2) !! key = Some item ->
  Value item = (compressDecision s value).1.1 /\
  Compressed item = (compressDecision s value).2 /\
  ExpireAt item = (if 0 <? ttl then now + ttl else 0).
Proof.
  intros Hall Hitem.
  destruct (run_keeps_entry _ _ _ _ Hall Hitem) as (it1 & Hk1 & Hsame).
  unfold Set_ in Hk1. simpl in Hk1. apply evictIfNeeded_lookup in Hk1.
  destruct (Set_store_data s key value ttl now)
    as (it & Hd & Hval & _ & Hcomp & Hexp & _).
  rewrite Hd, lookup_insert_eq in Hk1. injection Hk1 as ->.
  destruct Hsame as (_ & Hv & _ & He & _ & Hc).
  repeat split; congruence.
Qed.

End Lifetimes.

(** C1.  After [Set key value 0] (which returns no error), and whatever
    operations follow that are not a [Set] or [Delete] of [key] or a
    [Clear], a [Get key] returns exactly [value] and no error as long as
    the entry is still stored, that is unless the budget loop evicted it.
    The stored payload is read back through [Decompress] when it was
    compressed; the compressor's contract enters for [value] only: what
    [Compress] made of [value], [Decompress] turns back into [value].
    The statement holds for every key, the non-empty ones among them. *)
Theorem set_get_roundtrip (s : Shard.CacheShard) (key : string) (value : bytes)
    (now : Time) (h : list (Shard.Op * Time)) (now' : Time) :
  (forall c out, Shard.compressor s = Some c ->
                 Compress c value = (out, None) -> Decompress c out = (value, None)) ->
  Forall (fun e => ~ Shard.overwrites key e) h ->
  is_Some (Shard.data (Shard.run h (Shard.Set_ s key value 0 now).2) !! key) ->
  (Shard.Set_ s key value 0 now).1 = None /\
  (Shard.Get (Shard.run h (Shard.Set_ s key value 0 now).2) key now').1.1
    = Shard.Returned value None.
Proof.
  intros Hcontract Hall [item Hitem]. split; [reflexivity|].
  assert (Hall' : Forall (fun e => ~ sets_key key e) h).
  { eapply Forall_impl; [exact Hall|]. intros e. apply not_overwrites_not_sets. }
  destruct (entry_after_Set _ _ _ _ _ _ _ Hall' Hitem) as (Hval & Hcomp & Hexp).
  simpl in Hexp.
  rewrite (Get_live_result _ _ item) by (try exact Hitem; by left).
  destruct (run_config h (Shard.Set_ s key value 0 now).2) as (_ & _ & -> & _).
  destruct (Set_config s key value 0 now) as (_ & _ & -> & _).
  destruct (Shard.compressDecision s value) as [[finalValue size] compressed] eqn:Hw.
  apply compressDecision_sound in Hw as (_ & Hplain & Hpacked). simpl in *.
  rewrite Hcomp. destruct compressed.
  - destruct (Hpacked eq_refl) as (c & Hc & Hout). rewrite Hc.
    rewrite Hval, (Hcontract c finalValue Hc Hout). reflexivity.
  - rewrite Hval, Hplain by reflexivity. reflexivity.
Qed.

Lemma set_get_roundtrip_witness :
  let s := Shard.NewCacheShard 100 EvictionLRU (Some ToyRLE.compressor) 3 in
  let value := [x61; x61; x61; x61; x61; x61] in
  let h := [(Shard.OpGet "k"%string, 2); (Shard.OpSet "j"%string [x62] 0, 3)] in
  (forall item, Shard.data (Shard.Set_ s "k"%string value 0 1).2 !! "k"%string = Some item ->
                Compressed item = true /\ Value item = [x06; x61]) /\
  (Shard.Get (Shard.run h (Shard.Set_ s "k"%string value 0 1).2) "k"%string 4).1.1
    = Shard.Returned value None.
Proof.
  intros s value h. split.
  - intros item. vm_compute. intros [= <-]. split; reflexivity.
  - apply (set_get_roundtrip s "k"%string value 1 h 4).
    + intros c out [= <-]. vm_compute. intros [= <-]. reflexivity.
    + repeat constructor; simpl; intros H; try exact H; discriminate H.
    + vm_compute. by eexists.
Defined.

(** C6, as the code has it.  After a [Set key value ttl] with [ttl > 0] at
    an instant [now] (not before Go's zero instant) and any operations
    that do not [Set] the key again, a [Get key] at an instant later than
    [now + ttl] returns KeyNotFound and records a miss, and when the entry
    is still stored it starts the goroutine that deletes it.  The expiry
    is not counted as an eviction: neither the [Get] nor the [Delete] it
    starts changes the eviction counter; after that [Delete] the key is
    gone. *)
Theorem ttl_expiry (s : Shard.CacheShard) (key : string) (value : bytes)
    (ttl : Z) (now : Time) (h : list (Shard.Op * Time)) (now' : Time) :
  0 < ttl -> 0 <= now ->
  Forall (fun e => ~ sets_key key e) h ->
  now + ttl < now' ->
  let s2 := Shard.run h (Shard.Set_ s key value ttl now).2 in
  let r := Shard.Get s2 key now' in
  (Shard.Set_ s key value ttl now).1 = None /\
  r.1.1 = Shard.Returned [] (Some ErrKeyNotFound) /\
  Shard.Misses (Shard.stats r.1.2) = Shard.Misses (Shard.stats s2) + 1 /\
  Shard.Hits (Shard.stats r.1.2) = Shard.Hits (Shard.stats s2) /\
  (is_Some (Shard.data s2 !! key) -> r.2 = Some key) /\
  Shard.Evictions (Shard.stats r.1.2) = Shard.Evictions (Shard.stats s2) /\
  Shard.Evictions (Shard.stats (Shard.Delete r.1.2 key))
    = Shard.Evictions (Shard.stats s2) /\
  Shard.data (Shard.Delete r.1.2 key) !! key = None.
Proof.
  intros Httl Hnow Hall Hlate s2 r. split; [reflexivity|].
  assert (Hgone : forall s', Shard.data (Shard.Delete s' key) !! key = None).
  { intros s'. rewrite Delete_data. apply lookup_delete_eq. }
  assert (Hdel : forall s', Shard.Evictions (Shard.stats (Shard.Delete s' key))
                            = Shard.Evictions (Shard.stats s')).
  { intros s'. by destruct (Delete_config s' key) as (_ & _ & _ & _ & ->). }
  destruct (Shard.data s2 !! key) as [item|] eqn:Hitem.
  - destruct (entry_after_Set _ _ _ _ _ _ _ Hall Hitem) as (_ & _ & Hexp).
    replace (0 <? ttl) with true in Hexp by (symmetry; by apply Z.ltb_lt).
    assert (Hg : r = (Shard.Returned [] (Some ErrKeyNotFound),
                      Shard.recordMiss s2, Some key))
      by (apply (Get_expired _ _ item); [exact Hitem|lia|lia]).
    clearbody r. subst r. simpl.
    rewrite Hdel, Hgone. simpl. repeat split; reflexivity.
  - assert (Hg : r = (Shard.Returned [] (Some ErrKeyNotFound),
                      Shard.recordMiss s2, None))
      by (by apply Get_absent).
    clearbody r. subst r. simpl.
    rewrite Hdel, Hgone. simpl. repeat split; try reflexivity.
    intros [x Hx]. discriminate Hx.
Qed.

Lemma ttl_expiry_witness :
  let s := Shard.NewCacheShard 1048576 EvictionLRU (Some NewNoCompressor) 1048576 in
  let s2 := Shard.run [(Shard.OpGet "k"%string, 1010)]
                      (Shard.Set_ s "k"%string [x76] 100 1000).2 in
  0 < 100 /\ 0 <= 1000 /\ 1000 + 100 < 1150 /\
  is_Some (Shard.data s2 !! "k"%string) /\
  (Shard.Get s2 "k"%string 1150).1.1 = Shard.Returned [] (Some ErrKeyNotFound) /\
  (Shard.Get s2 "k"%string 1150).2 = Some "k"%string.
Proof.
  intros s s2.
  pose proof (ttl_expiry s "k"%string [x76] 100 1000
                [(Shard.OpGet "k"%string, 1010)] 1150
                ltac:(lia) ltac:(lia)
                ltac:(repeat constructor; simpl; tauto) ltac:(lia)) as H.
  cbv zeta in H. destruct H as (_ & Hres & _ & _ & Hspawn & _).
  assert (Hsome : is_Some (Shard.data s2 !! "k"%string))
    by (vm_compute; by eexists).
  split; [lia|]. split; [lia|]. split; [lia|]. split; [exact Hsome|].
  split; [exact Hres | exact (Hspawn Hsome)].
Defined.

(** C6, the claim as stated fails in its last part: one expiry is
    observed and its deletion runs, and the eviction counter is 0; it
    stays 0 as long as no [Set] evicts for the budget. *)
Lemma ttl_expiry_evictions_counterexample :
  let s := Shard.NewCacheShard 1048576 EvictionLRU (Some NewNoCompressor) 1048576 in
  let s1 := (Shard.Set_ s "k"%string [x76] 100 1000).2 in
  let r := Shard.Get s1 "k"%string 1150 in
  r.1.1 = Shard.Returned [] (Some ErrKeyNotFound) /\
  r.2 = Some "k"%string /\
  Shard.Misses (Shard.stats r.1.2) = 1 /\
  Shard.data (Shard.Delete r.1.2 "k"%string) !! "k"%string = None /\
  forall h, Forall no_set h ->
    Shard.Evictions (Shard.stats (Shard.run h (Shard.Delete r.1.2 "k"%string))) = 0 /\
    ~ (1 <= Shard.Evictions (Shard.stats (Shard.run h (Shard.Delete r.1.2 "k"%string)))).
Proof.
  intros s s1 r.
  split; [vm_compute; reflexivity|]. split; [vm_compute; reflexivity|].
  split; [vm_compute; reflexivity|]. split; [vm_compute; reflexivity|].
  intros h Hall.
  assert (H0 : Shard.Evictions
                 (Shard.stats (Shard.run h (Shard.Delete r.1.2 "k"%string))) = 0).
  { apply run_no_set_evictions; [exact Hall|]. vm_compute. reflexivity. }
  split; [exact H0|]. rewrite H0. lia.
Qed.

(** ** FIFO: the position of an overwritten key *)

Section FifoRequeue.

Import Shard.

(** [FIFOList.Add] on a key that is in the queue leaves the queue as it
    is. *)
Lemma FIFO_Add_present key item now fifo :
  key ∈ FIFO.list_ fifo -> FIFO.Add key item now fifo = fifo.
Proof. intros Hin. unfold FIFO.Add. by rewrite bool_decide_eq_true_2. Qed.

Lemma unlink_not_elem_of key l : NoDup l -> key ∉ unlink key l.
Proof.
  induction l as [|k l IH]; intros Hnd; simpl; [by apply not_elem_of_nil|].
  apply NoDup_cons in Hnd as [Hk Hnd]. case_decide.
  - by subst.
  - apply not_elem_of_cons. split; [congruence | by apply IH].
Qed.

(** [Set] on a stored key of a FIFO shard calls [Remove] before [Add]:
    the key leaves the queue and is pushed to its back. *)
Lemma fifo_Set_store_requeues s fifo key value ttl now :
  evictionList s = OfFIFO fifo ->
  NoDup (FIFO.list_ fifo) ->
  key ∈ FIFO.list_ fifo ->
  is_Some (data s !! key) ->
  evictionList (Set_store s key value ttl now)
    = OfFIFO {| FIFO.list_ := unlink key (FIFO.list_ fifo) ++ [key] |}.
Proof.
  intros Hl Hnd Hin [old Hold]. unfold Set_store.
  destruct (compressDecision s value) as [[finalValue size] compressed].
  rewrite Hold. simpl. rewrite Hl. simpl.
  unfold FIFO.Remove. rewrite bool_decide_eq_true_2 by exact Hin.
  unfold FIFO.Add. simpl.
  rewrite bool_decide_eq_false_2 by (by apply unlink_not_elem_of).
  reflexivity.
Qed.

End FifoRequeue.

(** C5, the code at the failing input.  On a FIFO shard holding "a" (set
    first) and "b", a [Set] that overwrites "a" moves "a" from the head of
    the queue to its tail, and the next eviction removes "b": the
    overwritten key has lost its position.  ([FIFOList.Add] alone, called
    with a key that is in the queue, leaves the queue as it is.) *)
Theorem fifo_overwrite_loses_position :
  let s := Shard.run [(Shard.OpSet "a"%string [x61] 0, 1);
                      (Shard.OpSet "b"%string [x62] 0, 2)]
                     (Shard.NewCacheShard 100 EvictionFIFO None 0) in
  let s' := (Shard.Set_ s "a"%string [x63] 0 3).2 in
  Shard.evictionList s = OfFIFO {| FIFO.list_ := ["a"; "b"]%string |} /\
  Shard.evictionList s' = OfFIFO {| FIFO.list_ := ["b"; "a"]%string |} /\
  (Shard.evictOne 4 s').1 = true /\
  Shard.data (Shard.evictOne 4 s').2 !! "b"%string = None /\
  is_Some (Shard.data (Shard.evictOne 4 s').2 !! "a"%string) /\
  FIFO.Add "a"%string {| Key := "a"%string; Value := [x63]; Size := 1; ExpireAt := 0;
                         CreatedAt := 1; AccessAt := 3; AccessCount := 0;
                         Compressed := false |} 3
           {| FIFO.list_ := ["a"; "b"]%string |}
    = {| FIFO.list_ := ["a"; "b"]%string |}.
Proof.
  intros s s'.
  split; [vm_compute; reflexivity|]. split; [vm_compute; reflexivity|].
  split; [vm_compute; reflexivity|]. split; [vm_compute; reflexivity|].
  split; [vm_compute; by eexists | vm_compute; reflexivity].
Qed.

(** ** The list-based indexes (LRU, FIFO) *)

Section ListIndex.

Implicit Types (l : list string) (d : gmap string CacheItem).

Lemma elem_of_unlink key l x :
  NoDup l -> x ∈ unlink key l <-> x ∈ l /\ x ≠ key.
Proof.
  induction l as [|k l IH]; intros Hnd; simpl.
  - split; [intros H; by apply elem_of_nil in H | intros [H _]; by apply elem_of_nil in H].
  - apply NoDup_cons in Hnd as [Hk Hnd]. case_decide as Heq.
    + subst k. rewrite elem_of_cons. split.
      * intros Hx. split; [by right|]. intros ->. contradiction.
      * intros [[->|Hx] Hne]; [contradiction|exact Hx].
    + rewrite !elem_of_cons, (IH Hnd). split.
      * intros [->|[Hx Hne]]; [split; [by left|congruence] | split; [by right|exact Hne]].
      * intros [[->|Hx] Hne]; [by left | right; by split].
Qed.

Lemma NoDup_unlink key l : NoDup l -> NoDup (unlink key l).
Proof.
  induction l as [|k l IH]; intros Hnd; simpl; [constructor|].
  apply NoDup_cons in Hnd as [Hk Hnd]. case_decide; [exact Hnd|].
  apply NoDup_cons. split; [|by apply IH].
  rewrite elem_of_unlink by exact Hnd. tauto.
Qed.

Lemma unlink_absent key l : key ∉ l -> unlink key l = l.
Proof.
  induction l as [|k l IH]; intros Hk; simpl; [reflexivity|].
  apply not_elem_of_cons in Hk as [Hne Hk]. case_decide; [congruence|].
  by rewrite IH.
Qed.

Lemma index_new : index_matches [] ∅.
Proof.
  split; [constructor|]. intros k. rewrite lookup_empty. split.
  - intros H. by apply elem_of_nil in H.
  - intros [x Hx]. discriminate.
Qed.

Lemma index_absent l d k : index_matches l d -> d !! k = None -> k ∉ l.
Proof.
  intros [_ Hdom] Hk Hin. apply Hdom in Hin as [x Hx]. congruence.
Qed.

Lemma index_present l d k item : index_matches l d -> d !! k = Some item -> k ∈ l.
Proof. intros [_ Hdom] Hk. apply Hdom. by eexists. Qed.

Lemma index_push_front l d k item :
  index_matches l d -> d !! k = None -> index_matches (k :: l) (<[k := item]> d).
Proof.
  intros Hm Hk. pose proof (index_absent _ _ _ Hm Hk) as Hnotin.
  destruct Hm as [Hnd Hdom]. split; [by apply NoDup_cons|].
  intros x. rewrite elem_of_cons, lookup_insert_is_Some, Hdom.
  split; [intros [->|H]; [by left|] | intros [->|[_ H]]; [by left | by right]].
  right. split; [|exact H]. intros ->. destruct H as [y Hy]. congruence.
Qed.

Lemma index_push_back l d k item :
  index_matches l d -> d !! k = None -> index_matches (l ++ [k]) (<[k := item]> d).
Proof.
  intros Hm Hk. pose proof (index_absent _ _ _ Hm Hk) as Hnotin.
  destruct Hm as [Hnd Hdom]. split.
  - apply NoDup_app. split; [exact Hnd|]. split; [|apply NoDup_singleton].
    intros x Hx Hx'. apply list_elem_of_singleton in Hx'. by subst.
  - intros x. rewrite elem_of_app, list_elem_of_singleton, lookup_insert_is_Some, Hdom.
    split; [intros [H| ->]; [|by left] | intros [->|[_ H]]; [by right | by left]].
    right. split; [|exact H]. intros ->. destruct H as [y Hy]. congruence.
Qed.

Lemma index_unlink l d k :
  index_matches l d -> index_matches (unlink k l) (delete k d).
Proof.
  intros [Hnd Hdom]. split; [by apply NoDup_unlink|].
  intros x. rewrite elem_of_unlink by exact Hnd.
  rewrite lookup_delete_is_Some, Hdom. split; intros [? ?]; split; congruence.
Qed.

(** Rewriting the entry of a stored key does not change the key set. *)
Lemma index_rewrite l d k item :
  index_matches l d -> is_Some (d !! k) -> index_matches l (<[k := item]> d).
Proof.
  intros [Hnd Hdom] Hk. split; [exact Hnd|].
  intros x. rewrite lookup_insert_is_Some, Hdom.
  split; [intros H|intros [->|[_ H]]; [exact Hk|exact H]].
  destruct (decide (k = x)) as [->|Hne]; [by left | by right].
Qed.

Lemma index_move_to_front l d k item :
  index_matches l d -> is_Some (d !! k) ->
  index_matches (k :: unlink k l) (<[k := item]> d).
Proof.
  intros Hm Hk.
  rewrite <- insert_delete_eq. apply index_push_front.
  - by apply index_unlink.
  - apply lookup_delete_eq.
Qed.

Lemma index_empty d : index_matches [] d -> d = ∅.
Proof.
  intros [_ Hdom]. apply map_empty. intros k.
  destruct (d !! k) eqn:Hk; [|reflexivity].
  assert (k ∈ ([] : list string)) as Hin by (apply Hdom; by eexists).
  by apply elem_of_nil in Hin.
Qed.

Lemma index_pop_front l d k :
  index_matches (k :: l) d ->
  is_Some (d !! k) /\ index_matches l (delete k d).
Proof.
  intros Hm. split; [apply Hm; by left|].
  pose proof (index_unlink _ _ k Hm) as Hu. simpl in Hu.
  by rewrite decide_True in Hu.
Qed.

Lemma index_pop_back l d k :
  index_matches l d -> last l = Some k ->
  is_Some (d !! k) /\ index_matches (removelast l) (delete k d).
Proof.
  intros Hm Hlast.
  assert (Hl : l = removelast l ++ [k]).
  { destruct (last_Some l k) as [[l' ->] _]; [exact Hlast|].
    by rewrite removelast_last. }
  set (l' := removelast l) in *. clearbody l'. subst l.
  destruct Hm as [Hnd Hdom]. split; [apply Hdom, elem_of_app; right; by left|].
  apply NoDup_app in Hnd as (Hnd & Hdisj & _). split; [exact Hnd|].
  intros x. rewrite lookup_delete_is_Some, <- Hdom, elem_of_app, list_elem_of_singleton.
  split.
  - intros Hx. split; [|by left]. intros ->. apply (Hdisj x Hx). by left.
  - intros [Hne [Hx| ->]]; [exact Hx | congruence].
Qed.

End ListIndex.

(** ** The LFU index *)

Section LfuStructure.

Import LFU.

Implicit Types (lfu : LFUList) (k key : string) (f : Z).

Lemma is_nil_true (b : list string) : is_nil b = true <-> b = [].
Proof. destruct b; simpl; split; congruence. Qed.

Lemma is_nil_false (b : list string) : is_nil b = false <-> exists k, k ∈ b.
Proof.
  destruct b as [|k b]; simpl; split; try congruence.
  - intros [k Hk]. by apply elem_of_nil in Hk.
  - intros _. exists k. by left.
Qed.

(** *** Fields after [unlinkNode], [linkNode], [updateMinFreq] *)

Lemma unlinkNode_frequencies key f lfu b :
  frequencies lfu !! f = Some b ->
  frequencies (unlinkNode key f lfu) = <[f := unlink key b]> (frequencies lfu).
Proof. intros Hb. unfold unlinkNode, removeFromFrequency. by rewrite Hb. Qed.

Lemma unlinkNode_nodes key f lfu :
  nodes (unlinkNode key f lfu) = delete key (nodes lfu).
Proof. reflexivity. Qed.

Lemma unlinkNode_minFreq key f lfu :
  minFreq (unlinkNode key f lfu) = minFreq lfu.
Proof.
  unfold unlinkNode, removeFromFrequency.
  by destruct (frequencies lfu !! f).
Qed.

Lemma updateMinFreq_nodes lfu : nodes (updateMinFreq lfu) = nodes lfu.
Proof. unfold updateMinFreq. by destruct (isEmpty _ _). Qed.

Lemma updateMinFreq_frequencies lfu :
  frequencies (updateMinFreq lfu) = frequencies lfu.
Proof. unfold updateMinFreq. by destruct (isEmpty _ _). Qed.

(** *** The bucket structure *)

Lemma buckets_wf_new : lfu_buckets_wf NewLFUList.
Proof.
  repeat split; simpl; intros *; rewrite lookup_empty; discriminate.
Qed.

Lemma unlinkNode_buckets_wf lfu k n :
  lfu_buckets_wf lfu -> nodes lfu !! k = Some n ->
  lfu_buckets_wf (unlinkNode k (Frequency n) lfu).
Proof.
  intros (Ha & Hb & Hc & Hd) Hn.
  destruct (Ha _ _ Hn) as (b & Hbk & Hkb).
  pose proof (Hc _ _ Hbk) as Hndb.
  unfold lfu_buckets_wf.
  rewrite (unlinkNode_frequencies _ _ _ _ Hbk), unlinkNode_nodes.
  split; [|split; [|split]].
  - intros k' n' Hn'. apply lookup_delete_Some in Hn' as [Hne Hn'].
    destruct (Ha _ _ Hn') as (b' & Hb' & Hk').
    destruct (decide (Frequency n' = Frequency n)) as [Heq|Hneq].
    + rewrite Heq in *. rewrite Hbk in Hb'. injection Hb' as <-.
      exists (unlink k b). rewrite lookup_insert_eq. split; [reflexivity|].
      apply elem_of_unlink; [exact Hndb|]. split; [exact Hk'|congruence].
    + exists b'. rewrite lookup_insert_ne by congruence. by split.
  - intros f b' k' Hb' Hk'.
    destruct (decide (Frequency n = f)) as [Heq|Hneq].
    + subst f. rewrite lookup_insert_eq in Hb'. injection Hb' as <-.
      apply elem_of_unlink in Hk' as [Hk' Hne]; [|exact Hndb].
      destruct (Hb _ _ _ Hbk Hk') as (n' & Hn' & Hf').
      exists n'. split; [|exact Hf']. rewrite lookup_delete_ne by congruence. exact Hn'.
    + rewrite lookup_insert_ne in Hb' by exact Hneq.
      destruct (Hb _ _ _ Hb' Hk') as (n' & Hn' & Hf').
      exists n'. split; [|exact Hf'].
      rewrite lookup_delete_ne; [exact Hn'|].
      intros ->. rewrite Hn in Hn'. injection Hn' as <-. contradiction.
  - intros f b' Hb'.
    destruct (decide (Frequency n = f)) as [Heq|Hneq].
    + subst f. rewrite lookup_insert_eq in Hb'. injection Hb' as <-.
      by apply NoDup_unlink.
    + rewrite lookup_insert_ne in Hb' by exact Hneq. by eapply Hc.
  - intros k' n' Hn'. apply lookup_delete_Some in Hn' as [_ Hn']. by eapply Hd.
Qed.

Lemma linkNode_buckets_wf lfu k f now :
  lfu_buckets_wf lfu -> nodes lfu !! k = None -> 1 <= f ->
  lfu_buckets_wf (linkNode k f now lfu).
Proof.
  intros (Ha & Hb & Hc & Hd) Hk Hf.
  unfold lfu_buckets_wf, linkNode, addToFrequency. simpl.
  set (b0 := default [] (frequencies lfu !! f)).
  assert (Hb0 : forall k', k' ∈ b0 -> frequencies lfu !! f = Some b0).
  { intros k' Hk'. subst b0. destruct (frequencies lfu !! f); [reflexivity|].
    by apply elem_of_nil in Hk'. }
  split; [|split; [|split]].
  - intros k' n' Hn'. apply lookup_insert_Some in Hn' as [[<- <-]|[Hne Hn']].
    + simpl. exists (b0 ++ [k]). rewrite lookup_insert_eq. split; [reflexivity|].
      apply elem_of_app. right. by left.
    + destruct (Ha _ _ Hn') as (b' & Hb' & Hk').
      destruct (decide (f = Frequency n')) as [Heq|Hneq].
      * subst f. exists (b0 ++ [k]). rewrite lookup_insert_eq. split; [reflexivity|].
        apply elem_of_app. left. subst b0. by rewrite Hb'.
      * exists b'. rewrite lookup_insert_ne by exact Hneq. by split.
  - intros f' b' k' Hb' Hk'.
    destruct (decide (f = f')) as [Heq|Hneq].
    + subst f'. rewrite lookup_insert_eq in Hb'. injection Hb' as <-.
      apply elem_of_app in Hk' as [Hk'|Hk'].
      * destruct (Hb _ _ _ (Hb0 _ Hk') Hk') as (n' & Hn' & Hf').
        exists n'. split; [|exact Hf'].
        rewrite lookup_insert_ne; [exact Hn'|]. intros ->. congruence.
      * apply list_elem_of_singleton in Hk'. subst k'.
        eexists. rewrite lookup_insert_eq. split; reflexivity.
    + rewrite lookup_insert_ne in Hb' by exact Hneq.
      destruct (Hb _ _ _ Hb' Hk') as (n' & Hn' & Hf').
      exists n'. split; [|exact Hf'].
      rewrite lookup_insert_ne; [exact Hn'|]. intros ->. congruence.
  - intros f' b' Hb'.
    destruct (decide (f = f')) as [Heq|Hneq].
    + subst f'. rewrite lookup_insert_eq in Hb'. injection Hb' as <-.
      apply NoDup_app. split; [|split; [|apply NoDup_singleton]].
      * subst b0. destruct (frequencies lfu !! f) eqn:E; [by eapply Hc | constructor].
      * intros x Hx Hx'. apply list_elem_of_singleton in Hx'. subst x.
        destruct (Hb _ _ _ (Hb0 _ Hx) Hx) as (n' & Hn' & _). congruence.
    + rewrite lookup_insert_ne in Hb' by exact Hneq. by eapply Hc.
  - intros k' n' Hn'. apply lookup_insert_Some in Hn' as [[<- <-]|[Hne Hn']].
    + exact Hf.
    + by eapply Hd.
Qed.

(** Refreshing [LastUsed] of a node leaves the structure as it is. *)
Lemma touch_buckets_wf lfu k n now :
  lfu_buckets_wf lfu -> nodes lfu !! k = Some n ->
  lfu_buckets_wf
    (with_nodes (<[k := {| Frequency := Frequency n; LastUsed := now |}]> (nodes lfu)) lfu).
Proof.
  intros (Ha & Hb & Hc & Hd) Hn. unfold lfu_buckets_wf. simpl.
  split; [|split; [|split]].
  - intros k' n' Hn'. apply lookup_insert_Some in Hn' as [[<- <-]|[Hne Hn']].
    + simpl. by eapply Ha.
    + by eapply Ha.
  - intros f b k' Hb' Hk'. destruct (Hb _ _ _ Hb' Hk') as (n' & Hn' & Hf').
    destruct (decide (k = k')) as [<-|Hne].
    + rewrite Hn in Hn'. injection Hn' as <-.
      eexists. rewrite lookup_insert_eq. split; [reflexivity|exact Hf'].
    + exists n'. rewrite lookup_insert_ne by exact Hne. by split.
  - exact Hc.
  - intros k' n' Hn'. apply lookup_insert_Some in Hn' as [[<- <-]|[Hne Hn']].
    + simpl. by eapply Hd.
    + by eapply Hd.
Qed.

End LfuStructure.

Section LfuMinFreq.

Import LFU.

Implicit Types (lfu : LFUList) (k key : string) (f : Z).

(** *** The scan of [updateMinFreq] *)

(** The scan started with [acc] over buckets whose non-empty ones have a
    frequency of at least 2 (below that the test [minFreq == 1] of the
    loop cannot tell a frequency from "nothing found yet"). *)
Lemma updateMinFreq_scan_from (order : list (Z * list string)) :
  (forall e, e ∈ order -> is_nil e.2 = false -> 2 <= e.1) ->
  forall acc, acc = 1 \/ 2 <= acc ->
    let r := fold_left updateMinFreq_step order acc in
    (forall e, e ∈ order -> is_nil e.2 = false -> r <= e.1) /\
    (2 <= acc -> r <= acc) /\
    (r = acc \/ exists e, e ∈ order /\ is_nil e.2 = false /\ e.1 = r) /\
    (acc = 1 -> r = 1 -> forall e, e ∈ order -> is_nil e.2 = true).
Proof.
  induction order as [|e order IH]; intros Hlive acc Hacc; simpl.
  - split; [intros e He; by apply elem_of_nil in He|].
    split; [lia|]. split; [by left|].
    intros _ _ e He. by apply elem_of_nil in He.
  - assert (Hlive' : forall e', e' ∈ order -> is_nil e'.2 = false -> 2 <= e'.1)
      by (intros e' He'; apply Hlive; by right).
    cbv zeta. destruct (is_nil e.2) eqn:Hnil.
    + replace (updateMinFreq_step acc e) with acc
        by (unfold updateMinFreq_step; by rewrite Hnil).
      destruct (IH Hlive' acc Hacc) as (Hle & Hacc' & Hfrom & Hone).
      split; [|split; [exact Hacc'|split]].
      * intros e' He' Hl'. apply elem_of_cons in He' as [->|He']; [congruence|].
        by apply Hle.
      * destruct Hfrom as [Hr|(e' & He' & Hl' & Hr)]; [by left|].
        right. exists e'. split; [by right|]. by split.
      * intros H1 Hr1 e' He'. apply elem_of_cons in He' as [->|He']; [exact Hnil|].
        by apply Hone.
    + pose proof (Hlive e ltac:(by left) Hnil) as He2.
      set (acc' := if (e.1 <? acc) || (acc =? 1) then e.1 else acc).
      replace (updateMinFreq_step acc e) with acc'
        by (unfold updateMinFreq_step; by rewrite Hnil).
      assert (Hacc2 : 2 <= acc' /\ acc' <= e.1 /\ (2 <= acc -> acc' <= acc) /\
                      (acc' = e.1 \/ (acc' = acc /\ 2 <= acc))).
      { subst acc'. destruct (e.1 <? acc) eqn:Hlt; simpl.
        - apply Z.ltb_lt in Hlt. lia.
        - apply Z.ltb_ge in Hlt. destruct (acc =? 1) eqn:H1.
          + apply Z.eqb_eq in H1. lia.
          + apply Z.eqb_neq in H1. lia. }
      destruct Hacc2 as (H2 & Hle_e & Hle_acc & Hwhich).
      destruct (IH Hlive' acc' ltac:(by right)) as (Hle & Hacc' & Hfrom & _).
      specialize (Hacc' H2).
      split; [|split; [|split]].
      * intros e' He' Hl'. apply elem_of_cons in He' as [->|He']; [lia|].
        by apply Hle.
      * intros Ha. specialize (Hle_acc Ha). lia.
      * destruct Hfrom as [Hr|(e' & He' & Hl' & Hr)].
        -- destruct Hwhich as [Hw|[Hw _]].
           ++ right. exists e. split; [by left|]. split; [exact Hnil|]. congruence.
           ++ left. congruence.
        -- right. exists e'. split; [by right|]. by split.
      * intros H1 Hr1. exfalso.
        destruct Hfrom as [Hr|(e' & He' & Hl' & Hr)].
        -- lia.
        -- pose proof (Hlive' e' He' Hl'). lia.
Qed.

(** What the scan finds: the least frequency of a non-empty bucket, or 1
    when all buckets are empty. *)
Lemma updateMinFreq_scan_spec (order : list (Z * list string)) :
  (forall e, e ∈ order -> is_nil e.2 = false -> 2 <= e.1) ->
  let r := updateMinFreq_scan order in
  (forall e, e ∈ order -> is_nil e.2 = false -> r <= e.1) /\
  ((r = 1 /\ forall e, e ∈ order -> is_nil e.2 = true) \/
   (exists e, e ∈ order /\ is_nil e.2 = false /\ e.1 = r)).
Proof.
  intros Hlive r.
  destruct (updateMinFreq_scan_from order Hlive 1 ltac:(by left))
    as (Hle & _ & Hfrom & Hone).
  fold (updateMinFreq_scan order) in Hle, Hfrom, Hone. fold r in Hle, Hfrom, Hone.
  split; [exact Hle|].
  destruct Hfrom as [Hr|Hex]; [left|by right].
  split; [exact Hr|]. by apply Hone.
Qed.

(** The order in which Go visits the buckets does not matter. *)
Lemma updateMinFreq_scan_order (order order' : list (Z * list string)) :
  (forall e, e ∈ order -> is_nil e.2 = false -> 2 <= e.1) ->
  order ≡ₚ order' ->
  updateMinFreq_scan order = updateMinFreq_scan order'.
Proof.
  intros Hlive Hperm.
  assert (Hlive' : forall e, e ∈ order' -> is_nil e.2 = false -> 2 <= e.1).
  { intros e He. apply Hlive. by rewrite Hperm. }
  destruct (updateMinFreq_scan_spec order Hlive) as (Hle & Hr).
  destruct (updateMinFreq_scan_spec order' Hlive') as (Hle' & Hr').
  destruct Hr as [[Hr Hnone]|(e & He & Hl & Hr)];
    destruct Hr' as [[Hr' Hnone']|(e' & He' & Hl' & Hr')].
  - congruence.
  - rewrite <- Hperm in He'. rewrite (Hnone e' He') in Hl'. discriminate.
  - rewrite Hperm in He. rewrite (Hnone' e He) in Hl. discriminate.
  - pose proof (Hle e' ltac:(by rewrite Hperm) Hl').
    pose proof (Hle' e ltac:(by rewrite <- Hperm) Hl). lia.
Qed.

(** *** [updateMinFreq] restores the minimum *)

Lemma isEmpty_false lfu f :
  isEmpty lfu f = false <->
  exists b k, frequencies lfu !! f = Some b /\ k ∈ b.
Proof.
  unfold isEmpty. destruct (frequencies lfu !! f) as [b|]; split.
  - intros Hb. apply is_nil_false in Hb as [k Hk]. by exists b, k.
  - intros (b' & k & [= <-] & Hk). apply is_nil_false. by exists k.
  - discriminate.
  - intros (b' & k & Hb & _). discriminate.
Qed.

Lemma updateMinFreq_wf lfu :
  lfu_buckets_wf lfu -> lfu_min_bound lfu -> lfu_wf (updateMinFreq lfu).
Proof.
  intros Hwf [Hmin1 Hmin].
  pose proof Hwf as (Ha & Hb & Hc & Hd).
  unfold updateMinFreq. destruct (isEmpty lfu (minFreq lfu)) eqn:Hempty.
  - set (order := map_to_list (frequencies lfu)).
    assert (Hlive : forall e, e ∈ order -> is_nil e.2 = false -> 2 <= e.1).
    { intros [f b] He Hl. simpl in *. apply elem_of_map_to_list in He.
      apply is_nil_false in Hl as [k Hk].
      destruct (Hb _ _ _ He Hk) as (n & Hn & Hf).
      pose proof (Hmin _ _ Hn).
      assert (f ≠ minFreq lfu); [|lia].
      intros ->. assert (isEmpty lfu (minFreq lfu) = false); [|congruence].
      apply isEmpty_false. by exists b, k. }
    destruct (updateMinFreq_scan_spec order Hlive) as (Hle & Hr).
    set (r := updateMinFreq_scan order) in *.
    assert (Hnode : forall k n, nodes lfu !! k = Some n ->
              exists b, (Frequency n, b) ∈ order /\ is_nil b = false).
    { intros k n Hn. destruct (Ha _ _ Hn) as (b & Hbk & Hk).
      exists b. split; [by apply elem_of_map_to_list|].
      apply is_nil_false. by exists k. }
    split; [exact Hwf|]. split; [split|]; simpl.
    + destruct Hr as [[-> _]|(e & He & Hl & <-)]; [lia|].
      pose proof (Hlive e He Hl). lia.
    + intros k n Hn. destruct (Hnode _ _ Hn) as (b & Hin & Hl).
      apply (Hle (Frequency n, b) Hin Hl).
    + intros k n Hn. destruct (Hnode _ _ Hn) as (b & Hin & Hl).
      destruct Hr as [[_ Hnone]|([f b'] & He & Hl' & Hf)].
      * pose proof (Hnone _ Hin) as Hx. simpl in Hx. congruence.
      * simpl in *. subst f. apply elem_of_map_to_list in He.
        apply is_nil_false in Hl' as [k' Hk'].
        apply isEmpty_false. by exists b', k'.
  - split; [exact Hwf|]. split; [by split|]. intros k n _. exact Hempty.
Qed.

Lemma unlinkNode_min_bound lfu k f :
  lfu_min_bound lfu -> lfu_min_bound (unlinkNode k f lfu).
Proof.
  intros [H1 Hmin]. unfold lfu_min_bound.
  rewrite unlinkNode_minFreq, unlinkNode_nodes. split; [exact H1|].
  intros k' n' Hn'. apply lookup_delete_Some in Hn' as [_ Hn']. by eapply Hmin.
Qed.

Lemma linkNode_min_bound lfu k f now :
  lfu_min_bound lfu -> minFreq lfu <= f -> lfu_min_bound (linkNode k f now lfu).
Proof.
  intros [H1 Hmin] Hf. unfold lfu_min_bound, linkNode, addToFrequency. simpl.
  split; [exact H1|].
  intros k' n' Hn'. apply lookup_insert_Some in Hn' as [[<- <-]|[_ Hn']].
  - exact Hf.
  - by eapply Hmin.
Qed.

Lemma wf_new : lfu_wf NewLFUList.
Proof.
  split; [apply buckets_wf_new|]. split; [split; [simpl; lia|]|];
    simpl; intros *; rewrite lookup_empty; discriminate.
Qed.

(** *** The methods *)

Lemma Remove_unfold lfu key n :
  nodes lfu !! key = Some n ->
  Remove key lfu = updateMinFreq (unlinkNode key (Frequency n) lfu).
Proof.
  intros Hn. unfold Remove. rewrite Hn. cbv zeta. f_equal.
  unfold unlinkNode, removeFromFrequency.
  by destruct (frequencies lfu !! Frequency n).
Qed.

Lemma Remove_absent lfu key : nodes lfu !! key = None -> Remove key lfu = lfu.
Proof. intros Hn. unfold Remove. by rewrite Hn. Qed.

Lemma Remove_nodes lfu key : nodes (Remove key lfu) = delete key (nodes lfu).
Proof.
  destruct (nodes lfu !! key) as [n|] eqn:Hn.
  - rewrite (Remove_unfold _ _ _ Hn), updateMinFreq_nodes. apply unlinkNode_nodes.
  - rewrite Remove_absent by exact Hn. symmetry. by apply delete_id.
Qed.

Lemma Remove_wf lfu key : lfu_wf lfu -> lfu_wf (Remove key lfu).
Proof.
  intros Hwf. destruct (nodes lfu !! key) as [n|] eqn:Hn.
  - rewrite (Remove_unfold _ _ _ Hn). destruct Hwf as [Hb [Hmin _]].
    apply updateMinFreq_wf.
    + by apply unlinkNode_buckets_wf.
    + by apply unlinkNode_min_bound.
  - by rewrite Remove_absent.
Qed.

(** The frequency at which [Add] indexes a new entry. *)
Lemma Add_frequency (count : Z) :
  0 <= count -> (if count =? 0 then 1 else count) = Z.max 1 count.
Proof.
  intros Hc. destruct (count =? 0) eqn:H0.
  - apply Z.eqb_eq in H0. lia.
  - apply Z.eqb_neq in H0. lia.
Qed.

Lemma Add_new_nodes lfu key item now :
  nodes lfu !! key = None -> 0 <= AccessCount item ->
  nodes (Add key item now lfu)
    = <[key := {| Frequency := Z.max 1 (AccessCount item); LastUsed := now |}]> (nodes lfu).
Proof.
  intros Hn Hc. unfold Add. rewrite Hn. cbv zeta.
  rewrite (Add_frequency _ Hc).
  by destruct (_ || _).
Qed.

Lemma Add_new_wf lfu key item now :
  lfu_wf lfu -> nodes lfu !! key = None -> 0 <= AccessCount item ->
  lfu_wf (Add key item now lfu).
Proof.
  intros (Hb & [H1 Hmin] & Hexact) Hn Hc. unfold Add. rewrite Hn. cbv zeta.
  rewrite (Add_frequency _ Hc).
  set (f := Z.max 1 (AccessCount item)).
  change (addToFrequency key f
            (with_nodes (<[key := {| Frequency := f; LastUsed := now |}]> (nodes lfu)) lfu))
    with (linkNode key f now lfu).
  pose proof (linkNode_buckets_wf lfu key f now Hb Hn ltac:(lia)) as Hb'.
  assert (Hmf : minFreq (linkNode key f now lfu) = minFreq lfu) by reflexivity.
  assert (Hnodes : nodes (linkNode key f now lfu)
                   = <[key := {| Frequency := f; LastUsed := now |}]> (nodes lfu))
    by reflexivity.
  assert (Hkeeps : forall f', isEmpty lfu f' = false ->
                              isEmpty (linkNode key f now lfu) f' = false).
  { intros f' He. apply isEmpty_false in He as (b & k & Hbk & Hk).
    apply isEmpty_false. unfold linkNode, addToFrequency. simpl.
    destruct (decide (f = f')) as [->|Hne].
    - rewrite Hbk. simpl. exists (b ++ [key]), k.
      rewrite lookup_insert_eq. split; [reflexivity|]. apply elem_of_app. by left.
    - exists b, k. rewrite lookup_insert_ne by exact Hne. by split. }
  assert (Hown : isEmpty (linkNode key f now lfu) f = false).
  { apply isEmpty_false. unfold linkNode, addToFrequency. simpl.
    eexists. exists key. rewrite lookup_insert_eq. split; [reflexivity|].
    apply elem_of_app. right. by left. }
  rewrite Hmf.
  destruct ((f <? minFreq lfu) || isEmpty (linkNode key f now lfu) (minFreq lfu)) eqn:Hcond.
  - split; [exact Hb'|]. split; [split|]; simpl.
    + lia.
    + intros k n Hk. apply lookup_insert_Some in Hk as [[<- <-]|[_ Hk]]; [simpl; lia|].
      apply orb_true_iff in Hcond as [Hlt|Hemp].
      * apply Z.ltb_lt in Hlt. pose proof (Hmin _ _ Hk). lia.
      * pose proof (Hkeeps _ (Hexact _ _ Hk)). congruence.
    + intros k n _. exact Hown.
  - apply orb_false_iff in Hcond as [Hge Hemp]. apply Z.ltb_ge in Hge.
    split; [exact Hb'|]. split; [split|].
    + rewrite Hmf. exact H1.
    + rewrite Hmf, Hnodes. intros k n Hk.
      apply lookup_insert_Some in Hk as [[<- <-]|[_ Hk]]; [exact Hge|].
      by eapply Hmin.
    + rewrite Hmf. intros k n _. exact Hemp.
Qed.

Lemma Update_absent lfu key item now :
  nodes lfu !! key = None -> Update key item now lfu = lfu.
Proof. intros Hn. unfold Update. by rewrite Hn. Qed.

Lemma Update_nodes lfu key item now n :
  nodes lfu !! key = Some n ->
  nodes (Update key item now lfu)
    = <[key := {| Frequency := AccessCount item; LastUsed := now |}]> (nodes lfu).
Proof.
  intros Hn. unfold Update. rewrite Hn. cbv zeta. case_bool_decide as Hne.
  - rewrite updateMinFreq_nodes. unfold addToFrequency, removeFromFrequency. simpl.
    by destruct (frequencies lfu !! Frequency n).
  - simpl. by rewrite Hne.
Qed.

Lemma Update_wf lfu key item now n :
  lfu_wf lfu -> nodes lfu !! key = Some n ->
  Frequency n <= AccessCount item ->
  lfu_wf (Update key item now lfu).
Proof.
  intros (Hb & [H1 Hmin] & Hexact) Hn Hle. unfold Update. rewrite Hn. cbv zeta.
  case_bool_decide as Hne.
  - assert (Heq : addToFrequency key (AccessCount item)
              (with_nodes
                 (<[key := {| Frequency := AccessCount item; LastUsed := now |}]>
                    (nodes (removeFromFrequency key (Frequency n) lfu)))
                 (removeFromFrequency key (Frequency n) lfu))
            = linkNode key (AccessCount item) now (unlinkNode key (Frequency n) lfu)).
    { unfold linkNode, unlinkNode, addToFrequency, removeFromFrequency.
      destruct (frequencies lfu !! Frequency n); simpl; by rewrite insert_delete_eq. }
    rewrite Heq. pose proof (Hmin _ _ Hn) as Hmn.
    pose proof (proj2 (proj2 (proj2 Hb)) _ _ Hn) as Hn1.
    apply updateMinFreq_wf.
    + apply linkNode_buckets_wf; [by apply unlinkNode_buckets_wf| |lia].
      rewrite unlinkNode_nodes. apply lookup_delete_eq.
    + apply linkNode_min_bound; [by apply unlinkNode_min_bound|].
      rewrite unlinkNode_minFreq. lia.
  - split; [by apply touch_buckets_wf|]. split; [split|]; simpl.
    + exact H1.
    + intros k n' Hk. apply lookup_insert_Some in Hk as [[<- <-]|[_ Hk]].
      * simpl. by eapply Hmin.
      * by eapply Hmin.
    + intros k n' _. by eapply Hexact.
Qed.

(** *** [RemoveLeast] *)

Lemma oldest_from lfu (b : list string) : forall acc k0,
  acc.1 = Some k0 ->
  exists k, (fold_left (oldest_step lfu) b acc).1 = Some k /\ (k = k0 \/ k ∈ b).
Proof.
  induction b as [|x b IH]; intros acc k0 Hacc; simpl.
  - exists k0. by split; [|left].
  - destruct (Before (lastUsedOf lfu x) acc.2) eqn:Hbefore.
    + replace (oldest_step lfu acc x) with (Some x, lastUsedOf lfu x)
        by (unfold oldest_step; by rewrite Hacc, Hbefore).
      destruct (IH (Some x, lastUsedOf lfu x) x eq_refl) as (k & Hk & Hin).
      exists k. split; [exact Hk|]. right.
      destruct Hin as [->|Hin]; [by left | by right].
    + replace (oldest_step lfu acc x) with acc
        by (unfold oldest_step; by rewrite Hacc, Hbefore).
      destruct (IH acc k0 Hacc) as (k & Hk & Hin).
      exists k. split; [exact Hk|].
      destruct Hin as [->|Hin]; [by left | right; by right].
Qed.

(** The scan of a non-empty bucket finds one of its nodes. *)
Lemma oldest_found lfu (b : list string) now :
  is_nil b = false ->
  exists k, (fold_left (oldest_step lfu) b (None, now)).1 = Some k /\ k ∈ b.
Proof.
  destruct b as [|x b]; [discriminate|]. intros _. simpl.
  destruct (oldest_from lfu b (Some x, lastUsedOf lfu x) x eq_refl) as (k & Hk & Hin).
  exists k. split; [exact Hk|].
  destruct Hin as [->|Hin]; [by left | by right].
Qed.

(** [RemoveLeast] on an empty index returns the empty string; on any
    other it removes a node of the least frequency and returns its
    key. *)
Lemma RemoveLeast_spec lfu now :
  lfu_wf lfu ->
  (nodes lfu = ∅ /\ RemoveLeast now lfu = (EmptyString, lfu)) \/
  (exists k n,
     nodes lfu !! k = Some n /\
     Frequency n = minFreq lfu /\
     (forall k' n', nodes lfu !! k' = Some n' -> Frequency n <= Frequency n') /\
     (RemoveLeast now lfu).1 = k /\
     nodes (RemoveLeast now lfu).2 = delete k (nodes lfu) /\
     lfu_wf (RemoveLeast now lfu).2).
Proof.
  intros (Hb & [H1 Hmin] & Hexact). unfold RemoveLeast.
  case_bool_decide as Hsize.
  - left. split; [by apply map_size_empty_iff | reflexivity].
  - right.
    assert (exists k0 n0, nodes lfu !! k0 = Some n0) as (k0 & n0 & Hn0).
    { apply map_size_non_empty_iff in Hsize.
      apply map_choose in Hsize as (k0 & n0 & Hn0). by exists k0, n0. }
    pose proof (Hexact _ _ Hn0) as Hlive.
    unfold isEmpty in Hlive.
    destruct (frequencies lfu !! minFreq lfu) as [freqList|] eqn:Hfl; [|discriminate].
    rewrite Hlive.
    destruct (oldest_found lfu freqList now Hlive) as (k & Hk & Hin).
    rewrite Hk.
    destruct (proj1 (proj2 Hb) _ _ _ Hfl Hin) as (n & Hn & Hf).
    exists k, n. split; [exact Hn|]. split; [exact Hf|].
    split; [intros k' n' Hn'; rewrite Hf; by eapply Hmin|].
    split; [reflexivity|]. simpl.
    assert (Heq : with_nodes (delete k (nodes lfu))
                    (with_frequencies
                       (<[minFreq lfu := unlink k freqList]> (frequencies lfu)) lfu)
                  = unlinkNode k (Frequency n) lfu).
    { unfold unlinkNode, removeFromFrequency. rewrite Hf, Hfl. reflexivity. }
    change (with_nodes
              (delete k (nodes (with_frequencies
                 (<[minFreq lfu := unlink k freqList]> (frequencies lfu)) lfu)))
              (with_frequencies
                 (<[minFreq lfu := unlink k freqList]> (frequencies lfu)) lfu))
      with (with_nodes (delete k (nodes lfu))
              (with_frequencies
                 (<[minFreq lfu := unlink k freqList]> (frequencies lfu)) lfu)).
    rewrite Heq. split.
    + rewrite updateMinFreq_nodes. apply unlinkNode_nodes.
    + apply updateMinFreq_wf.
      * by apply unlinkNode_buckets_wf.
      * by apply unlinkNode_min_bound.
Qed.

End LfuMinFreq.

(** ** The index and the map of a shard *)

Section LfuMatches.

Import LFU.

Implicit Types (lfu : LFUList) (d : gmap string CacheItem).

Lemma lfu_matches_new : lfu_matches NewLFUList ∅.
Proof.
  split; [apply wf_new|]. split.
  - intros k. simpl. by rewrite !lookup_empty.
  - intros k n item. simpl. rewrite lookup_empty. discriminate.
Qed.

Lemma lfu_matches_absent lfu d k :
  lfu_matches lfu d -> d !! k = None -> nodes lfu !! k = None.
Proof.
  intros (_ & Hdom & _) Hk. destruct (nodes lfu !! k) eqn:Hn; [|reflexivity].
  destruct (proj1 (Hdom k)) as [x Hx]; [by eexists|congruence].
Qed.

Lemma lfu_matches_present lfu d k item :
  lfu_matches lfu d -> d !! k = Some item ->
  exists n, nodes lfu !! k = Some n /\ Frequency n = Z.max 1 (AccessCount item).
Proof.
  intros (_ & Hdom & Hfreq) Hk.
  destruct (proj2 (Hdom k)) as [n Hn]; [by eexists|].
  exists n. split; [exact Hn|]. by eapply Hfreq.
Qed.

Lemma lfu_matches_Remove lfu d k :
  lfu_matches lfu d -> lfu_matches (Remove k lfu) (delete k d).
Proof.
  intros (Hwf & Hdom & Hfreq). split; [by apply Remove_wf|].
  rewrite Remove_nodes. split.
  - intros k'. rewrite !lookup_delete_is_Some, Hdom. tauto.
  - intros k' n item Hn Hitem.
    apply lookup_delete_Some in Hn as [_ Hn].
    apply lookup_delete_Some in Hitem as [_ Hitem]. by eapply Hfreq.
Qed.

Lemma lfu_matches_Add lfu d k item now :
  lfu_matches lfu d -> d !! k = None -> 0 <= AccessCount item ->
  lfu_matches (Add k item now lfu) (<[k := item]> d).
Proof.
  intros Hm Hk Hc. pose proof (lfu_matches_absent _ _ _ Hm Hk) as Hn.
  destruct Hm as (Hwf & Hdom & Hfreq).
  split; [by apply Add_new_wf|]. rewrite Add_new_nodes by assumption. split.
  - intros k'. rewrite !lookup_insert_is_Some, Hdom. tauto.
  - intros k' n' item' Hn' Hitem'.
    apply lookup_insert_Some in Hn' as [[<- <-]|[Hne Hn']].
    + rewrite lookup_insert_eq in Hitem'. by injection Hitem' as <-.
    + rewrite lookup_insert_ne in Hitem' by exact Hne. by eapply Hfreq.
Qed.

Lemma lfu_matches_Update lfu d k item item' now :
  lfu_matches lfu d -> d !! k = Some item ->
  AccessCount item' = AccessCount item + 1 -> 0 <= AccessCount item ->
  lfu_matches (Update k item' now lfu) (<[k := item']> d).
Proof.
  intros Hm Hk Hinc Hc.
  destruct (lfu_matches_present _ _ _ _ Hm Hk) as (n & Hn & Hf).
  destruct Hm as (Hwf & Hdom & Hfreq).
  split; [apply (Update_wf _ _ _ _ n); [assumption|assumption|lia]|].
  rewrite (Update_nodes _ _ _ _ n) by exact Hn. split.
  - intros k'. rewrite !lookup_insert_is_Some, Hdom. tauto.
  - intros k' n' it Hn' Hit.
    apply lookup_insert_Some in Hn' as [[<- <-]|[Hne Hn']].
    + rewrite lookup_insert_eq in Hit. injection Hit as <-. simpl. lia.
    + rewrite lookup_insert_ne in Hit by exact Hne. by eapply Hfreq.
Qed.

Lemma lfu_matches_empty lfu d : lfu_matches lfu d -> nodes lfu = ∅ -> d = ∅.
Proof.
  intros (_ & Hdom & _) Hempty. apply map_empty. intros k.
  destruct (d !! k) eqn:Hk; [|reflexivity].
  destruct (proj2 (Hdom k)) as [n Hn]; [by eexists|].
  rewrite Hempty, lookup_empty in Hn. discriminate.
Qed.

(** [RemoveLeast] of an LFU index that matches the map: on the empty map
    it returns the empty string, otherwise the key of an entry whose
    frequency [max 1 AccessCount] is the least. *)
Lemma lfu_matches_RemoveLeast lfu d now :
  lfu_matches lfu d ->
  (d = ∅ /\ RemoveLeast now lfu = (EmptyString, lfu)) \/
  (exists item,
     d !! (RemoveLeast now lfu).1 = Some item /\
     (forall k' item', d !! k' = Some item' ->
        Z.max 1 (AccessCount item) <= Z.max 1 (AccessCount item')) /\
     lfu_matches (RemoveLeast now lfu).2 (delete (RemoveLeast now lfu).1 d)).
Proof.
  intros Hm. pose proof Hm as (Hwf & Hdom & Hfreq).
  destruct (RemoveLeast_spec lfu now Hwf)
    as [[Hempty Hr]|(k & n & Hn & _ & Hleast & Hk & Hnodes & Hwf')].
  - left. split; [by eapply lfu_matches_empty | exact Hr].
  - right. rewrite Hk.
    destruct (proj1 (Hdom k)) as [item Hitem]; [by eexists|].
    exists item. split; [exact Hitem|]. split.
    + intros k' item' Hitem'.
      destruct (lfu_matches_present _ _ _ _ Hm Hitem') as (n' & Hn' & Hf').
      rewrite <- (Hfreq _ _ _ Hn Hitem), <- Hf'. by eapply Hleast.
    + split; [exact Hwf'|]. rewrite Hnodes. split.
      * intros k'. rewrite !lookup_delete_is_Some, Hdom. tauto.
      * intros k' n' item' Hn' Hitem'.
        apply lookup_delete_Some in Hn' as [_ Hn'].
        apply lookup_delete_Some in Hitem' as [_ Hitem']. by eapply Hfreq.
Qed.

End LfuMatches.

Section AnyIndex.

Implicit Types (l : AnyList) (d : gmap string CacheItem).

Lemma list_matches_Remove l d k :
  list_matches l d -> list_matches (Remove k l) (delete k d).
Proof.
  destruct l as [lru|lfu|fifo]; simpl; intros Hm.
  - unfold LRU.Remove. case_bool_decide as Hin; simpl; [by apply index_unlink|].
    rewrite <- (unlink_absent k (LRU.list_ lru)) by exact Hin. by apply index_unlink.
  - by apply lfu_matches_Remove.
  - unfold FIFO.Remove. case_bool_decide as Hin; simpl; [by apply index_unlink|].
    rewrite <- (unlink_absent k (FIFO.list_ fifo)) by exact Hin. by apply index_unlink.
Qed.

Lemma list_matches_Add l d k item now :
  list_matches l d -> d !! k = None -> 0 <= AccessCount item ->
  list_matches (Add k item now l) (<[k := item]> d).
Proof.
  destruct l as [lru|lfu|fifo]; simpl; intros Hm Hk Hc.
  - unfold LRU.Add.
    rewrite bool_decide_eq_false_2 by (by eapply index_absent).
    simpl. by apply index_push_front.
  - by apply lfu_matches_Add.
  - unfold FIFO.Add.
    rewrite bool_decide_eq_false_2 by (by eapply index_absent).
    simpl. by apply index_push_back.
Qed.

Lemma list_matches_Update l d k item item' now :
  list_matches l d -> d !! k = Some item ->
  AccessCount item' = AccessCount item + 1 -> 0 <= AccessCount item ->
  list_matches (Update k item' now l) (<[k := item']> d).
Proof.
  destruct l as [lru|lfu|fifo]; simpl; intros Hm Hk Hinc Hc.
  - unfold LRU.Update.
    rewrite bool_decide_eq_true_2 by (by eapply index_present).
    simpl. apply index_move_to_front; [exact Hm | by eexists].
  - by eapply lfu_matches_Update.
  - unfold FIFO.Update. apply index_rewrite; [exact Hm | by eexists].
Qed.

Lemma list_matches_Clear l : list_matches (Clear l) ∅.
Proof.
  destruct l; simpl; [apply index_new | apply lfu_matches_new | apply index_new].
Qed.

(** [RemoveLeast] of an index that matches the map returns the empty
    string on the empty map and the key of a stored entry otherwise. *)
Lemma list_matches_RemoveLeast l d now :
  list_matches l d ->
  (d = ∅ /\ RemoveLeast now l = (EmptyString, l)) \/
  (exists item,
     d !! (RemoveLeast now l).1 = Some item /\
     (is_lfu l -> forall k' item', d !! k' = Some item' ->
        Z.max 1 (AccessCount item) <= Z.max 1 (AccessCount item')) /\
     list_matches (RemoveLeast now l).2 (delete (RemoveLeast now l).1 d)).
Proof.
  destruct l as [lru|lfu|fifo]; simpl; intros Hm.
  - unfold LRU.RemoveLeast. destruct (last (LRU.list_ lru)) as [k|] eqn:Hlast; simpl.
    + right. destruct (index_pop_back _ _ _ Hm Hlast) as [[item Hitem] Hm'].
      exists item. split; [exact Hitem|]. split; [tauto | exact Hm'].
    + left. apply last_None in Hlast. rewrite Hlast in Hm. split; [|reflexivity].
      by apply index_empty.
  - destruct (lfu_matches_RemoveLeast lfu d now Hm) as [[Hd Hr]|(item & Hitem & Hleast & Hm')].
    + left. split; [exact Hd|]. by rewrite Hr.
    + right. exists item. split; [exact Hitem|]. split; [intros _; exact Hleast | exact Hm'].
  - unfold FIFO.RemoveLeast. destruct (FIFO.list_ fifo) as [|k rest] eqn:Hl; simpl.
    + left. split; [by apply index_empty | reflexivity].
    + right. destruct (index_pop_front _ _ _ Hm) as [[item Hitem] Hm'].
      exists item. split; [exact Hitem|]. split; [tauto | exact Hm'].
Qed.

Lemma is_lfu_Add l k item now : is_lfu (Add k item now l) <-> is_lfu l.
Proof. by destruct l. Qed.

Lemma is_lfu_Remove l k : is_lfu (Remove k l) <-> is_lfu l.
Proof. by destruct l. Qed.

Lemma is_lfu_Update l k item now : is_lfu (Update k item now l) <-> is_lfu l.
Proof. by destruct l. Qed.

Lemma is_lfu_RemoveLeast l now : is_lfu (RemoveLeast now l).2 <-> is_lfu l.
Proof. by destruct l. Qed.

Lemma is_lfu_Clear l : is_lfu (Clear l) <-> is_lfu l.
Proof. by destruct l. Qed.

End AnyIndex.

(** ** The shard invariant and the memory bound *)

Section ShardInvariant.

Import Shard.

Lemma list_matches_new m p c cs :
  list_matches (evictionList (NewCacheShard m p c cs)) ∅.
Proof.
  unfold NewCacheShard. repeat case_decide; simpl;
    first [apply index_new | apply lfu_matches_new].
Qed.

Lemma shard_inv_new m p c cs : shard_inv (NewCacheShard m p c cs).
Proof.
  split; [apply accounting_new|]. split.
  - intros k item Hk.
    assert (data (NewCacheShard m p c cs) = ∅) as Hd
      by (unfold NewCacheShard; by repeat case_decide).
    rewrite Hd, lookup_empty in Hk. discriminate.
  - assert (data (NewCacheShard m p c cs) = ∅) as ->
      by (unfold NewCacheShard; by repeat case_decide).
    apply list_matches_new.
Qed.

Lemma len_nonneg (b : bytes) : 0 <= len b.
Proof. unfold len. lia. Qed.

Lemma shard_inv_Set_store s key value ttl now :
  shard_inv s -> key ≠ EmptyString -> shard_inv (Set_store s key value ttl now).
Proof.
  intros (Hacc & Hkeys & Hlist) Hkey.
  split; [by apply accounting_Set_store|].
  unfold Set_store.
  destruct (compressDecision s value) as [[finalValue size] compressed] eqn:Hw.
  apply compressDecision_sound in Hw as (Hsize & _).
  pose proof (len_nonneg finalValue) as Hlen.
  destruct (data s !! key) as [oldItem|] eqn:Hk; simpl; split.
  - intros k item Hitem. apply lookup_insert_Some in Hitem as [[<- <-]|[_ Hitem]].
    + simpl. destruct (Hkeys _ _ Hk) as (_ & _ & Hc). repeat split; [exact Hkey|lia|exact Hc].
    + by eapply Hkeys.
  - rewrite <- insert_delete_eq. apply list_matches_Add.
    + by apply list_matches_Remove.
    + apply lookup_delete_eq.
    + simpl. by destruct (Hkeys _ _ Hk) as (_ & _ & Hc).
  - intros k item Hitem. apply lookup_insert_Some in Hitem as [[<- <-]|[_ Hitem]].
    + simpl. repeat split; [exact Hkey|lia|lia].
    + by eapply Hkeys.
  - apply list_matches_Add; [exact Hlist|exact Hk|simpl; lia].
Qed.

Lemma evictOne_succeeds now s item :
  data s !! (RemoveLeast now (evictionList s)).1 = Some item ->
  (RemoveLeast now (evictionList s)).1 ≠ EmptyString ->
  (evictOne now s).1 = true.
Proof.
  intros Hitem Hne. unfold evictOne. cbv zeta.
  rewrite decide_False by exact Hne.
  cbn [data with_evictionList]. by rewrite Hitem.
Qed.

(** In a shard that satisfies the invariant [evictOne] fails only when
    nothing is stored. *)
Lemma shard_inv_evictOne now s b s' :
  shard_inv s -> evictOne now s = (b, s') ->
  shard_inv s' /\ (b = false -> data s = ∅).
Proof.
  intros (Hacc & Hkeys & Hlist) Hev.
  pose proof (accounting_evictOne _ _ _ _ Hacc Hev) as Hacc'.
  destruct (list_matches_RemoveLeast _ _ now Hlist)
    as [[Hd Hr]|(item & Hitem & _ & Hlist')].
  - destruct b.
    + apply evictOne_true in Hev as (k & it & _ & _ & Hk & _).
      rewrite Hd, lookup_empty in Hk. discriminate.
    + apply evictOne_false in Hev as ->. split; [|done].
      split; [exact Hacc'|]. cbn [evictionList data with_evictionList].
      rewrite Hr. split; [exact Hkeys | exact Hlist].
  - destruct (Hkeys _ _ Hitem) as (Hne & _).
    pose proof (evictOne_succeeds now s item Hitem Hne) as Hb.
    rewrite Hev in Hb. simpl in Hb. subst b. split; [|discriminate].
    apply evictOne_true in Hev as (k & it & _ & <- & _ & ->).
    split; [exact Hacc'|]. simpl. split; [|exact Hlist'].
    intros k it' Hk. apply lookup_delete_Some in Hk as [_ Hk]. by eapply Hkeys.
Qed.

(** The loop of [evictIfNeeded] ends within the budget. *)
Lemma shard_inv_evict_loop now s s' :
  shard_inv s -> evict_loop_run 0 now s s' ->
  shard_inv s' /\ overBudget 0 s' = false.
Proof.
  intros Hinv Hrun. induction Hrun as [s Hover|s s' Hover Hev|s s' s'' Hover Hev Hrun IH].
  - by split.
  - destruct (shard_inv_evictOne _ _ _ _ Hinv Hev) as [Hinv' Hempty].
    split; [exact Hinv'|].
    destruct Hinv as ([Hsz _] & _). rewrite (Hempty eq_refl), sumSizes_empty in Hsz.
    apply evictOne_false in Hev as ->. unfold overBudget. simpl. rewrite Hsz.
    apply andb_false_iff.
    destruct (0 <? maxSize s) eqn:Hpos; [right|by left].
    apply Z.ltb_lt in Hpos. apply Z.ltb_ge. lia.
  - apply IH. by destruct (shard_inv_evictOne _ _ _ _ Hinv Hev).
Qed.

Lemma overBudget_within s : overBudget 0 s = false -> within_budget s.
Proof.
  unfold overBudget, within_budget. intros Hover Hpos.
  apply andb_false_iff in Hover as [Hover|Hover].
  - apply Z.ltb_ge in Hover. lia.
  - apply Z.ltb_ge in Hover. lia.
Qed.

Lemma shard_inv_Set s key value ttl now :
  shard_inv s -> key ≠ EmptyString ->
  shard_inv (Set_ s key value ttl now).2 /\ within_budget (Set_ s key value ttl now).2.
Proof.
  intros Hinv Hkey. unfold Set_. simpl.
  destruct (shard_inv_evict_loop now _ _
              (shard_inv_Set_store s key value ttl now Hinv Hkey)
              (evictIfNeeded_terminates 0 now _)) as [Hinv' Hover].
  split; [exact Hinv' | by apply overBudget_within].
Qed.

Lemma shard_inv_Get s key now :
  shard_inv s -> shard_inv (Get s key now).1.2.
Proof.
  intros Hinv. split; [apply accounting_Get, Hinv|].
  destruct Hinv as (_ & Hkeys & Hlist). unfold Get.
  destruct (data s !! key) as [item|] eqn:Hk; [|by split].
  destruct (negb _ && _); [by split|].
  destruct (Hkeys _ _ Hk) as (Hne & Hsz & Hc).
  set (item' := {| Key := Key item; Value := Value item; Size := Size item;
                   ExpireAt := ExpireAt item; CreatedAt := CreatedAt item;
                   AccessAt := now; AccessCount := AccessCount item + 1;
                   Compressed := Compressed item |}).
  assert (Hgoal :
    (forall k it, <[key := item']> (data s) !! k = Some it ->
       k ≠ EmptyString /\ 0 <= Size it /\ 0 <= AccessCount it) /\
    list_matches (Update key item' now (evictionList s)) (<[key := item']> (data s))).
  { split.
    - intros k it Hit. apply lookup_insert_Some in Hit as [[<- <-]|[_ Hit]].
      + simpl. repeat split; [exact Hne|exact Hsz|lia].
      + by eapply Hkeys.
    - by apply (list_matches_Update _ _ _ item). }
  cbv zeta. simpl Compressed.
  destruct (Compressed item); [simpl compressor; destruct (compressor s)|];
    exact Hgoal.
Qed.

Lemma Get_sizes s key now :
  currentSize (Get s key now).1.2 = currentSize s /\
  maxSize (Get s key now).1.2 = maxSize s.
Proof.
  unfold Get. destruct (data s !! key) as [item|]; [|done].
  destruct (negb _ && _); [done|]. cbv zeta. simpl Compressed.
  destruct (Compressed item); [simpl compressor; destruct (compressor s)|]; done.
Qed.

Lemma shard_inv_Delete s key : shard_inv s -> shard_inv (Delete s key).
Proof.
  intros Hinv. split; [apply accounting_Delete, Hinv|].
  destruct Hinv as (_ & Hkeys & Hlist). unfold Delete.
  destruct (data s !! key) as [item|] eqn:Hk; [|by split]. simpl. split.
  - intros k it Hit. apply lookup_delete_Some in Hit as [_ Hit]. by eapply Hkeys.
  - by apply list_matches_Remove.
Qed.

Lemma within_budget_Delete s key :
  shard_inv s -> within_budget s -> within_budget (Delete s key).
Proof.
  intros (_ & Hkeys & _) Hb. unfold within_budget, Delete.
  destruct (data s !! key) as [item|] eqn:Hk; [|exact Hb]. simpl.
  intros Hpos. specialize (Hb Hpos). destruct (Hkeys _ _ Hk) as (_ & Hsz & _). lia.
Qed.

Lemma shard_inv_Clear s : shard_inv (Clear s).
Proof.
  split; [apply accounting_Clear|]. simpl. split.
  - intros k item Hk. rewrite lookup_empty in Hk. discriminate.
  - apply list_matches_Clear.
Qed.

Lemma bounded_step s e :
  shard_inv s /\ within_budget s -> stores_nonempty_key e ->
  shard_inv (step s e) /\ within_budget (step s e).
Proof.
  intros [Hinv Hb]. unfold stores_nonempty_key, step.
  destruct e.1 as [key value ttl|key|key|]; intros Hkey.
  - by apply shard_inv_Set.
  - split; [by apply shard_inv_Get|].
    unfold within_budget. destruct (Get_sizes s key e.2) as [-> ->]. exact Hb.
  - split; [by apply shard_inv_Delete | by apply within_budget_Delete].
  - split; [apply shard_inv_Clear|]. unfold within_budget. simpl. lia.
Qed.

Lemma bounded_run h m p c cs :
  Forall stores_nonempty_key h ->
  shard_inv (run h (NewCacheShard m p c cs)) /\
  within_budget (run h (NewCacheShard m p c cs)).
Proof.
  intros Hall.
  apply (run_invariant (fun s => shard_inv s /\ within_budget s) stores_nonempty_key);
    [|split|exact Hall].
  - intros s e. apply bounded_step.
  - apply shard_inv_new.
  - unfold within_budget.
    assert (currentSize (NewCacheShard m p c cs) = 0) as ->
      by (unfold NewCacheShard; by repeat case_decide).
    rewrite NewCacheShard_maxSize. lia.
Qed.

(** *** The dynamic type of the list does not change *)

Lemma is_lfu_evictOne now s b s' :
  evictOne now s = (b, s') -> is_lfu (evictionList s') <-> is_lfu (evictionList s).
Proof.
  destruct b; intros Hev.
  - apply evictOne_true in Hev as (k & item & _ & _ & _ & ->). simpl.
    apply is_lfu_RemoveLeast.
  - apply evictOne_false in Hev as ->. simpl. apply is_lfu_RemoveLeast.
Qed.

Lemma is_lfu_Set_store s key value ttl now :
  is_lfu (evictionList (Set_store s key value ttl now)) <-> is_lfu (evictionList s).
Proof.
  unfold Set_store.
  destruct (compressDecision s value) as [[finalValue size] compressed].
  destruct (data s !! key);
    cbn [evictionList with_evictionList with_data with_currentSize with_currentCount].
  - by rewrite is_lfu_Add, is_lfu_Remove.
  - by rewrite is_lfu_Add.
Qed.

Lemma is_lfu_step s e :
  is_lfu (evictionList s) -> is_lfu (evictionList (step s e)).
Proof.
  intros Hl. unfold step. destruct e.1 as [key value ttl|key|key|].
  - unfold Set_. simpl.
    apply (evictIfNeeded_invariant (fun s' => is_lfu (evictionList s'))).
    + intros s1 b s2 Hs1 _ Hev. by apply (is_lfu_evictOne _ _ _ _ Hev).
    + by apply is_lfu_Set_store.
  - unfold Get. destruct (data s !! key) as [item|]; [|exact Hl].
    destruct (negb _ && _); [exact Hl|]. cbv zeta. simpl Compressed.
    destruct (Compressed item); [simpl compressor; destruct (compressor s)|];
      cbn [fst snd evictionList recordHit with_stats with_evictionList with_data];
      by apply is_lfu_Update.
  - unfold Delete. destruct (data s !! key); [|exact Hl].
    cbn [evictionList with_evictionList with_data with_currentSize with_currentCount].
    by apply is_lfu_Remove.
  - unfold Clear.
    cbn [evictionList with_stats with_evictionList with_data with_currentSize
         with_currentCount].
    by apply is_lfu_Clear.
Qed.

Lemma is_lfu_new m c cs : is_lfu (evictionList (NewCacheShard m EvictionLFU c cs)).
Proof. reflexivity. Qed.

Lemma lfu_eviction_point_inv s :
  lfu_eviction_point s ->
  shard_inv s /\ is_lfu (evictionList s) /\ overBudget 0 s = true.
Proof.
  induction 1 as [m c cs h key value ttl now Hall Hkey Hover
                 |now s s' Hpoint IH Hev Hover].
  - split; [|split; [|exact Hover]].
    + apply shard_inv_Set_store; [|exact Hkey]. by apply bounded_run.
    + apply is_lfu_Set_store.
      apply (run_invariant (fun s => is_lfu (evictionList s)) (fun _ => True));
        [|apply is_lfu_new|by apply Forall_true].
      intros s e Hs _. by apply is_lfu_step.
  - destruct IH as (Hinv & Hl & _). split; [|split; [|exact Hover]].
    + by destruct (shard_inv_evictOne _ _ _ _ Hinv Hev).
    + by apply (is_lfu_evictOne _ _ _ _ Hev).
Qed.

End ShardInvariant.

(** C2.  On a shard created with a memory limit [maxSize > 0], after any
    history of [Set], [Get], [Delete] and [Clear] with non-empty keys, and
    after any further [Set] with a non-empty key returns, [currentSize] is
    at most [maxSize] or the shard holds exactly one entry.  (The proof
    shows the first of the two: the budget loop evicts until the shard is
    within its limit, the entry just written included.) *)
Theorem memory_bound (m : Z) (p : string) (c : option Compressor) (cs : Z)
    (h : list (Shard.Op * Time)) :
  0 < m ->
  Forall Shard.stores_nonempty_key h ->
  let s := Shard.run h (Shard.NewCacheShard m p c cs) in
  Shard.maxSize s = m /\
  (Shard.currentSize s <= Shard.maxSize s \/ size (Shard.data s) = 1%nat) /\
  (forall key value ttl now, key ≠ EmptyString ->
     let s' := (Shard.Set_ s key value ttl now).2 in
     Shard.currentSize s' <= Shard.maxSize s' \/ size (Shard.data s') = 1%nat).
Proof.
  intros Hm Hall s.
  destruct (bounded_run h m p c cs Hall) as [Hinv Hb]. fold s in Hinv, Hb.
  assert (Hmax : Shard.maxSize s = m).
  { subst s. destruct (run_config h (Shard.NewCacheShard m p c cs)) as (-> & _).
    apply NewCacheShard_maxSize. }
  split; [exact Hmax|]. split.
  - left. apply Hb. lia.
  - intros key value ttl now Hkey s'. left.
    destruct (shard_inv_Set s key value ttl now Hinv Hkey) as [_ Hb']. fold s' in Hb'.
    apply Hb'. subst s'. destruct (Set_config s key value ttl now) as (-> & _). lia.
Qed.

Lemma memory_bound_witness :
  let h := [(Shard.OpSet "a"%string [x61; x61; x61] 0, 1);
            (Shard.OpSet "b"%string [x62; x62] 0, 2);
            (Shard.OpGet "a"%string, 3);
            (Shard.OpSet "c"%string [x63; x63; x63; x63; x63; x63] 0, 4)] in
  0 < 4 /\ Forall Shard.stores_nonempty_key h /\
  let s := Shard.run h (Shard.NewCacheShard 4 EvictionLFU None 0) in
  Shard.currentSize s <= Shard.maxSize s \/ size (Shard.data s) = 1%nat.
Proof.
  intros h.
  assert (Hall : Forall Shard.stores_nonempty_key h)
    by (repeat constructor; discriminate).
  split; [lia|]. split; [exact Hall|].
  pose proof (memory_bound 4 EvictionLFU None 0 h ltac:(lia) Hall) as H.
  cbv zeta in H. destruct H as (_ & Hbound & _). exact Hbound.
Defined.

(** ** LFU retention *)

Section LfuRetention.

Import Shard.

(** A shard over budget stores something. *)
Lemma overBudget_stores s :
  accounting s -> overBudget 0 s = true -> data s ≠ ∅.
Proof.
  intros [Hsz _] Hover Hempty. rewrite Hempty, sumSizes_empty in Hsz.
  unfold overBudget in Hover. rewrite Hsz in Hover.
  apply andb_true_iff in Hover as [Hpos Hlt].
  apply Z.ltb_lt in Hpos. apply Z.ltb_lt in Hlt. lia.
Qed.

End LfuRetention.

(** C7, as the code has it.  Whenever the budget loop of an LFU shard
    evicts, the evicted entry has the least index frequency
    [max 1 AccessCount] of all stored entries: an entry whose
    [max 1 AccessCount] is strictly higher than that of the evicted one is
    retained.  (Access counts 0 and 1 share frequency 1, where the last
    use decides.)  A new entry is indexed by [Add] at frequency
    [max 1 AccessCount]. *)
Theorem lfu_evicts_least_frequency (s : Shard.CacheShard) (now : Time) :
  lfu_eviction_point s ->
  (exists key item s',
     Shard.evictOne now s = (true, s') /\
     Shard.data s !! key = Some item /\
     Shard.data s' = delete key (Shard.data s) /\
     (forall k' item', Shard.data s !! k' = Some item' ->
        Z.max 1 (AccessCount item) <= Z.max 1 (AccessCount item')) /\
     (forall k' item', Shard.data s !! k' = Some item' ->
        Z.max 1 (AccessCount item) < Z.max 1 (AccessCount item') ->
        Shard.data s' !! k' = Some item')) /\
  (forall lfu k item t,
     LFU.nodes lfu !! k = None -> 0 <= AccessCount item ->
     LFU.nodes (LFU.Add k item t lfu) !! k
       = Some {| LFU.Frequency := Z.max 1 (AccessCount item); LFU.LastUsed := t |}).
Proof.
  intros Hpoint. split.
  - destruct (lfu_eviction_point_inv s Hpoint) as (Hinv & Hlfu & Hover).
    pose proof Hinv as (Hacc & Hkeys & Hlist).
    destruct (list_matches_RemoveLeast _ _ now Hlist)
      as [[Hd _]|(item & Hitem & Hleast & _)].
    { by destruct (overBudget_stores s Hacc Hover). }
    specialize (Hleast Hlfu).
    destruct (Hkeys _ _ Hitem) as (Hne & _).
    pose proof (evictOne_succeeds now s item Hitem Hne) as Hb.
    destruct (Shard.evictOne now s) as [b s'] eqn:Hev. simpl in Hb. subst b.
    pose proof Hev as Hev'.
    apply evictOne_true in Hev' as (k & it & _ & Hk & Hit & Hs').
    rewrite Hk in Hitem. rewrite Hit in Hitem. injection Hitem as ->.
    exists k, item, s'. split; [reflexivity|]. split; [exact Hit|].
    split; [by rewrite Hs'|]. split; [exact Hleast|].
    intros k' item' Hitem' Hlt. rewrite Hs'. simpl.
    rewrite lookup_delete_ne; [exact Hitem'|].
    intros ->. rewrite Hit in Hitem'. injection Hitem' as ->. lia.
  - intros lfu k item t Hn Hc.
    rewrite Add_new_nodes by assumption. apply lookup_insert_eq.
Qed.

Lemma lfu_evicts_least_frequency_witness :
  let h := [(Shard.OpSet "a"%string [x61] 0, 1);
            (Shard.OpGet "a"%string, 2); (Shard.OpGet "a"%string, 3);
            (Shard.OpSet "b"%string [x62] 0, 4)] in
  let s := Shard.Set_store (Shard.run h (Shard.NewCacheShard 2 EvictionLFU None 0))
             "c"%string [x63] 0 5 in
  lfu_eviction_point s /\
  exists key item s',
    Shard.evictOne 5 s = (true, s') /\
    Shard.data s !! key = Some item /\
    Shard.data s' = delete key (Shard.data s) /\
    (forall k' item', Shard.data s !! k' = Some item' ->
       Z.max 1 (AccessCount item) <= Z.max 1 (AccessCount item')).
Proof.
  intros h s.
  assert (Hpoint : lfu_eviction_point s).
  { apply eviction_first;
      [repeat constructor; discriminate | discriminate | vm_compute; reflexivity]. }
  split; [exact Hpoint|].
  destruct (lfu_evicts_least_frequency s 5 Hpoint)
    as ((key & item & s' & Hev & Hitem & Hs' & Hleast & _) & _).
  exists key, item, s'. repeat split; assumption.
Defined.

(** C7, the claim as stated fails: "a" has been read once (access count 1)
    and "b" never (access count 0); both are indexed at frequency 1, and
    when the [Set] of "c" puts the shard over budget, "a", whose last use
    is the older, is evicted while "b" stays. *)
Lemma lfu_retention_counterexample :
  let h := [(Shard.OpSet "a"%string [x61] 0, 1);
            (Shard.OpGet "a"%string, 2);
            (Shard.OpSet "b"%string [x62] 0, 3)] in
  let s0 := Shard.run h (Shard.NewCacheShard 2 EvictionLFU None 0) in
  let s := Shard.Set_store s0 "c"%string [x63] 0 4 in
  (AccessCount <$> Shard.data s !! "a"%string) = Some 1 /\
  (AccessCount <$> Shard.data s !! "b"%string) = Some 0 /\
  Shard.overBudget 0 s = true /\
  (Shard.evictOne 4 s).1 = true /\
  Shard.data (Shard.evictOne 4 s).2 !! "a"%string = None /\
  is_Some (Shard.data (Shard.evictOne 4 s).2 !! "b"%string) /\
  Shard.data (Shard.Set_ s0 "c"%string [x63] 0 4).2 !! "a"%string = None /\
  is_Some (Shard.data (Shard.Set_ s0 "c"%string [x63] 0 4).2 !! "b"%string).
Proof.
  intros h s0 s.
  split; [vm_compute; reflexivity|]. split; [vm_compute; reflexivity|].
  split; [vm_compute; reflexivity|]. split; [vm_compute; reflexivity|].
  split; [vm_compute; reflexivity|]. split; [vm_compute; by eexists|].
  split; [vm_compute; reflexivity | vm_compute; by eexists].
Qed.

(** * Further properties of the shard *)

Section ShardMore.

Import Shard.

(** The shard after a hit. *)
Lemma Get_live_shard s key item now :
  data s !! key = Some item -> live_at now item ->
  (Get s key now).1.2
    = recordHit (with_evictionList
                   (Update key (touched now item) now (evictionList s))
                   (with_data (<[key := touched now item]> (data s)) s)) /\
  (Get s key now).2 = None.
Proof.
  intros Hk Hlive. unfold Get. rewrite Hk.
  assert (negb (IsZero (ExpireAt item)) && After now (ExpireAt item) = false) as ->.
  { unfold IsZero, After. destruct Hlive as [->|Hle]; [reflexivity|].
    apply andb_false_iff. right. by apply Z.ltb_ge. }
  cbv zeta. fold (touched now item). simpl Compressed.
  destruct (Compressed item); [|done].
  simpl compressor. by destruct (compressor s).
Qed.

(** [Get] of an entry that is not live: absent or expired. *)
Lemma Get_miss_shard s key now :
  (forall item, data s !! key = Some item -> ~ live_at now item) ->
  (Get s key now).1.1 = Returned [] (Some ErrKeyNotFound) /\
  (Get s key now).1.2 = recordMiss s.
Proof.
  intros Hdead. unfold Get. destruct (data s !! key) as [item|] eqn:Hk; [|done].
  specialize (Hdead item eq_refl). unfold live_at in Hdead.
  assert (negb (IsZero (ExpireAt item)) && After now (ExpireAt item) = true) as ->; [|done].
  unfold IsZero, After. apply andb_true_iff. split.
  - apply negb_true_iff, Z.eqb_neq. tauto.
  - apply Z.ltb_lt. lia.
Qed.

Lemma live_at_dec now item : live_at now item \/ ~ live_at now item.
Proof. unfold live_at. lia. Qed.

(** One [Get] is one hit or one miss. *)
Lemma Get_counts s key now :
  Hits (stats (Get s key now).1.2) + Misses (stats (Get s key now).1.2)
    = Hits (stats s) + Misses (stats s) + 1.
Proof.
  destruct (data s !! key) as [item|] eqn:Hk.
  - destruct (live_at_dec now item) as [Hlive|Hdead].
    + destruct (Get_live_shard s key item now Hk Hlive) as [-> _]. simpl. lia.
    + destruct (Get_miss_shard s key now) as [_ ->]; [|simpl; lia].
      intros it Hit. rewrite Hk in Hit. by injection Hit as <-.
  - destruct (Get_miss_shard s key now) as [_ ->]; [|simpl; lia].
    intros it Hit. congruence.
Qed.

Lemma Set_stats s key value ttl now :
  Hits (stats (Set_ s key value ttl now).2) = Hits (stats s) /\
  Misses (stats (Set_ s key value ttl now).2) = Misses (stats s).
Proof.
  unfold Set_. simpl.
  destruct (evictIfNeeded_config 0 now (Set_store s key value ttl now))
    as (_ & _ & _ & _ & -> & ->).
  by destruct (Set_store_config s key value ttl now) as (_ & _ & _ & _ & ->).
Qed.

Lemma step_counts s e :
  no_clear e ->
  Hits (stats (step s e)) + Misses (stats (step s e))
    = Hits (stats s) + Misses (stats s) + count_gets [e].
Proof.
  unfold no_clear, step, count_gets.
  destruct e as [[key value ttl|key|key|] t]; cbn [fst snd fold_right];
    intros Hnc; [| | |done].
  - destruct (Set_stats s key value ttl t) as [-> ->]. lia.
  - rewrite Get_counts. lia.
  - destruct (Delete_config s key) as (_ & _ & _ & _ & ->). lia.
Qed.

Lemma count_gets_cons e h : count_gets (e :: h) = count_gets [e] + count_gets h.
Proof. unfold count_gets. simpl. destruct e.1; lia. Qed.

(** *** Evictions and the entry count *)

Lemma evictOne_evictions now s b s' :
  evictOne now s = (b, s') ->
  Evictions (stats s') + currentCount s' = Evictions (stats s) + currentCount s.
Proof.
  destruct b; intros Hev.
  - apply evictOne_true in Hev as (k & item & _ & _ & _ & ->). simpl. lia.
  - apply evictOne_false in Hev as ->. done.
Qed.

Lemma evictIfNeeded_evictions n now s :
  Evictions (stats (evictIfNeeded n now s)) + currentCount (evictIfNeeded n now s)
    = Evictions (stats s) + currentCount s.
Proof.
  apply (evictIfNeeded_invariant (fun s' =>
    Evictions (stats s') + currentCount s' = Evictions (stats s) + currentCount s));
    [|done].
  intros s1 b s2 Hs1 _ Hev. rewrite (evictOne_evictions _ _ _ _ Hev). exact Hs1.
Qed.

Lemma Set_store_count s key value ttl now :
  currentCount (Set_store s key value ttl now)
    = currentCount s + (match data s !! key with Some _ => 0 | None => 1 end).
Proof.
  unfold Set_store.
  destruct (compressDecision s value) as [[finalValue size] compressed].
  destruct (data s !! key); simpl; lia.
Qed.

End ShardMore.

Lemma RemoveLeast_Clear (l : AnyList) (now : Time) :
  RemoveLeast now (Clear l) = (EmptyString, Clear l).
Proof. by destruct l. Qed.

(** X1.  [Clear] resets the shard: no entry, both counters and all three
    statistics 0, the eviction list empty; every [Get] afterwards fails
    with KeyNotFound.  The limit, policy and compressor stay. *)
Theorem shard_clear_resets (s : Shard.CacheShard) :
  let s' := Shard.Clear s in
  Shard.data s' = ∅ /\
  Shard.currentSize s' = 0 /\ Shard.currentCount s' = 0 /\
  Shard.Hits (Shard.stats s') = 0 /\ Shard.Misses (Shard.stats s') = 0 /\
  Shard.Evictions (Shard.stats s') = 0 /\
  (forall key now,
     (Shard.Get s' key now).1.1 = Shard.Returned [] (Some ErrKeyNotFound)) /\
  (forall now, Shard.evictOne now s' = (false, s')) /\
  shard_inv s' /\
  Shard.maxSize s' = Shard.maxSize s /\
  Shard.evictionPolicy s' = Shard.evictionPolicy s /\
  Shard.compressor s' = Shard.compressor s.
Proof.
  intros s'. do 6 (split; [reflexivity|]).
  split; [intros key now; by rewrite Get_absent|].
  split; [|split; [apply shard_inv_Clear | done]].
  intros now. unfold Shard.evictOne. cbv zeta. subst s'.
  change (Shard.evictionList (Shard.Clear s)) with (Clear (Shard.evictionList s)).
  rewrite RemoveLeast_Clear. simpl. reflexivity.
Qed.

(** X2.  [Delete] removes the entry of its key and nothing else: a [Get]
    of the key fails with KeyNotFound afterwards, every other entry and
    all statistics are as before, the accounting is kept; deleting a key
    that is not stored changes nothing, so [Delete] is idempotent. *)
Theorem delete_removes_only_its_key (s : Shard.CacheShard) (key : string) :
  let s' := Shard.Delete s key in
  Shard.data s' !! key = None /\
  (forall now, (Shard.Get s' key now).1.1 = Shard.Returned [] (Some ErrKeyNotFound)) /\
  (forall k, k ≠ key -> Shard.data s' !! k = Shard.data s !! k) /\
  Shard.stats s' = Shard.stats s /\
  (Shard.data s !! key = None -> s' = s) /\
  Shard.Delete s' key = s' /\
  (accounting s -> accounting s') /\
  (forall item, Shard.data s !! key = Some item ->
     Shard.currentSize s' = Shard.currentSize s - Size item /\
     Shard.currentCount s' = Shard.currentCount s - 1).
Proof.
  intros s'. subst s'.
  assert (Hgone : Shard.data (Shard.Delete s key) !! key = None).
  { rewrite Delete_data. apply lookup_delete_eq. }
  assert (Habsent : forall s0, Shard.data s0 !! key = None -> Shard.Delete s0 key = s0).
  { intros s0 H0. unfold Shard.Delete. by rewrite H0. }
  split; [exact Hgone|]. split; [intros now; by rewrite Get_absent|].
  split; [intros k Hne; rewrite Delete_data; by apply lookup_delete_ne|].
  split; [by destruct (Delete_config s key) as (_ & _ & _ & _ & ->)|].
  split; [apply Habsent|]. split; [by apply Habsent|].
  split; [apply accounting_Delete|].
  intros item Hitem. unfold Shard.Delete. rewrite Hitem. done.
Qed.

(** X3.  Every [Get] is counted once, as a hit or as a miss: along a
    history without [Clear] the sum of [Hits] and [Misses] grows by the
    number of [Get] calls ([Set] and [Delete] count nothing).  A [Get] of
    a stored, unexpired entry is a hit whatever [Decompress] returns; a
    [Get] of an absent or expired entry is a miss. *)
Theorem hits_and_misses_count_gets (s : Shard.CacheShard) (h : list (Shard.Op * Time)) :
  Forall no_clear h ->
  Shard.Hits (Shard.stats (Shard.run h s)) + Shard.Misses (Shard.stats (Shard.run h s))
    = Shard.Hits (Shard.stats s) + Shard.Misses (Shard.stats s) + count_gets h /\
  (forall key item now,
     Shard.data s !! key = Some item -> live_at now item ->
     Shard.Hits (Shard.stats (Shard.Get s key now).1.2) = Shard.Hits (Shard.stats s) + 1 /\
     Shard.Misses (Shard.stats (Shard.Get s key now).1.2) = Shard.Misses (Shard.stats s)) /\
  (forall key now,
     (forall item, Shard.data s !! key = Some item -> ~ live_at now item) ->
     (Shard.Get s key now).1.1 = Shard.Returned [] (Some ErrKeyNotFound) /\
     Shard.Misses (Shard.stats (Shard.Get s key now).1.2) = Shard.Misses (Shard.stats s) + 1 /\
     Shard.Hits (Shard.stats (Shard.Get s key now).1.2) = Shard.Hits (Shard.stats s)).
Proof.
  intros Hall. split; [|split].
  - revert s. unfold Shard.run.
    induction h as [|e h IH]; intros s; [unfold count_gets; simpl; lia|].
    cbn [fold_left]. inversion Hall as [|? ? He Hh]; subst.
    rewrite (IH Hh), (step_counts s e He), (count_gets_cons e h). lia.
  - intros key item now Hk Hlive.
    destruct (Get_live_shard s key item now Hk Hlive) as [-> _]. done.
  - intros key now Hdead.
    destruct (Get_miss_shard s key now Hdead) as [-> ->]. done.
Qed.

Lemma hits_and_misses_count_gets_witness :
  let s := Shard.NewCacheShard 100 EvictionLRU None 0 in
  let h := [(Shard.OpSet "a"%string [x61] 10, 1); (Shard.OpGet "a"%string, 5);
            (Shard.OpGet "b"%string, 6); (Shard.OpGet "a"%string, 20)] in
  Forall no_clear h /\
  Shard.Hits (Shard.stats (Shard.run h s)) = 1 /\
  Shard.Misses (Shard.stats (Shard.run h s)) = 2 /\
  Shard.Hits (Shard.stats (Shard.run h s)) + Shard.Misses (Shard.stats (Shard.run h s))
    = Shard.Hits (Shard.stats s) + Shard.Misses (Shard.stats s) + count_gets h.
Proof.
  intros s h.
  assert (Hall : Forall no_clear h) by (repeat constructor).
  split; [exact Hall|]. split; [vm_compute; reflexivity|].
  split; [vm_compute; reflexivity|].
  exact (proj1 (hits_and_misses_count_gets s h Hall)).
Defined.

(** X4.  [Evictions] counts exactly the entries the budget loop removes:
    a [Set] raises it by the number of entries that are gone afterwards
    (the entry count before, plus one for a new key, less the entry
    count after); [Get] and [Delete] leave it as it is. *)
Theorem evictions_count_evicted_entries (s : Shard.CacheShard) (key : string)
    (value : bytes) (ttl : Z) (now : Time) :
  let s' := (Shard.Set_ s key value ttl now).2 in
  let inserted := match Shard.data s !! key with Some _ => 0 | None => 1 end in
  Shard.Evictions (Shard.stats s') - Shard.Evictions (Shard.stats s)
    = Shard.currentCount s + inserted - Shard.currentCount s' /\
  (accounting s ->
     Shard.Evictions (Shard.stats s') - Shard.Evictions (Shard.stats s)
       = Z.of_nat (size (Shard.data s)) + inserted - Z.of_nat (size (Shard.data s'))) /\
  (forall k t, Shard.Evictions (Shard.stats (Shard.Get s k t).1.2)
               = Shard.Evictions (Shard.stats s)) /\
  (forall k, Shard.Evictions (Shard.stats (Shard.Delete s k))
             = Shard.Evictions (Shard.stats s)).
Proof.
  intros s' inserted.
  assert (Hdelta : Shard.Evictions (Shard.stats s') - Shard.Evictions (Shard.stats s)
                   = Shard.currentCount s + inserted - Shard.currentCount s').
  { subst s' inserted. unfold Shard.Set_. simpl.
    pose proof (evictIfNeeded_evictions 0 now (Shard.Set_store s key value ttl now)) as He.
    rewrite Set_store_count in He.
    destruct (Set_store_config s key value ttl now) as (_ & _ & _ & _ & Hst).
    rewrite Hst in He. lia. }
  split; [exact Hdelta|]. split; [|split].
  - intros Hacc. pose proof (accounting_Set s key value ttl now Hacc) as [_ Hc'].
    destruct Hacc as [_ Hc]. fold s' in Hc'. lia.
  - intros k t. by destruct (Get_config s k t) as (_ & _ & _ & _ & ->).
  - intros k. by destruct (Delete_config s k) as (_ & _ & _ & _ & ->).
Qed.

(** * The budget at its edges, expiry, and the shape of entries *)

Section ShardEdges.

Import Shard.

Lemma sumSizes_nonneg (d : gmap string CacheItem) :
  sizes_nonneg d -> 0 <= sumSizes d.
Proof.
  induction d as [|k item d Hk IH] using map_ind; intros Hnn.
  - by rewrite sumSizes_empty.
  - rewrite sumSizes_insert_fresh by exact Hk.
    assert (0 <= Size item) by (apply (Hnn k); apply lookup_insert_eq).
    assert (0 <= sumSizes d); [|lia].
    apply IH. intros k' item' Hk'. apply (Hnn k').
    rewrite lookup_insert_ne; [exact Hk'|]. intros ->. congruence.
Qed.

(** A stored entry is no larger than the sum of all sizes. *)
Lemma sumSizes_member (d : gmap string CacheItem) k item :
  sizes_nonneg d -> d !! k = Some item -> Size item <= sumSizes d.
Proof.
  intros Hnn Hk.
  pose proof (sumSizes_delete d k item Hk) as Hdel.
  assert (0 <= sumSizes (delete k d)); [|lia].
  apply sumSizes_nonneg. intros k' item' Hk'.
  apply lookup_delete_Some in Hk' as [_ Hk']. by eapply Hnn.
Qed.

Lemma shard_inv_sizes s : shard_inv s -> sizes_nonneg (data s).
Proof. intros (_ & Hkeys & _) k item Hk. by destruct (Hkeys _ _ Hk) as (_ & ? & _). Qed.

(** The entry found under [key] right after [Set key] is the entry that
    [Set] wrote. *)
Lemma Set_entry s key value ttl now item :
  data (Set_ s key value ttl now).2 !! key = Some item ->
  Value item = (compressDecision s value).1.1 /\
  Size item = (compressDecision s value).1.2 /\
  Compressed item = (compressDecision s value).2 /\
  ExpireAt item = (if 0 <? ttl then now + ttl else 0).
Proof.
  intros Hitem. unfold Set_ in Hitem. simpl in Hitem.
  apply evictIfNeeded_lookup in Hitem.
  destruct (Set_store_data s key value ttl now)
    as (it & Hd & Hval & Hsz & Hcomp & Hexp & _).
  rewrite Hd, lookup_insert_eq in Hitem. injection Hitem as <-. done.
Qed.

(** *** No limit *)

Lemma overBudget_no_limit n s : maxSize s <= 0 -> overBudget n s = false.
Proof.
  intros Hm. unfold overBudget.
  replace (0 <? maxSize s) with false by (symmetry; apply Z.ltb_ge; lia). done.
Qed.

Lemma step_no_limit_evictions s e :
  maxSize s <= 0 ->
  Evictions (stats (step s e)) = Evictions (stats s) \/
  Evictions (stats (step s e)) = 0.
Proof.
  intros Hm. unfold step. destruct e.1 as [key value ttl|key|key|]; [| | |by right]; left.
  - unfold Set_. simpl. rewrite evictIfNeeded_within.
    + by destruct (Set_store_config s key value ttl e.2) as (_ & _ & _ & _ & ->).
    + apply overBudget_no_limit.
      by destruct (Set_store_config s key value ttl e.2) as (-> & _).
  - by destruct (Get_config s key e.2) as (_ & _ & _ & _ & ->).
  - by destruct (Delete_config s key) as (_ & _ & _ & _ & ->).
Qed.

(** *** The empty key *)

Lemma evictOne_keeps_empty_key now s b s' :
  evictOne now s = (b, s') -> data s' !! EmptyString = data s !! EmptyString.
Proof.
  destruct b; intros Hev.
  - apply evictOne_true in Hev as (k & item & Hne & _ & _ & ->). simpl.
    by apply lookup_delete_ne.
  - by apply evictOne_false in Hev as ->.
Qed.

Lemma evictIfNeeded_keeps_empty_key n now s :
  data (evictIfNeeded n now s) !! EmptyString = data s !! EmptyString.
Proof.
  apply (evictIfNeeded_invariant
           (fun s' => data s' !! EmptyString = data s !! EmptyString)); [|done].
  intros s1 b s2 Hs1 _ Hev. rewrite (evictOne_keeps_empty_key _ _ _ _ Hev). exact Hs1.
Qed.

(** *** The shape of the entries *)

Lemma entries_wf_new m p c cs : entries_wf (NewCacheShard m p c cs).
Proof.
  intros k item Hk.
  assert (data (NewCacheShard m p c cs) = ∅) as Hd
    by (unfold NewCacheShard; by repeat case_decide).
  rewrite Hd, lookup_empty in Hk. discriminate.
Qed.

(** Fewer entries in a shard of the same configuration. *)
Lemma entries_wf_subseteq s s' :
  entries_wf s -> data s' ⊆ data s -> compressor s' = compressor s -> entries_wf s'.
Proof.
  intros Hwf Hsub Hc k item Hk. rewrite Hc. apply Hwf.
  by eapply lookup_weaken.
Qed.

Lemma entries_wf_Set s key value ttl now :
  entries_wf s -> entries_wf (Set_ s key value ttl now).2.
Proof.
  intros Hwf. unfold Set_. simpl.
  apply (entries_wf_subseteq (Set_store s key value ttl now));
    [|apply evictIfNeeded_data_subseteq
     |by destruct (evictIfNeeded_config 0 now (Set_store s key value ttl now))
         as (_ & _ & -> & _)].
  intros k item Hk.
  destruct (Set_store_config s key value ttl now) as (_ & _ & -> & _).
  destruct (Set_store_data s key value ttl now)
    as (it & Hd & Hval & Hsz & Hcomp & _ & _ & Hkeep).
  rewrite Hd in Hk. apply lookup_insert_Some in Hk as [[<- <-]|[_ Hk]]; [|by apply Hwf].
  destruct (compressDecision s value) as [[finalValue size] compressed] eqn:Hw.
  apply compressDecision_sound in Hw as (Hlen & _ & Hpacked). simpl in *.
  assert (Hkc : Key it = key /\ 0 <= AccessCount it).
  { destruct (data s !! key) as [old|] eqn:Hold.
    - destruct Hkeep as (-> & _ & ->). destruct (Hwf _ _ Hold) as (? & _ & ? & _). done.
    - destruct Hkeep as (-> & _ & ->). done. }
  destruct Hkc as [Hkey Hcount].
  split; [exact Hkey|]. split; [congruence|]. split; [exact Hcount|].
  intros Hc. destruct (Hpacked ltac:(congruence)) as (c & -> & _). by eexists.
Qed.

Lemma entries_wf_Get s key now : entries_wf s -> entries_wf (Get s key now).1.2.
Proof.
  intros Hwf k item Hk.
  destruct (Get_config s key now) as (_ & _ & -> & _).
  destruct (Get_data s key now) as [Hd|(it & it' & Hit & Hsame & Hcount & _ & Hd)];
    rewrite Hd in Hk; [by apply Hwf|].
  apply lookup_insert_Some in Hk as [[<- <-]|[_ Hk]]; [|by apply Hwf].
  destruct (Hwf _ _ Hit) as (Hkey & Hsz & Hc & Hcomp).
  destruct Hsame as (Hk' & Hv & Hs & _ & _ & Hcp).
  split; [congruence|]. split; [congruence|]. split; [lia|].
  intros Hct. apply Hcomp. congruence.
Qed.

Lemma entries_wf_step s e : entries_wf s -> entries_wf (step s e).
Proof.
  intros Hwf. unfold step. destruct e.1 as [key value ttl|key|key|].
  - by apply entries_wf_Set.
  - by apply entries_wf_Get.
  - apply (entries_wf_subseteq s); [exact Hwf| |].
    + rewrite Delete_data. apply delete_subseteq.
    + by destruct (Delete_config s key) as (_ & _ & -> & _).
  - intros k item Hk. simpl in Hk. rewrite lookup_empty in Hk. discriminate.
Qed.

(** [Get] panics only on an entry marked compressed in a shard without
    a compressor. *)
Lemma Get_no_panic s key now : entries_wf s -> (Get s key now).1.1 ≠ Panicked.
Proof.
  intros Hwf. unfold Get. destruct (data s !! key) as [item|] eqn:Hk; [|done].
  destruct (negb _ && _); [done|]. cbv zeta. simpl Compressed.
  destruct (Compressed item) eqn:Hc; [|done].
  destruct (Hwf _ _ Hk) as (_ & _ & _ & Hcomp).
  destruct (Hcomp Hc) as [c Hcs]. simpl compressor. by rewrite Hcs.
Qed.

(** *** Reading back what [Set] wrote *)

Lemma Get_after_Set s key value ttl now h now' :
  compressor_sound_at s value ->
  Forall (fun e => ~ sets_key key e) h ->
  is_Some (data (run h (Set_ s key value ttl now).2) !! key) ->
  ttl <= 0 \/ now' <= now + ttl ->
  (Get (run h (Set_ s key value ttl now).2) key now').1.1 = Returned value None.
Proof.
  intros Hcontract Hall [item Hitem] Httl.
  destruct (entry_after_Set _ _ _ _ _ _ _ Hall Hitem) as (Hval & Hcomp & Hexp).
  assert (Hlive : ExpireAt item = 0 \/ now' <= ExpireAt item).
  { rewrite Hexp. destruct (0 <? ttl) eqn:Hpos.
    - apply Z.ltb_lt in Hpos. right. lia.
    - by left. }
  rewrite (Get_live_result _ _ item) by assumption.
  destruct (run_config h (Set_ s key value ttl now).2) as (_ & _ & -> & _).
  destruct (Set_config s key value ttl now) as (_ & _ & -> & _).
  destruct (compressDecision s value) as [[finalValue size] compressed] eqn:Hw.
  apply compressDecision_sound in Hw as (_ & Hplain & Hpacked). simpl in *.
  rewrite Hcomp. destruct compressed.
  - destruct (Hpacked eq_refl) as (c & Hc & Hout). rewrite Hc.
    rewrite Hval, (Hcontract c finalValue Hc Hout). reflexivity.
  - rewrite Hval, Hplain by reflexivity. reflexivity.
Qed.

End ShardEdges.

(** X5.  A shard whose limit is 0 (or negative) is unbounded: [Set]
    evicts nothing, stores its entry and leaves every other entry alone,
    and along every history of a shard created with such a limit the
    eviction counter stays 0. *)
Theorem no_limit_never_evicts (s : Shard.CacheShard) (key : string) (value : bytes)
    (ttl : Z) (now : Time) :
  Shard.maxSize s <= 0 ->
  (Shard.Set_ s key value ttl now).2 = Shard.Set_store s key value ttl now /\
  is_Some (Shard.data (Shard.Set_ s key value ttl now).2 !! key) /\
  (forall k, k ≠ key ->
     Shard.data (Shard.Set_ s key value ttl now).2 !! k = Shard.data s !! k) /\
  Shard.Evictions (Shard.stats (Shard.Set_ s key value ttl now).2)
    = Shard.Evictions (Shard.stats s) /\
  (forall p c cs h,
     Shard.Evictions (Shard.stats
       (Shard.run h (Shard.NewCacheShard (Shard.maxSize s) p c cs))) = 0).
Proof.
  intros Hm.
  assert (Heq : (Shard.Set_ s key value ttl now).2 = Shard.Set_store s key value ttl now).
  { unfold Shard.Set_. simpl. apply evictIfNeeded_within, overBudget_no_limit.
    by destruct (Set_store_config s key value ttl now) as (-> & _). }
  rewrite Heq.
  destruct (Set_store_data s key value ttl now) as (it & Hd & _).
  split; [reflexivity|]. split; [rewrite Hd, lookup_insert_eq; by eexists|].
  split; [intros k Hne; rewrite Hd; by apply lookup_insert_ne|].
  split; [by destruct (Set_store_config s key value ttl now) as (_ & _ & _ & _ & ->)|].
  intros p c cs h.
  apply (run_invariant
           (fun s' => Shard.maxSize s' <= 0 /\ Shard.Evictions (Shard.stats s') = 0)
           (fun _ => True)); [| |by apply Forall_true].
  - intros s1 e [Hm1 He1] _. destruct (step_config s1 e) as (-> & _).
    split; [exact Hm1|]. destruct (step_no_limit_evictions s1 e Hm1); congruence.
  - rewrite NewCacheShard_maxSize. split; [exact Hm|].
    unfold Shard.NewCacheShard. by repeat case_decide.
Qed.

Lemma no_limit_never_evicts_witness :
  let s := Shard.run [(Shard.OpSet "a"%string [x61; x61; x61] 0, 1)]
                     (Shard.NewCacheShard 0 EvictionLRU None 0) in
  Shard.maxSize s <= 0 /\
  is_Some (Shard.data (Shard.Set_ s "b"%string [x62; x62] 0 2).2 !! "b"%string) /\
  Shard.currentSize (Shard.Set_ s "b"%string [x62; x62] 0 2).2 = 5.
Proof.
  intros s.
  assert (Hm : Shard.maxSize s <= 0) by (vm_compute; discriminate).
  split; [exact Hm|].
  destruct (no_limit_never_evicts s "b"%string [x62; x62] 0 2 Hm) as (_ & Hsome & _).
  split; [exact Hsome | vm_compute; reflexivity].
Defined.

(** X6.  A value whose stored form is larger than the shard's limit is
    accepted and dropped: [Set] returns no error, and the entry is not
    stored when it returns (the budget loop has evicted it), so a [Get]
    of the key fails with KeyNotFound. *)
Theorem oversized_value_is_dropped (s : Shard.CacheShard) (key : string) (value : bytes)
    (ttl : Z) (now : Time) :
  shard_inv s -> key ≠ EmptyString ->
  0 < Shard.maxSize s ->
  Shard.maxSize s < (Shard.compressDecision s value).1.2 ->
  (Shard.Set_ s key value ttl now).1 = None /\
  Shard.data (Shard.Set_ s key value ttl now).2 !! key = None /\
  (forall now', (Shard.Get (Shard.Set_ s key value ttl now).2 key now').1.1
                = Shard.Returned [] (Some ErrKeyNotFound)).
Proof.
  intros Hinv Hkey Hpos Hbig. split; [reflexivity|].
  assert (Hgone : Shard.data (Shard.Set_ s key value ttl now).2 !! key = None).
  { destruct (Shard.data (Shard.Set_ s key value ttl now).2 !! key) as [item|] eqn:Hitem;
      [exfalso|reflexivity].
    destruct (shard_inv_Set s key value ttl now Hinv Hkey) as [Hinv' Hb].
    destruct (Set_entry _ _ _ _ _ _ Hitem) as (_ & Hsz & _).
    pose proof (sumSizes_member _ _ _ (shard_inv_sizes _ Hinv') Hitem) as Hle.
    destruct Hinv' as ([Hacc _] & _).
    destruct (Set_config s key value ttl now) as (Hmax & _).
    unfold within_budget in Hb. rewrite Hmax in Hb. specialize (Hb Hpos). lia. }
  split; [exact Hgone|]. intros now'. by rewrite Get_absent.
Qed.

Lemma oversized_value_is_dropped_witness :
  let s := Shard.run [(Shard.OpSet "a"%string [x61] 0, 1)]
                     (Shard.NewCacheShard 4 EvictionFIFO None 0) in
  let value := [x62; x62; x62; x62; x62; x62] in
  shard_inv s /\ 0 < Shard.maxSize s /\
  Shard.maxSize s < (Shard.compressDecision s value).1.2 /\
  Shard.data (Shard.Set_ s "b"%string value 0 2).2 !! "b"%string = None /\
  Shard.data (Shard.Set_ s "b"%string value 0 2).2 = ∅.
Proof.
  intros s value.
  assert (Hinv : shard_inv s).
  { apply (bounded_run [(Shard.OpSet "a"%string [x61] 0, 1)] 4 EvictionFIFO None 0).
    repeat constructor. discriminate. }
  assert (Hpos : 0 < Shard.maxSize s) by (vm_compute; reflexivity).
  assert (Hbig : Shard.maxSize s < (Shard.compressDecision s value).1.2)
    by (vm_compute; reflexivity).
  split; [exact Hinv|]. split; [exact Hpos|]. split; [exact Hbig|].
  destruct (oversized_value_is_dropped s "b"%string value 0 2 Hinv ltac:(discriminate)
              Hpos Hbig) as (_ & Hgone & _).
  split; [exact Hgone | vm_compute; reflexivity].
Defined.

(** X7.  The empty key is outside the budget: [evictOne] treats the empty
    string that [RemoveLeast] returns as "nothing to evict", so an entry
    stored under the empty key survives every eviction; a [Set] with the
    empty key always leaves its entry stored, and when that entry is
    larger than the limit the shard stays over its limit. *)
Theorem empty_key_escapes_the_budget (s : Shard.CacheShard) (value : bytes)
    (ttl : Z) (now : Time) :
  let s' := (Shard.Set_ s EmptyString value ttl now).2 in
  (forall t b s1, Shard.evictOne t s = (b, s1) ->
     Shard.data s1 !! EmptyString = Shard.data s !! EmptyString) /\
  (forall n t, Shard.data (Shard.evictIfNeeded n t s) !! EmptyString
               = Shard.data s !! EmptyString) /\
  (exists item, Shard.data s' !! EmptyString = Some item /\
                Size item = (Shard.compressDecision s value).1.2) /\
  (accounting s -> sizes_nonneg (Shard.data s) ->
   Shard.maxSize s < (Shard.compressDecision s value).1.2 ->
   Shard.maxSize s' < Shard.currentSize s').
Proof.
  intros s'.
  assert (Hstored : exists item, Shard.data s' !! EmptyString = Some item /\
                                 Size item = (Shard.compressDecision s value).1.2).
  { subst s'. unfold Shard.Set_. simpl. rewrite evictIfNeeded_keeps_empty_key.
    destruct (Set_store_data s EmptyString value ttl now) as (it & Hd & _ & Hsz & _).
    exists it. rewrite Hd, lookup_insert_eq. by split. }
  split; [intros t b s1; apply evictOne_keeps_empty_key|].
  split; [intros n t; apply evictIfNeeded_keeps_empty_key|].
  split; [exact Hstored|].
  intros Hacc Hnn Hbig. destruct Hstored as (item & Hitem & Hsz).
  pose proof (accounting_Set s EmptyString value ttl now Hacc) as [Hacc' _].
  fold s' in Hacc'.
  assert (Hnn' : sizes_nonneg (Shard.data s')).
  { intros k it Hk. subst s'. unfold Shard.Set_ in Hk. simpl in Hk.
    apply evictIfNeeded_lookup in Hk.
    destruct (Set_store_data s EmptyString value ttl now) as (it0 & Hd & _ & Hsz0 & _).
    rewrite Hd in Hk. apply lookup_insert_Some in Hk as [[_ <-]|[_ Hk]]; [|by eapply Hnn].
    rewrite Hsz0.
    destruct (Shard.compressDecision s value) as [[fv sz] cp] eqn:Hw.
    apply compressDecision_sound in Hw as (-> & _). simpl. apply len_nonneg. }
  pose proof (sumSizes_member _ _ _ Hnn' Hitem) as Hle.
  subst s'. destruct (Set_config s EmptyString value ttl now) as (-> & _). lia.
Qed.

(** X8.  What [Set] wrote is read back until it expires: after
    [Set key value ttl], and whatever operations follow that do not [Set]
    the key again, a [Get] of the key returns [value] and no error as long
    as the entry is still stored and [ttl <= 0] (the entry never expires:
    a negative [ttl] is treated like 0) or the instant of the [Get] is not
    after [now + ttl] (the instant [now + ttl] itself included). *)
Theorem value_is_read_back_until_expiry (s : Shard.CacheShard) (key : string)
    (value : bytes) (ttl : Z) (now : Time) (h : list (Shard.Op * Time)) (now' : Time) :
  compressor_sound_at s value ->
  Forall (fun e => ~ sets_key key e) h ->
  is_Some (Shard.data (Shard.run h (Shard.Set_ s key value ttl now).2) !! key) ->
  ttl <= 0 \/ now' <= now + ttl ->
  (Shard.Get (Shard.run h (Shard.Set_ s key value ttl now).2) key now').1.1
    = Shard.Returned value None /\
  Shard.Hits (Shard.stats
      (Shard.Get (Shard.run h (Shard.Set_ s key value ttl now).2) key now').1.2)
    = Shard.Hits (Shard.stats (Shard.run h (Shard.Set_ s key value ttl now).2)) + 1.
Proof.
  intros Hcontract Hall Hsome Httl.
  split; [by apply Get_after_Set|].
  destruct Hsome as [item Hitem].
  destruct (entry_after_Set _ _ _ _ _ _ _ Hall Hitem) as (_ & _ & Hexp).
  assert (Hlive : live_at now' item).
  { unfold live_at. rewrite Hexp. destruct (0 <? ttl) eqn:Hpos.
    - apply Z.ltb_lt in Hpos. right. lia.
    - by left. }
  destruct (Get_live_shard _ key item now' Hitem Hlive) as [-> _]. reflexivity.
Qed.

Lemma value_is_read_back_until_expiry_witness :
  let s := Shard.NewCacheShard 100 EvictionLFU (Some ToyRLE.compressor) 3 in
  let value := [x61; x61; x61; x61; x61] in
  let h := [(Shard.OpGet "k"%string, 20); (Shard.OpDelete "j"%string, 30)] in
  compressor_sound_at s value /\
  (Shard.Get (Shard.run h (Shard.Set_ s "k"%string value 50 10).2) "k"%string 60).1.1
    = Shard.Returned value None /\
  (Shard.Get (Shard.run h (Shard.Set_ s "k"%string value (-5) 10).2) "k"%string 1000).1.1
    = Shard.Returned value None.
Proof.
  intros s value h.
  assert (Hc : compressor_sound_at s value).
  { intros c out [= <-]. vm_compute. intros [= <-]. reflexivity. }
  assert (Hall : Forall (fun e => ~ sets_key "k"%string e) h)
    by (repeat constructor; simpl; tauto).
  split; [exact Hc|]. split.
  - apply (value_is_read_back_until_expiry s "k"%string value 50 10 h 60 Hc Hall);
      [vm_compute; by eexists | right; lia].
  - apply (value_is_read_back_until_expiry s "k"%string value (-5) 10 h 1000 Hc Hall);
      [vm_compute; by eexists | left; lia].
Defined.

(** X9.  In every state a shard reaches from its creation, each stored
    entry carries the key it is stored under and the length of its
    payload as its size, has a non-negative access count, and is marked
    compressed only if the shard has a compressor; hence [Get] never
    panics. *)
Theorem entries_are_well_formed (m : Z) (p : string) (c : option Compressor) (cs : Z)
    (h : list (Shard.Op * Time)) :
  let s := Shard.run h (Shard.NewCacheShard m p c cs) in
  (forall k item, Shard.data s !! k = Some item ->
     Key item = k /\ Size item = len (Value item) /\ 0 <= Size item /\
     0 <= AccessCount item /\
     (Compressed item = true -> is_Some (Shard.compressor s))) /\
  (forall key now, (Shard.Get s key now).1.1 ≠ Shard.Panicked).
Proof.
  intros s.
  assert (Hwf : entries_wf s).
  { apply (run_invariant entries_wf (fun _ => True));
      [|apply entries_wf_new|by apply Forall_true].
    intros s1 e Hs1 _. by apply entries_wf_step. }
  split; [|intros key now; by apply Get_no_panic].
  intros k item Hk. destruct (Hwf _ _ Hk) as (Hkey & Hsz & Hc & Hcomp).
  repeat split; try assumption. rewrite Hsz. apply len_nonneg.
Qed.

(** * The eviction policies inside a shard *)

Lemma kind_Add l k item now : kind (Add k item now l) = kind l.
Proof. by destruct l. Qed.

Lemma kind_Remove l k : kind (Remove k l) = kind l.
Proof. by destruct l. Qed.

Lemma kind_Update l k item now : kind (Update k item now l) = kind l.
Proof. by destruct l. Qed.

Lemma kind_RemoveLeast l now : kind (RemoveLeast now l).2 = kind l.
Proof. by destruct l. Qed.

Lemma kind_Clear (l : AnyList) : kind (Clear l) = kind l.
Proof. by destruct l. Qed.

Section ShardPolicies.

Import Shard.

Lemma evictOne_list now s :
  evictionList (evictOne now s).2 = (RemoveLeast now (evictionList s)).2.
Proof.
  destruct (evictOne now s) as [[] s'] eqn:Hev.
  - by apply evictOne_true in Hev as (k & item & _ & _ & _ & ->).
  - by apply evictOne_false in Hev as ->.
Qed.

Lemma Set_store_list s key value ttl now :
  exists item,
    evictionList (Set_store s key value ttl now)
    = Add key item now
        (match data s !! key with
         | Some _ => Remove key (evictionList s)
         | None => evictionList s
         end).
Proof.
  unfold Set_store.
  destruct (compressDecision s value) as [[finalValue size] compressed].
  destruct (data s !! key) as [old|]; by eexists.
Qed.

Lemma kind_step s e : kind (evictionList (step s e)) = kind (evictionList s).
Proof.
  unfold step. destruct e.1 as [key value ttl|key|key|].
  - unfold Set_. cbn [snd].
    apply (evictIfNeeded_invariant
             (fun s' => kind (evictionList s') = kind (evictionList s))).
    + intros s1 b s2 Hs1 _ Hev.
      pose proof (evictOne_list e.2 s1) as Hl. rewrite Hev in Hl. cbn [snd] in Hl.
      by rewrite Hl, kind_RemoveLeast.
    + destruct (Set_store_list s key value ttl e.2) as [item ->].
      rewrite kind_Add. destruct (data s !! key); [apply kind_Remove|reflexivity].
  - destruct (data s !! key) as [item|] eqn:Hk.
    + destruct (live_at_dec e.2 item) as [Hlive|Hdead].
      * destruct (Get_live_shard s key item e.2 Hk Hlive) as [-> _].
        cbn [evictionList recordHit with_stats with_evictionList]. apply kind_Update.
      * destruct (Get_miss_shard s key e.2) as [_ ->]; [|reflexivity].
        intros it. rewrite Hk. by intros [= <-].
    + destruct (Get_miss_shard s key e.2) as [_ ->]; [|reflexivity].
      intros it. rewrite Hk. discriminate.
  - unfold Delete. destruct (data s !! key); [|reflexivity].
    cbn [evictionList with_evictionList]. apply kind_Remove.
  - unfold Clear. cbn [evictionList with_evictionList with_stats]. apply kind_Clear.
Qed.

(** [evictOne] on a shard whose list hands out the stored key [k]. *)
Lemma evictOne_evicts now s k item :
  (RemoveLeast now (evictionList s)).1 = k -> k ≠ EmptyString ->
  data s !! k = Some item ->
  (evictOne now s).1 = true /\
  data (evictOne now s).2 = delete k (data s) /\
  evictionList (evictOne now s).2 = (RemoveLeast now (evictionList s)).2.
Proof.
  intros Hk Hne Hitem.
  assert (Htrue : (evictOne now s).1 = true).
  { apply (evictOne_succeeds now s item); by rewrite Hk. }
  split; [exact Htrue|]. split; [|apply evictOne_list].
  destruct (evictOne now s) as [b s'] eqn:Hev. simpl in Htrue. subst b.
  apply evictOne_true in Hev as (k' & item' & _ & Hk' & _ & ->). simpl. congruence.
Qed.

(** *** LRU *)

Lemma lru_Set_store_list s lru key value ttl now :
  shard_inv s -> evictionList s = OfLRU lru ->
  evictionList (Set_store s key value ttl now)
    = OfLRU {| LRU.list_ := key :: unlink key (LRU.list_ lru) |}.
Proof.
  intros (_ & _ & Hlist) Hl. rewrite Hl in Hlist. simpl in Hlist.
  destruct (Set_store_list s key value ttl now) as [item ->]. rewrite Hl.
  destruct (data s !! key) as [old|] eqn:Hold; simpl.
  - pose proof (index_present _ _ _ _ Hlist Hold) as Hin.
    unfold LRU.Remove. rewrite bool_decide_eq_true_2 by exact Hin.
    unfold LRU.Add. simpl.
    rewrite bool_decide_eq_false_2 by (apply unlink_not_elem_of, Hlist).
    reflexivity.
  - pose proof (index_absent _ _ _ Hlist Hold) as Hout.
    unfold LRU.Add. rewrite bool_decide_eq_false_2 by exact Hout.
    by rewrite unlink_absent.
Qed.

Lemma lru_Get_list s lru key item now :
  shard_inv s -> evictionList s = OfLRU lru ->
  data s !! key = Some item -> live_at now item ->
  evictionList (Get s key now).1.2
    = OfLRU {| LRU.list_ := key :: unlink key (LRU.list_ lru) |}.
Proof.
  intros (_ & _ & Hlist) Hl Hk Hlive. rewrite Hl in Hlist. simpl in Hlist.
  destruct (Get_live_shard s key item now Hk Hlive) as [-> _].
  cbn [evictionList recordHit with_stats with_evictionList with_data].
  rewrite Hl. simpl. unfold LRU.Update.
  by rewrite bool_decide_eq_true_2 by (by eapply index_present).
Qed.

Lemma last_behind (key : string) rest :
  rest ≠ [] ->
  exists k, last rest = Some k /\ last (key :: rest) = Some k /\
            removelast (key :: rest) = key :: removelast rest.
Proof.
  intros Hne. destruct rest as [|r rest]; [done|].
  destruct (last (r :: rest)) as [k|] eqn:Hlast.
  - exists k. split; [reflexivity|]. split; [|reflexivity].
    by rewrite last_cons_cons.
  - by apply last_None in Hlast.
Qed.

(** [evictOne] on an LRU shard takes the key at the back of the list. *)
Lemma lru_evictOne_back s lru key rest t :
  shard_inv s -> evictionList s = OfLRU lru ->
  LRU.list_ lru = key :: rest -> rest ≠ [] ->
  exists k, last rest = Some k /\ k ≠ key /\
    (evictOne t s).1 = true /\
    data (evictOne t s).2 = delete k (data s) /\
    evictionList (evictOne t s).2 = OfLRU {| LRU.list_ := key :: removelast rest |}.
Proof.
  intros (_ & Hkeys & Hlist) Hl Hrest Hne. rewrite Hl in Hlist. simpl in Hlist.
  destruct (last_behind key rest Hne) as (k & Hlast & Hlast' & Hremove).
  exists k. split; [exact Hlast|].
  assert (Hin : k ∈ rest).
  { apply last_Some in Hlast as [l' ->]. apply elem_of_app. right. by left. }
  assert (Hkk : k ≠ key).
  { destruct Hlist as [Hnd _]. rewrite Hrest in Hnd.
    apply NoDup_cons in Hnd as [Hout _]. intros ->. done. }
  split; [exact Hkk|].
  assert (Hleast : RemoveLeast t (evictionList s)
                   = (k, OfLRU {| LRU.list_ := key :: removelast rest |})).
  { rewrite Hl. simpl. unfold LRU.RemoveLeast. rewrite Hrest, Hlast'.
    cbv zeta. cbn [fst snd]. by rewrite Hremove. }
  destruct Hlist as [_ Hdom].
  destruct (proj1 (Hdom k)) as [item Hitem]; [rewrite Hrest; by right|].
  destruct (Hkeys _ _ Hitem) as (Hk0 & _).
  destruct (evictOne_evicts t s k item) as (Htrue & Hdata & Hlist');
    [by rewrite Hleast|exact Hk0|exact Hitem|].
  split; [exact Htrue|]. split; [exact Hdata|]. by rewrite Hlist', Hleast.
Qed.

(** *** FIFO *)

(** [evictOne] on a FIFO shard takes the key at the head of the queue. *)
Lemma fifo_evictOne_head s fifo k rest t :
  shard_inv s -> evictionList s = OfFIFO fifo ->
  FIFO.list_ fifo = k :: rest ->
  (evictOne t s).1 = true /\
  data (evictOne t s).2 = delete k (data s) /\
  evictionList (evictOne t s).2 = OfFIFO {| FIFO.list_ := rest |}.
Proof.
  intros (_ & Hkeys & Hlist) Hl Hrest. rewrite Hl in Hlist. simpl in Hlist.
  assert (Hleast : RemoveLeast t (evictionList s)
                   = (k, OfFIFO {| FIFO.list_ := rest |})).
  { rewrite Hl. simpl. unfold FIFO.RemoveLeast. by rewrite Hrest. }
  destruct Hlist as [_ Hdom].
  destruct (proj1 (Hdom k)) as [item Hitem]; [rewrite Hrest; by left|].
  destruct (Hkeys _ _ Hitem) as (Hk0 & _).
  destruct (evictOne_evicts t s k item) as (Htrue & Hdata & Hlist');
    [by rewrite Hleast|exact Hk0|exact Hitem|].
  split; [exact Htrue|]. split; [exact Hdata|]. by rewrite Hlist', Hleast.
Qed.

Lemma fifo_Get_list s fifo key now :
  evictionList s = OfFIFO fifo -> evictionList (Get s key now).1.2 = OfFIFO fifo.
Proof.
  intros Hl. destruct (data s !! key) as [item|] eqn:Hk.
  - destruct (live_at_dec now item) as [Hlive|Hdead].
    + destruct (Get_live_shard s key item now Hk Hlive) as [-> _].
      cbn [evictionList recordHit with_stats with_evictionList with_data].
      by rewrite Hl.
    + destruct (Get_miss_shard s key now) as [_ ->]; [|exact Hl].
      intros it. rewrite Hk. by intros [= <-].
  - destruct (Get_miss_shard s key now) as [_ ->]; [|exact Hl].
    intros it. rewrite Hk. discriminate.
Qed.

End ShardPolicies.

(** X10.  The policy name selects the eviction list for the life of the
    shard: "LFU" gives an [LFUList], "FIFO" a [FIFOList], and any other
    name, "LRU" or not, an [LRUList]; the shard's [evictionPolicy] is
    then the name of the list it has, so an unknown name is recorded as
    "LRU".  No operation changes either. *)
Theorem policy_selects_the_list (m : Z) (p : string) (c : option Compressor) (cs : Z)
    (h : list (Shard.Op * Time)) :
  let s := Shard.run h (Shard.NewCacheShard m p c cs) in
  Shard.evictionPolicy s = kind (Shard.evictionList s) /\
  kind (Shard.evictionList s)
    = (if decide (p = EvictionLFU) then EvictionLFU
       else if decide (p = EvictionFIFO) then EvictionFIFO
       else EvictionLRU).
Proof.
  intros s.
  assert (Hnew : Shard.evictionPolicy (Shard.NewCacheShard m p c cs)
                   = kind (Shard.evictionList (Shard.NewCacheShard m p c cs)) /\
                 kind (Shard.evictionList (Shard.NewCacheShard m p c cs))
                   = (if decide (p = EvictionLFU) then EvictionLFU
                      else if decide (p = EvictionFIFO) then EvictionFIFO
                      else EvictionLRU)).
  { unfold Shard.NewCacheShard. repeat case_decide; subst; simpl; try done. }
  destruct Hnew as [Hpol Hkind].
  assert (Hrun : kind (Shard.evictionList s)
                 = kind (Shard.evictionList (Shard.NewCacheShard m p c cs))).
  { apply (run_invariant
             (fun s' => kind (Shard.evictionList s')
                        = kind (Shard.evictionList (Shard.NewCacheShard m p c cs)))
             (fun _ => True)); [|reflexivity|by apply Forall_true].
    intros s1 e Hs1 _. by rewrite kind_step. }
  split; [|by rewrite Hrun].
  subst s. destruct (run_config h (Shard.NewCacheShard m p c cs)) as (_ & -> & _).
  by rewrite Hrun.
Qed.

(** X11.  The eviction list follows the map.  In every state a shard
    reaches through operations with non-empty keys, a key has a node in
    the list exactly when it is stored; in an LFU shard the node's
    frequency is the entry's access count (1 for a count of 0), [minFreq]
    is the least frequency of a node; and [evictOne] succeeds exactly when
    an entry is stored. *)
Theorem index_tracks_map (m : Z) (p : string) (c : option Compressor) (cs : Z)
    (h : list (Shard.Op * Time)) :
  Forall Shard.stores_nonempty_key h ->
  let s := Shard.run h (Shard.NewCacheShard m p c cs) in
  (forall k, indexed (Shard.evictionList s) k <-> is_Some (Shard.data s !! k)) /\
  (forall lfu, Shard.evictionList s = OfLFU lfu ->
     (forall k n item, LFU.nodes lfu !! k = Some n -> Shard.data s !! k = Some item ->
        LFU.Frequency n = Z.max 1 (AccessCount item)) /\
     (forall k n, LFU.nodes lfu !! k = Some n -> LFU.minFreq lfu <= LFU.Frequency n) /\
     (Shard.data s ≠ ∅ ->
      exists k n, LFU.nodes lfu !! k = Some n /\ LFU.Frequency n = LFU.minFreq lfu)) /\
  (forall now, (Shard.evictOne now s).1 = true <-> Shard.data s ≠ ∅).
Proof.
  intros Hall s.
  destruct (bounded_run h m p c cs Hall) as [Hinv _]. fold s in Hinv.
  pose proof Hinv as (_ & _ & Hlist).
  split; [|split].
  - intros k. destruct (Shard.evictionList s) as [lru|lfu|fifo]; simpl in *.
    + apply Hlist.
    + apply Hlist.
    + apply Hlist.
  - intros lfu Hl. rewrite Hl in Hlist. simpl in Hlist.
    destruct Hlist as ((Hb & Hmin) & Hdom & Hfreq).
    split; [exact Hfreq|]. split; [apply Hmin|].
    intros Hne. apply map_choose in Hne as (k & item & Hk).
    destruct (proj2 (Hdom k) (mk_is_Some _ _ Hk)) as [n Hn].
    destruct Hmin as [_ Hexact]. specialize (Hexact _ _ Hn).
    unfold LFU.isEmpty in Hexact.
    destruct (LFU.frequencies lfu !! LFU.minFreq lfu) as [b|] eqn:Hbucket; [|done].
    destruct b as [|k' b]; [done|].
    destruct Hb as (_ & Hback & _).
    destruct (Hback _ _ k' Hbucket ltac:(by left)) as (n' & Hn' & Hf).
    by exists k', n'.
  - intros now. split.
    + intros Htrue. destruct (Shard.evictOne now s) as [b s'] eqn:Hev.
      simpl in Htrue. subst b.
      apply evictOne_true in Hev as (k & item & _ & _ & Hk & _).
      intros Hempty. rewrite Hempty, lookup_empty in Hk. discriminate.
    + intros Hne. destruct (Shard.evictOne now s) as [b s'] eqn:Hev.
      destruct b; [reflexivity|].
      destruct (shard_inv_evictOne _ _ _ _ Hinv Hev) as [_ Hempty].
      by specialize (Hempty eq_refl).
Qed.

Lemma index_tracks_map_witness :
  let h := [(Shard.OpSet "a"%string [x61] 0, 1); (Shard.OpSet "b"%string [x62] 0, 2);
            (Shard.OpGet "a"%string, 3); (Shard.OpDelete "c"%string, 4)] in
  let s := Shard.run h (Shard.NewCacheShard 10 EvictionLFU None 0) in
  Forall Shard.stores_nonempty_key h /\
  (indexed (Shard.evictionList s) "a"%string <-> is_Some (Shard.data s !! "a"%string)) /\
  is_Some (Shard.data s !! "a"%string).
Proof.
  intros h s.
  assert (Hall : Forall Shard.stores_nonempty_key h)
    by (repeat constructor; discriminate).
  split; [exact Hall|].
  pose proof (index_tracks_map 10 EvictionLFU None 0 h Hall) as H.
  cbv zeta in H. destruct H as (Hidx & _).
  split; [exact (Hidx "a"%string) | vm_compute; by eexists].
Defined.

(** X12.  LRU order.  In an LRU shard a hit of [Get] and the write of
    [Set] both put the key at the front of the list, and [evictOne]
    takes the key at the back: with the key at the front and another key
    behind it, the next eviction removes the last key of the list, which
    is not the key just used. *)
Theorem lru_recent_key_is_evicted_last (s : Shard.CacheShard) (lru : LRU.LRUList)
    (key : string) (now : Time) :
  shard_inv s -> Shard.evictionList s = OfLRU lru ->
  (forall item, Shard.data s !! key = Some item -> live_at now item ->
     Shard.evictionList (Shard.Get s key now).1.2
       = OfLRU {| LRU.list_ := key :: unlink key (LRU.list_ lru) |}) /\
  (forall value ttl,
     Shard.evictionList (Shard.Set_store s key value ttl now)
       = OfLRU {| LRU.list_ := key :: unlink key (LRU.list_ lru) |}) /\
  (forall rest t, LRU.list_ lru = key :: rest -> rest ≠ [] ->
     exists k, last rest = Some k /\ k ≠ key /\
       (Shard.evictOne t s).1 = true /\
       Shard.data (Shard.evictOne t s).2 = delete k (Shard.data s) /\
       Shard.evictionList (Shard.evictOne t s).2
         = OfLRU {| LRU.list_ := key :: removelast rest |}).
Proof.
  intros Hinv Hl.
  split; [intros item Hk Hlive; by eapply lru_Get_list|].
  split; [intros value ttl; by apply lru_Set_store_list|].
  intros rest t Hrest Hne. by eapply lru_evictOne_back.
Qed.

Lemma lru_recent_key_is_evicted_last_witness :
  let s := Shard.run [(Shard.OpSet "a"%string [x61] 0, 1);
                      (Shard.OpSet "b"%string [x62] 0, 2);
                      (Shard.OpSet "c"%string [x63] 0, 3)]
                     (Shard.NewCacheShard 10 EvictionLRU None 0) in
  let lru := {| LRU.list_ := ["c"; "b"; "a"]%string |} in
  shard_inv s /\ Shard.evictionList s = OfLRU lru /\
  Shard.evictionList (Shard.Set_store s "a"%string [x64] 0 4)
    = OfLRU {| LRU.list_ := ["a"; "c"; "b"]%string |} /\
  Shard.data (Shard.evictOne 5 s).2 = delete "a"%string (Shard.data s).
Proof.
  intros s lru.
  assert (Hinv : shard_inv s).
  { apply (bounded_run _ 10 EvictionLRU None 0). repeat constructor; discriminate. }
  assert (Hl : Shard.evictionList s = OfLRU lru) by (vm_compute; reflexivity).
  split; [exact Hinv|]. split; [exact Hl|].
  pose proof (lru_recent_key_is_evicted_last s lru "a"%string 4 Hinv Hl) as (_ & Hset & _).
  pose proof (lru_recent_key_is_evicted_last s lru "c"%string 5 Hinv Hl) as (_ & _ & Hev).
  split; [exact (Hset [x64] 0)|].
  destruct (Hev ["b"; "a"]%string 5 eq_refl ltac:(discriminate))
    as (k & Hlast & _ & _ & Hdata & _).
  injection Hlast as <-. exact Hdata.
Defined.

(** X13.  FIFO order.  In a FIFO shard no [Get] changes the queue, the
    write of a [Set] with a key that is not stored appends the key at the
    back, and [evictOne] removes the key at the head of the queue, the
    one that entered first. *)
Theorem fifo_evicts_in_insertion_order (s : Shard.CacheShard) (fifo : FIFO.FIFOList) :
  shard_inv s -> Shard.evictionList s = OfFIFO fifo ->
  (forall h, Forall is_get h -> Shard.evictionList (Shard.run h s) = OfFIFO fifo) /\
  (forall key value ttl now, Shard.data s !! key = None ->
     Shard.evictionList (Shard.Set_store s key value ttl now)
       = OfFIFO {| FIFO.list_ := FIFO.list_ fifo ++ [key] |}) /\
  (forall k rest t, FIFO.list_ fifo = k :: rest ->
     (Shard.evictOne t s).1 = true /\
     Shard.data (Shard.evictOne t s).2 = delete k (Shard.data s) /\
     Shard.evictionList (Shard.evictOne t s).2 = OfFIFO {| FIFO.list_ := rest |}).
Proof.
  intros Hinv Hl. pose proof Hinv as (_ & Hkeys & Hlist).
  rewrite Hl in Hlist. simpl in Hlist.
  split; [|split].
  - intros h Hall.
    apply (run_invariant (fun s' => Shard.evictionList s' = OfFIFO fifo) is_get);
      [|exact Hl|exact Hall].
    intros s1 e Hs1 Hget. unfold is_get in Hget. unfold Shard.step.
    destruct e.1 as [? ? ?|key| |]; try done. by apply fifo_Get_list.
  - intros key value ttl now Hnone.
    destruct (Set_store_list s key value ttl now) as [item ->].
    rewrite Hnone, Hl. simpl. unfold FIFO.Add.
    by rewrite bool_decide_eq_false_2 by (by eapply index_absent).
  - intros k rest t Hrest. by eapply fifo_evictOne_head.
Qed.

Lemma fifo_evicts_in_insertion_order_witness :
  let s := Shard.run [(Shard.OpSet "a"%string [x61] 0, 1);
                      (Shard.OpSet "b"%string [x62] 0, 2)]
                     (Shard.NewCacheShard 10 EvictionFIFO None 0) in
  let fifo := {| FIFO.list_ := ["a"; "b"]%string |} in
  shard_inv s /\ Shard.evictionList s = OfFIFO fifo /\
  Shard.evictionList (Shard.run [(Shard.OpGet "a"%string, 3); (Shard.OpGet "a"%string, 4)] s)
    = OfFIFO fifo /\
  Shard.data (Shard.evictOne 5 s).2 = delete "a"%string (Shard.data s).
Proof.
  intros s fifo.
  assert (Hinv : shard_inv s).
  { apply (bounded_run _ 10 EvictionFIFO None 0). repeat constructor; discriminate. }
  assert (Hl : Shard.evictionList s = OfFIFO fifo) by (vm_compute; reflexivity).
  split; [exact Hinv|]. split; [exact Hl|].
  pose proof (fifo_evicts_in_insertion_order s fifo Hinv Hl) as (Hget & _ & Hev).
  split.
  - apply Hget. repeat constructor.
  - by destruct (Hev "a"%string ["b"%string] 5 eq_refl) as (_ & Hdata & _).
Defined.

(** * The cache and its shards *)

Section CacheDispatch.

Import Cache.

(** In a well-formed cache the shard of a key is the one at index
    [hash mod shardCount]. *)
Lemma getShard_index c key :
  cache_wf c ->
  exists shard,
    getShard c key = Some (shard_of (shardCount c) key, shard) /\
    shards c !! shard_of (shardCount c) key = Some shard /\
    Z.of_nat (shard_of (shardCount c) key) = Utils.fnv1a key mod shardCount c.
Proof.
  intros [Hpos Hlen]. unfold getShard, shardIndex, shard_of.
  replace (shardCount c =? 0) with false by (symmetry; apply Z.eqb_neq; lia).
  pose proof (fnv1a_range key) as Hh.
  pose proof (Z.rem_bound_pos (Utils.fnv1a key) (shardCount c)
                ltac:(lia) Hpos) as Hrem.
  replace (_ <? 0) with false by (symmetry; apply Z.ltb_ge; lia).
  destruct (shards c !! Z.to_nat _) as [shard|] eqn:Hl.
  - exists shard. split; [reflexivity|]. split; [reflexivity|].
    rewrite Z2Nat.id by lia. apply Z.rem_mod_nonneg; lia.
  - apply lookup_ge_None in Hl. lia.
Qed.

Lemma with_shard_wf i shard c : cache_wf c -> cache_wf (with_shard i shard c).
Proof. intros [Hpos Hlen]. split; [exact Hpos|]. simpl. by rewrite length_insert. Qed.

(** A keyed call is the call on the shard of the key. *)
Lemma cache_step_keyed c e key shard :
  cache_wf c -> op_key e = Some key ->
  shards c !! shard_of (shardCount c) key = Some shard ->
  cache_step c e
    = Some (with_shard (shard_of (shardCount c) key) (Shard.step shard (shard_op e)) c).
Proof.
  intros Hwf Hkey Hl.
  destruct (getShard_index c key Hwf) as (shard' & Hg & Hl' & _).
  rewrite Hl in Hl'. injection Hl' as <-.
  unfold cache_step, op_key, shard_op, Shard.step in *.
  destruct e.1 as [k value ttl|k|k|]; [| | |discriminate];
    injection Hkey as ->; cbn [fst snd].
  - unfold Set_. by rewrite Hg.
  - unfold Get. by rewrite Hg.
  - unfold Delete. by rewrite Hg.
Qed.

Lemma cache_step_Clear c e :
  op_key e = None -> cache_step c e = Some (Clear c) /\ shard_op e = (Shard.OpClear, e.2).
Proof.
  unfold cache_step, op_key, shard_op. by destruct e.1.
Qed.

Lemma cache_step_shards c e :
  cache_wf c ->
  exists c',
    cache_step c e = Some c' /\ cache_wf c' /\
    shardCount c' = shardCount c /\ maxSize c' = maxSize c /\
    evictionPolicy c' = evictionPolicy c /\
    forall i shard, shards c !! i = Some shard ->
      shards c' !! i
      = Some (if routed (shardCount c) i e then Shard.step shard (shard_op e)
              else shard).
Proof.
  intros Hwf. unfold routed. destruct (op_key e) as [key|] eqn:Hkey.
  - destruct (getShard_index c key Hwf) as (shard & _ & Hl & _).
    rewrite (cache_step_keyed c e key shard Hwf Hkey Hl).
    eexists. split; [reflexivity|]. split; [by apply with_shard_wf|].
    do 3 (split; [reflexivity|]).
    intros i sh Hi. simpl. case_bool_decide as Hroute.
    + subst i. rewrite Hl in Hi. injection Hi as <-.
      apply list_lookup_insert_eq. by eapply lookup_lt_Some.
    + by rewrite list_lookup_insert_ne.
  - destruct (cache_step_Clear c e Hkey) as [-> Hop].
    eexists. split; [reflexivity|]. split.
    { destruct Hwf as [Hpos Hlen]. split; [exact Hpos|]. simpl.
      by rewrite length_map. }
    do 3 (split; [reflexivity|]).
    intros i sh Hi. simpl. change (map Shard.Clear (shards c)) with (Shard.Clear <$> shards c).
    rewrite list_lookup_fmap, Hi. simpl. unfold Shard.step. by rewrite Hop.
Qed.

(** Every call returns, and each shard goes through the calls routed to
    it. *)
Lemma cache_run_shards h : forall c,
  cache_wf c ->
  exists c',
    cache_run h c = Some c' /\ cache_wf c' /\
    shardCount c' = shardCount c /\ maxSize c' = maxSize c /\
    evictionPolicy c' = evictionPolicy c /\
    forall i shard, shards c !! i = Some shard ->
      shards c' !! i = Some (Shard.run (project (shardCount c) i h) shard).
Proof.
  induction h as [|e h IH]; intros c Hwf.
  - exists c. simpl. by repeat split; try apply Hwf.
  - destruct (cache_step_shards c e Hwf) as (c1 & Hstep & Hwf1 & Hn & Hm & Hp & Hsh).
    destruct (IH c1 Hwf1) as (c' & Hrun & Hwf' & Hn' & Hm' & Hp' & Hsh').
    exists c'. simpl. rewrite Hstep. split; [exact Hrun|]. split; [exact Hwf'|].
    split; [congruence|]. split; [congruence|]. split; [congruence|].
    intros i shard Hi. rewrite (Hsh' i _ (Hsh i shard Hi)), Hn.
    unfold project. simpl. by destruct (routed (shardCount c) i e).
Qed.

Lemma project_Forall (P : CacheOp * Time -> Prop) (Q : Shard.Op * Time -> Prop) n i h :
  (forall e, P e -> Q (shard_op e)) -> Forall P h -> Forall Q (project n i h).
Proof.
  intros HPQ Hall. unfold project. induction Hall as [|e h He Hall IH]; simpl.
  - constructor.
  - destruct (routed n i e); simpl; [constructor; [by apply HPQ|exact IH] | exact IH].
Qed.

(** *** Sums over the shards *)

Lemma fold_left_add_acc {A : Type} (f : A -> Z) (l : list A) (acc : Z) :
  fold_left (fun acc a => acc + f a) l acc
  = acc + fold_left (fun acc a => acc + f a) l 0.
Proof.
  revert acc. induction l as [|a l IH]; intros acc; simpl; [lia|].
  rewrite (IH (acc + f a)), (IH (0 + f a)). lia.
Qed.

Lemma fold_left_add_ext {A : Type} (f g : A -> Z) (l : list A) (acc : Z) :
  (forall a, a ∈ l -> f a = g a) ->
  fold_left (fun acc a => acc + f a) l acc = fold_left (fun acc a => acc + g a) l acc.
Proof.
  revert acc. induction l as [|a l IH]; intros acc Hall; simpl; [reflexivity|].
  rewrite (Hall a) by (by left). apply IH. intros b Hb. apply Hall. by right.
Qed.

Lemma fold_left_add_le {A : Type} (f : A -> Z) (l : list A) (x acc : Z) :
  (forall a, a ∈ l -> f a <= x) ->
  fold_left (fun acc a => acc + f a) l acc <= acc + Z.of_nat (length l) * x.
Proof.
  revert acc. induction l as [|a l IH]; intros acc Hall; simpl length.
  - simpl. lia.
  - cbn [fold_left].
    pose proof (IH (acc + f a) ltac:(intros b Hb; apply Hall; by right)).
    pose proof (Hall a ltac:(by left)). lia.
Qed.

Lemma fold_left_add_insert {A : Type} (f : A -> Z) (l : list A) i a a' :
  l !! i = Some a ->
  fold_left (fun acc b => acc + f b) (<[i := a']> l) 0
  = fold_left (fun acc b => acc + f b) l 0 - f a + f a'.
Proof.
  revert i. induction l as [|b l IH]; intros i Hi; [done|].
  destruct i as [|i]; simpl in *.
  - injection Hi as ->.
    rewrite (fold_left_add_acc f l (0 + f a')), (fold_left_add_acc f l (0 + f a)). lia.
  - rewrite (fold_left_add_acc f (<[i:=a']> l) (0 + f b)),
      (fold_left_add_acc f l (0 + f b)), (IH i Hi). lia.
Qed.

(** *** A new cache *)

Lemma NewCache_returns numCPU opts :
  let options := fold_left (fun o opt => opt o) opts defaultOptions in
  exists c n,
    NewCache numCPU opts = Some c /\ Utils.getOptimalShardCount numCPU = Some n /\
    4 <= n <= 256 /\ shardCount c = n /\ maxSize c = opt_maxSize options /\
    evictionPolicy c
      = (if decide (opt_evictionPolicy options = EvictionLFU) then EvictionLFU
         else if decide (opt_evictionPolicy options = EvictionFIFO) then EvictionFIFO
         else EvictionLRU) /\
    shards c = replicate (Z.to_nat n)
                 (Shard.NewCacheShard (shardMaxSizeOf (opt_maxSize options) n)
                    (evictionPolicy c) (opt_compressor options)
                    (opt_compressSize options)).
Proof.
  intros options.
  destruct (getOptimalShardCount_returns numCPU) as (n & Hn & Hrange & _).
  unfold NewCache. fold options. rewrite Hn.
  eexists _, n. split; [reflexivity|]. split; [reflexivity|]. split; [exact Hrange|].
  split; [reflexivity|]. split; [reflexivity|]. split; [|reflexivity].
  cbn [evictionPolicy]. repeat case_decide; try done; congruence.
Qed.

Lemma NewCache_wf numCPU opts c : NewCache numCPU opts = Some c -> cache_wf c.
Proof.
  intros Hnew. destruct (NewCache_shape _ _ _ Hnew) as (Hn & Hlen & _).
  split; [lia | exact Hlen].
Qed.

End CacheDispatch.

Section CacheFacts.

Import Cache.

Lemma NewCacheShard_fields m p c cs :
  Shard.data (Shard.NewCacheShard m p c cs) = ∅ /\
  Shard.stats (Shard.NewCacheShard m p c cs)
    = {| Shard.Hits := 0; Shard.Misses := 0; Shard.Evictions := 0 |} /\
  Shard.currentSize (Shard.NewCacheShard m p c cs) = 0 /\
  Shard.currentCount (Shard.NewCacheShard m p c cs) = 0 /\
  Shard.compressor (Shard.NewCacheShard m p c cs) = c /\
  Shard.compressSize (Shard.NewCacheShard m p c cs) = cs.
Proof. unfold Shard.NewCacheShard. by repeat case_decide. Qed.

Lemma NewCacheShard_policy m p c cs :
  p = EvictionLRU \/ p = EvictionLFU \/ p = EvictionFIFO ->
  Shard.evictionPolicy (Shard.NewCacheShard m p c cs) = p /\
  kind (Shard.evictionList (Shard.NewCacheShard m p c cs)) = p.
Proof. intros [-> | [-> | ->]]; by split. Qed.

(** The statistics of the cache when one shard changes. *)
Lemma Stats_with_shard c i shard shard' :
  shards c !! i = Some shard ->
  Hits (Stats_ (with_shard i shard' c))
    = Hits (Stats_ c) - Shard.Hits (Shard.stats shard) + Shard.Hits (Shard.stats shard') /\
  Misses (Stats_ (with_shard i shard' c))
    = Misses (Stats_ c) - Shard.Misses (Shard.stats shard)
      + Shard.Misses (Shard.stats shard').
Proof.
  intros Hi. unfold Stats_. cbn [Hits Misses shards with_shard]. split.
  - apply (fold_left_add_insert
             (fun s => Shard.snap_Hits (Shard.getStats s)) _ _ _ _ Hi).
  - apply (fold_left_add_insert
             (fun s => Shard.snap_Misses (Shard.getStats s)) _ _ _ _ Hi).
Qed.

Lemma Get_empty_shard c key now :
  cache_wf c -> all_shards (fun s => Shard.data s = ∅) c ->
  exists c', Get c key now = Some (Shard.Returned [] (Some ErrKeyNotFound), c', None).
Proof.
  intros Hwf Hempty.
  destruct (getShard_index c key Hwf) as (shard & Hg & Hl & _).
  assert (Hd : Shard.data shard = ∅).
  { unfold all_shards in Hempty. rewrite Forall_forall in Hempty.
    apply Hempty. by eapply list_elem_of_lookup_2. }
  unfold Get. rewrite Hg. unfold Shard.Get. rewrite Hd, lookup_empty.
  by eexists.
Qed.

Lemma shardMaxSizeOf_pos m n : 0 < m -> 0 < n -> 0 < shardMaxSizeOf m n.
Proof.
  intros Hm Hn. unfold shardMaxSizeOf.
  rewrite Z.quot_div_nonneg by lia.
  pose proof (Z.div_pos m n ltac:(lia) Hn).
  destruct (m / n =? 0) eqn:Hq.
  - replace (0 <? m) with true by (symmetry; apply Z.ltb_lt; lia). simpl. lia.
  - apply Z.eqb_neq in Hq. simpl. lia.
Qed.

Lemma shardMaxSizeOf_sum m n : 0 < n -> n <= m -> n * shardMaxSizeOf m n <= m.
Proof.
  intros Hn Hle. unfold shardMaxSizeOf.
  rewrite Z.quot_div_nonneg by lia.
  assert (1 <= m / n) by (apply Z.div_le_lower_bound; lia).
  replace (m / n =? 0) with false by (symmetry; apply Z.eqb_neq; lia). simpl.
  apply Z.mul_div_le. lia.
Qed.

End CacheFacts.

(** X14.  The cache is its shards.  Every call on a well-formed cache
    returns (a key always has a shard: the one at index
    [fnv1a key mod shardCount]), and after any sequence of calls the
    shard at each index is the shard it was, taken through the calls
    routed to it: those whose key hashes to the index, and every [Clear].
    A call on a key therefore changes no shard but the key's. *)
Theorem cache_runs_shard_histories (c : Cache.Cache) (h : list (CacheOp * Time)) :
  cache_wf c ->
  exists c',
    cache_run h c = Some c' /\ cache_wf c' /\
    Cache.shardCount c' = Cache.shardCount c /\
    Cache.maxSize c' = Cache.maxSize c /\
    Cache.evictionPolicy c' = Cache.evictionPolicy c /\
    (forall i shard, Cache.shards c !! i = Some shard ->
       Cache.shards c' !! i = Some (Shard.run (project (Cache.shardCount c) i h) shard)) /\
    (forall key, exists shard,
       Cache.getShard c' key = Some (shard_of (Cache.shardCount c) key, shard) /\
       Z.of_nat (shard_of (Cache.shardCount c) key)
         = Utils.fnv1a key mod Cache.shardCount c).
Proof.
  intros Hwf.
  destruct (cache_run_shards h c Hwf) as (c' & Hrun & Hwf' & Hn & Hm & Hp & Hsh).
  exists c'. do 5 (split; [assumption|]). split; [exact Hsh|].
  intros key. destruct (getShard_index c' key Hwf') as (shard & Hg & _ & Hidx).
  rewrite Hn in Hg, Hidx. by exists shard.
Qed.

Lemma cache_runs_shard_histories_witness :
  let c := {| Cache.maxSize := 8; Cache.evictionPolicy := EvictionLRU;
              Cache.shardCount := 2;
              Cache.shards := replicate 2 (Shard.NewCacheShard 4 EvictionLRU None 0) |} in
  let h := [(COpSet "a"%string [x61] 0, 1); (COpSet "b"%string [x62] 0, 2);
            (COpGet "a"%string, 3); (COpClear, 4); (COpSet "c"%string [x63] 0, 5)] in
  cache_wf c /\ exists c', cache_run h c = Some c'.
Proof.
  intros c h.
  assert (Hwf : cache_wf c) by (split; [reflexivity | reflexivity]).
  split; [exact Hwf|].
  destruct (cache_runs_shard_histories c h Hwf) as (c' & Hrun & _).
  by exists c'.
Defined.

(** X15.  [NewCache] always returns a cache, for any CPU count and any
    options.  The options are applied in order to the defaults; an
    eviction policy other than "LFU" and "FIFO" becomes "LRU"; the cache
    has between 4 and 256 shards, all empty and of that policy; the
    statistics are all 0 and report the configured [MaxSize]; and every
    [Get] fails with KeyNotFound. *)
Theorem new_cache_is_empty (numCPU : Z) (opts : list Cache.Option) :
  let options := fold_left (fun o opt => opt o) opts Cache.defaultOptions in
  exists c,
    Cache.NewCache numCPU opts = Some c /\ cache_wf c /\
    4 <= Cache.shardCount c <= 256 /\
    Cache.maxSize c = Cache.opt_maxSize options /\
    Cache.evictionPolicy c
      = (if decide (Cache.opt_evictionPolicy options = EvictionLFU) then EvictionLFU
         else if decide (Cache.opt_evictionPolicy options = EvictionFIFO) then EvictionFIFO
         else EvictionLRU) /\
    all_shards (fun s =>
        Shard.data s = ∅ /\
        Shard.evictionPolicy s = Cache.evictionPolicy c /\
        kind (Shard.evictionList s) = Cache.evictionPolicy c /\
        Shard.compressor s = Cache.opt_compressor options /\
        Shard.compressSize s = Cache.opt_compressSize options) c /\
    Cache.Stats_ c
      = {| Cache.Hits := 0; Cache.Misses := 0; Cache.Evictions := 0;
           Cache.CurrentCount := 0; Cache.CurrentSize := 0;
           Cache.MaxSize := Cache.opt_maxSize options;
           Cache.EvictionPolicy := Cache.evictionPolicy c;
           Cache.ShardCount := Cache.shardCount c |} /\
    (forall key now, exists c',
       Cache.Get c key now = Some (Shard.Returned [] (Some ErrKeyNotFound), c', None)).
Proof.
  intros options.
  destruct (NewCache_returns numCPU opts)
    as (c & n & Hnew & _ & Hrange & Hn & Hm & Hp & Hshards).
  fold options in Hm, Hp, Hshards.
  pose proof (NewCache_wf _ _ _ Hnew) as Hwf.
  exists c. split; [exact Hnew|]. split; [exact Hwf|].
  split; [by rewrite Hn|]. split; [exact Hm|]. split; [exact Hp|].
  assert (Hpol : Cache.evictionPolicy c = EvictionLRU \/
                 Cache.evictionPolicy c = EvictionLFU \/
                 Cache.evictionPolicy c = EvictionFIFO).
  { rewrite Hp. repeat case_decide; tauto. }
  assert (Hevery : forall s, s ∈ Cache.shards c ->
            s = Shard.NewCacheShard (Cache.shardMaxSizeOf (Cache.opt_maxSize options) n)
                  (Cache.evictionPolicy c) (Cache.opt_compressor options)
                  (Cache.opt_compressSize options)).
  { intros s Hs. rewrite Hshards in Hs. by apply elem_of_replicate in Hs as [-> _]. }
  assert (Hshape : all_shards (fun s =>
            Shard.data s = ∅ /\
            Shard.evictionPolicy s = Cache.evictionPolicy c /\
            kind (Shard.evictionList s) = Cache.evictionPolicy c /\
            Shard.compressor s = Cache.opt_compressor options /\
            Shard.compressSize s = Cache.opt_compressSize options) c).
  { unfold all_shards. rewrite Forall_forall. intros s Hs. rewrite (Hevery s Hs).
    destruct (NewCacheShard_fields
                (Cache.shardMaxSizeOf (Cache.opt_maxSize options) n)
                (Cache.evictionPolicy c) (Cache.opt_compressor options)
                (Cache.opt_compressSize options)) as (Hd & _ & _ & _ & Hc & Hcs).
    destruct (NewCacheShard_policy
                (Cache.shardMaxSizeOf (Cache.opt_maxSize options) n)
                (Cache.evictionPolicy c) (Cache.opt_compressor options)
                (Cache.opt_compressSize options) Hpol) as [Hp1 Hp2].
    by repeat split. }
  split; [exact Hshape|]. split.
  - assert (Hzero : forall f : Shard.ShardStatsSnapshot -> Z,
              (forall m p cp cs, f (Shard.getStats (Shard.NewCacheShard m p cp cs)) = 0) ->
              fold_left (fun acc shard => acc + f (Shard.getStats shard))
                        (Cache.shards c) 0 = 0).
    { intros f Hf.
      rewrite (fold_left_add_const (fun s => f (Shard.getStats s)) _ 0); [lia|].
      intros s Hs. rewrite (Hevery s Hs). apply Hf. }
    assert (Hfields : forall m p cp cs,
              Shard.getStats (Shard.NewCacheShard m p cp cs)
              = {| Shard.snap_Hits := 0; Shard.snap_Misses := 0; Shard.snap_Evictions := 0;
                   Shard.snap_CurrentCount := 0; Shard.snap_CurrentSize := 0 |}).
    { intros m p cp cs. unfold Shard.getStats.
      destruct (NewCacheShard_fields m p cp cs) as (_ & -> & -> & -> & _). reflexivity. }
    unfold Cache.Stats_. rewrite Hm.
    rewrite !Hzero by (intros; by rewrite Hfields). reflexivity.
  - intros key now. apply Get_empty_shard; [exact Hwf|].
    unfold all_shards in *. eapply Forall_impl; [exact Hshape|]. by intros s (? & _).
Qed.

(** X16.  Round trip through the cache.  After [Set key value ttl] on a
    well-formed cache and any later calls that do not [Set] the key
    again, a [Get] of the key returns [value] and no error, provided the
    key is still stored and has not expired ([ttl <= 0], or the [Get] is
    not after [now + ttl]). *)
Theorem cache_value_is_read_back (c : Cache.Cache) (key : string) (value : bytes)
    (ttl : Z) (now : Time) (h : list (CacheOp * Time)) (now' : Time) :
  cache_wf c ->
  (forall shard, Cache.shards c !! shard_of (Cache.shardCount c) key = Some shard ->
                 compressor_sound_at shard value) ->
  Forall (fun e => ~ sets_key key (shard_op e)) h ->
  ttl <= 0 \/ now' <= now + ttl ->
  exists c1 c2,
    Cache.Set_ c key value ttl now = Some (None, c1) /\
    cache_run h c1 = Some c2 /\
    (cache_stored c2 key ->
     exists r, Cache.Get c2 key now' = Some r /\ r.1.1 = Shard.Returned value None).
Proof.
  intros Hwf Hsound Hall Httl.
  destruct (getShard_index c key Hwf) as (shard & Hg & Hl & _).
  pose proof (with_shard_wf (shard_of (Cache.shardCount c) key)
                (Shard.Set_ shard key value ttl now).2 c Hwf) as Hwf1.
  destruct (cache_run_shards h _ Hwf1) as (c2 & Hrun & Hwf2 & Hn2 & _ & _ & Hsh).
  cbn [Cache.shardCount Cache.shards Cache.with_shard] in Hn2, Hsh.
  eexists _, c2. split; [unfold Cache.Set_; rewrite Hg; reflexivity|].
  split; [exact Hrun|].
  intros (shard2 & Hl2 & Hstored).
  destruct (getShard_index c2 key Hwf2) as (shard2' & Hg2 & Hl2' & _).
  rewrite Hl2 in Hl2'. injection Hl2' as <-.
  rewrite Hn2 in Hl2.
  rewrite (Hsh _ (Shard.Set_ shard key value ttl now).2) in Hl2
    by (apply list_lookup_insert_eq; by eapply lookup_lt_Some).
  injection Hl2 as <-.
  unfold Cache.Get. rewrite Hg2. eexists. split; [reflexivity|]. cbn [fst].
  apply Get_after_Set; [by apply Hsound| |exact Hstored|exact Httl].
  by apply (project_Forall (fun e => ~ sets_key key (shard_op e))).
Qed.

Lemma cache_value_is_read_back_witness :
  let c := {| Cache.maxSize := 8; Cache.evictionPolicy := EvictionLRU;
              Cache.shardCount := 2;
              Cache.shards := replicate 2 (Shard.NewCacheShard 4 EvictionLRU None 0) |} in
  let h := [(COpSet "b"%string [x62] 0, 2); (COpGet "a"%string, 3)] in
  cache_wf c /\
  exists c1 c2,
    Cache.Set_ c "a"%string [x61] 10 1 = Some (None, c1) /\
    cache_run h c1 = Some c2 /\
    (cache_stored c2 "a"%string ->
     exists r, Cache.Get c2 "a"%string 11 = Some r /\ r.1.1 = Shard.Returned [x61] None).
Proof.
  intros c h.
  assert (Hwf : cache_wf c) by (split; [reflexivity | reflexivity]).
  split; [exact Hwf|].
  refine (cache_value_is_read_back c "a"%string [x61] 10 1 h 11 Hwf _ _ _).
  - intros shard Hs cp out Hcp. vm_compute in Hs. injection Hs as <-. discriminate Hcp.
  - repeat constructor; simpl; [discriminate | tauto].
  - right. lia.
Defined.

(** X17.  The memory limit of the cache.  For a cache made by [NewCache]
    and any sequence of calls with non-empty keys, every call returns and
    the cache's [CurrentSize] is the sum of the stored sizes over all
    shards; with a positive [MaxSize] it is at most [shardCount] times the
    limit of a shard, which is at most [MaxSize] when [MaxSize] is at
    least the number of shards. *)
Theorem cache_respects_max_size (numCPU : Z) (opts : list Cache.Option)
    (h : list (CacheOp * Time)) :
  Forall cache_stores_nonempty_key h ->
  exists c c',
    Cache.NewCache numCPU opts = Some c /\ cache_run h c = Some c' /\
    all_shards (fun s => accounting s /\ within_budget s) c' /\
    Cache.CurrentSize (Cache.Stats_ c') = cacheSumSizes c' /\
    Cache.MaxSize (Cache.Stats_ c') = Cache.maxSize c /\
    (0 < Cache.maxSize c ->
     Cache.CurrentSize (Cache.Stats_ c')
       <= Cache.shardCount c * Cache.shardMaxSizeOf (Cache.maxSize c) (Cache.shardCount c)) /\
    (Cache.shardCount c <= Cache.maxSize c ->
     Cache.CurrentSize (Cache.Stats_ c') <= Cache.maxSize c).
Proof.
  intros Hall.
  destruct (NewCache_returns numCPU opts)
    as (c & n & Hnew & _ & Hrange & Hn & Hm & _ & Hshards).
  cbv zeta in Hm, Hshards. rewrite <- Hm, <- Hn in Hshards.
  pose proof (NewCache_wf _ _ _ Hnew) as Hwf.
  destruct (cache_run_shards h c Hwf) as (c' & Hrun & Hwf' & Hn' & Hm' & _ & Hsh).
  exists c, c'. split; [exact Hnew|]. split; [exact Hrun|].
  assert (Hevery : forall s, s ∈ Cache.shards c' ->
            shard_inv s /\ within_budget s /\
            Shard.maxSize s = Cache.shardMaxSizeOf (Cache.maxSize c) (Cache.shardCount c)).
  { intros s Hs. apply list_elem_of_lookup in Hs as [i Hi].
    assert (is_Some (Cache.shards c !! i)) as [s0 Hs0].
    { apply lookup_lt_is_Some. apply lookup_lt_Some in Hi.
      destruct Hwf as [_ Hlen], Hwf' as [_ Hlen']. rewrite Hn' in Hlen'. lia. }
    rewrite (Hsh i s0 Hs0) in Hi. injection Hi as <-.
    rewrite Hshards in Hs0. apply lookup_replicate in Hs0 as [-> _].
    assert (Hne : Forall Shard.stores_nonempty_key (project (Cache.shardCount c) i h)).
    { apply (project_Forall cache_stores_nonempty_key); [|exact Hall].
      intros e. unfold cache_stores_nonempty_key, Shard.stores_nonempty_key, shard_op.
      by destruct e.1. }
    destruct (bounded_run _ (Cache.shardMaxSizeOf (Cache.maxSize c) (Cache.shardCount c))
                (Cache.evictionPolicy c)
                (Cache.opt_compressor (fold_left (fun o opt => opt o) opts Cache.defaultOptions))
                (Cache.opt_compressSize (fold_left (fun o opt => opt o) opts Cache.defaultOptions))
                Hne) as [Hinv Hb].
    split; [exact Hinv|]. split; [exact Hb|].
    destruct (run_config (project (Cache.shardCount c) i h)
                (Shard.NewCacheShard
                   (Cache.shardMaxSizeOf (Cache.maxSize c) (Cache.shardCount c))
                   (Cache.evictionPolicy c)
                   (Cache.opt_compressor
                      (fold_left (fun o opt => opt o) opts Cache.defaultOptions))
                   (Cache.opt_compressSize
                      (fold_left (fun o opt => opt o) opts Cache.defaultOptions))))
      as (-> & _).
    apply NewCacheShard_maxSize. }
  split.
  { unfold all_shards. rewrite Forall_forall. intros s Hs.
    destruct (Hevery s Hs) as ((Hacc & _) & Hb & _). by split. }
  split.
  { unfold Cache.Stats_, cacheSumSizes. cbn [Cache.CurrentSize].
    apply (fold_left_add_ext
             (fun s => Shard.snap_CurrentSize (Shard.getStats s))
             (fun s => Shard.sumSizes (Shard.data s))).
    intros s Hs. destruct (Hevery s Hs) as (((Hacc & _) & _) & _). exact Hacc. }
  split; [exact Hm'|].
  assert (Hbound : 0 < Cache.maxSize c ->
            Cache.CurrentSize (Cache.Stats_ c')
            <= Cache.shardCount c
               * Cache.shardMaxSizeOf (Cache.maxSize c) (Cache.shardCount c)).
  { intros Hpos. unfold Cache.Stats_. cbn [Cache.CurrentSize].
    pose proof (fold_left_add_le
                  (fun s => Shard.snap_CurrentSize (Shard.getStats s))
                  (Cache.shards c')
                  (Cache.shardMaxSizeOf (Cache.maxSize c) (Cache.shardCount c)) 0) as Hle.
    destruct Hwf' as [_ Hlen']. rewrite Hlen', Hn' in Hle.
    rewrite Z2Nat.id in Hle by lia.
    etrans; [apply Hle|lia].
    intros s Hs. destruct (Hevery s Hs) as (_ & Hb & Hmax).
    unfold within_budget in Hb. rewrite Hmax in Hb. simpl. apply Hb.
    apply shardMaxSizeOf_pos; lia. }
  split; [exact Hbound|].
  intros Hle. etrans; [apply Hbound; lia|].
  apply shardMaxSizeOf_sum; lia.
Qed.

Lemma cache_respects_max_size_witness :
  let h := [(COpSet "a"%string [x61; x61] 0, 1); (COpSet "b"%string [x62] 0, 2);
            (COpGet "a"%string, 3)] in
  Forall cache_stores_nonempty_key h /\
  exists c c',
    Cache.NewCache 2 [Cache.WithMaxSize 8] = Some c /\ cache_run h c = Some c' /\
    Cache.MaxSize (Cache.Stats_ c') = Cache.maxSize c.
Proof.
  intros h.
  assert (Hall : Forall cache_stores_nonempty_key h)
    by (repeat constructor; discriminate).
  split; [exact Hall|].
  destruct (cache_respects_max_size 2 [Cache.WithMaxSize 8] h Hall)
    as (c & c' & Hnew & Hrun & _ & _ & Hmax & _).
  by exists c, c'.
Defined.

(** X18.  [Cache.Clear] empties every shard: the statistics are all 0
    afterwards (limit, policy and shard count stay), and every [Get]
    fails with KeyNotFound. *)
Theorem cache_clear_resets (c : Cache.Cache) :
  cache_wf c ->
  let c' := Cache.Clear c in
  cache_wf c' /\
  all_shards (fun s => Shard.data s = ∅) c' /\
  Cache.Stats_ c'
    = {| Cache.Hits := 0; Cache.Misses := 0; Cache.Evictions := 0;
         Cache.CurrentCount := 0; Cache.CurrentSize := 0;
         Cache.MaxSize := Cache.maxSize c;
         Cache.EvictionPolicy := Cache.evictionPolicy c;
         Cache.ShardCount := Cache.shardCount c |} /\
  (forall key now, exists c'',
     Cache.Get c' key now = Some (Shard.Returned [] (Some ErrKeyNotFound), c'', None)).
Proof.
  intros Hwf c'.
  assert (Hwf' : cache_wf c').
  { destruct Hwf as [Hpos Hlen]. split; [exact Hpos|]. simpl. by rewrite length_map. }
  assert (Hevery : forall s, s ∈ Cache.shards c' -> exists s0, s = Shard.Clear s0).
  { intros s Hs. simpl in Hs. apply list_elem_of_In, in_map_iff in Hs as (s0 & <- & _).
    by exists s0. }
  assert (Hempty : all_shards (fun s => Shard.data s = ∅) c').
  { unfold all_shards. rewrite Forall_forall. intros s Hs.
    by destruct (Hevery s Hs) as [s0 ->]. }
  split; [exact Hwf'|]. split; [exact Hempty|]. split.
  - assert (Hzero : forall f : Shard.ShardStatsSnapshot -> Z,
              (forall s0, f (Shard.getStats (Shard.Clear s0)) = 0) ->
              fold_left (fun acc shard => acc + f (Shard.getStats shard))
                        (Cache.shards c') 0 = 0).
    { intros f Hf.
      rewrite (fold_left_add_const (fun s => f (Shard.getStats s)) _ 0); [lia|].
      intros s Hs. destruct (Hevery s Hs) as [s0 ->]. apply Hf. }
    unfold Cache.Stats_. rewrite !Hzero by done. reflexivity.
  - intros key now. by apply Get_empty_shard.
Qed.

Lemma cache_clear_resets_witness :
  let c := {| Cache.maxSize := 8; Cache.evictionPolicy := EvictionFIFO;
              Cache.shardCount := 2;
              Cache.shards := replicate 2 (Shard.NewCacheShard 4 EvictionFIFO None 0) |} in
  exists c1, cache_run [(COpSet "a"%string [x61] 0, 1); (COpGet "a"%string, 2)] c = Some c1 /\
    cache_wf c1 /\ Cache.Hits (Cache.Stats_ c1) = 1 /\
    Cache.Hits (Cache.Stats_ (Cache.Clear c1)) = 0.
Proof.
  intros c. eexists. split; [vm_compute; reflexivity|].
  match goal with |- cache_wf ?c1 /\ _ =>
    assert (Hwf : cache_wf c1) by (split; [reflexivity | reflexivity]);
    pose proof (cache_clear_resets c1 Hwf) as H
  end.
  cbv zeta in H. destruct H as (_ & _ & Hstats & _).
  split; [exact Hwf|]. split; [vm_compute; reflexivity|]. by rewrite Hstats.
Defined.

(** X19.  The cache counts every [Get]: along any sequence of calls
    without [Clear] on a well-formed cache, [Hits + Misses] of the cache's
    statistics grows by the number of [Get] calls. *)
Theorem cache_counts_every_get (c : Cache.Cache) (h : list (CacheOp * Time)) :
  cache_wf c ->
  Forall (fun e => no_clear (shard_op e)) h ->
  exists c',
    cache_run h c = Some c' /\
    Cache.Hits (Cache.Stats_ c') + Cache.Misses (Cache.Stats_ c')
      = Cache.Hits (Cache.Stats_ c) + Cache.Misses (Cache.Stats_ c)
        + count_gets (map shard_op h).
Proof.
  intros Hwf Hall. revert c Hwf.
  induction Hall as [|e h He Hall IH]; intros c Hwf.
  - exists c. split; [reflexivity|]. simpl. lia.
  - assert (Hkey : exists key, op_key e = Some key).
    { unfold no_clear, shard_op, op_key in *. simpl in He.
      destruct e.1; try done; by eexists. }
    destruct Hkey as [key Hkey].
    destruct (getShard_index c key Hwf) as (shard & _ & Hl & _).
    pose proof (cache_step_keyed c e key shard Hwf Hkey Hl) as Hstep.
    pose proof (with_shard_wf (shard_of (Cache.shardCount c) key)
                  (Shard.step shard (shard_op e)) c Hwf) as Hwf1.
    destruct (IH _ Hwf1) as (c' & Hrun & Hcount).
    exists c'. cbn [cache_run map]. rewrite Hstep. split; [exact Hrun|].
    rewrite Hcount.
    destruct (Stats_with_shard c _ shard (Shard.step shard (shard_op e)) Hl) as [-> ->].
    pose proof (step_counts shard (shard_op e) He) as Hs.
    rewrite (count_gets_cons (shard_op e)). lia.
Qed.

Lemma cache_counts_every_get_witness :
  let c := {| Cache.maxSize := 8; Cache.evictionPolicy := EvictionLRU;
              Cache.shardCount := 2;
              Cache.shards := replicate 2 (Shard.NewCacheShard 4 EvictionLRU None 0) |} in
  let h := [(COpSet "a"%string [x61] 0, 1); (COpGet "a"%string, 2);
            (COpGet "b"%string, 3); (COpDelete "a"%string, 4); (COpGet "a"%string, 5)] in
  cache_wf c /\ Forall (fun e => no_clear (shard_op e)) h /\
  exists c', cache_run h c = Some c' /\
    Cache.Hits (Cache.Stats_ c') + Cache.Misses (Cache.Stats_ c') = 3.
Proof.
  intros c h.
  assert (Hwf : cache_wf c) by (split; [reflexivity | reflexivity]).
  assert (Hall : Forall (fun e => no_clear (shard_op e)) h)
    by (repeat constructor).
  split; [exact Hwf|]. split; [exact Hall|].
  destruct (cache_counts_every_get c h Hwf Hall) as (c' & Hrun & Hcount).
  exists c'. split; [exact Hrun|]. rewrite Hcount. vm_compute. reflexivity.
Defined.

(** * More on the LFU list *)

Section LfuMore.

Import LFU.

(** The scan of a bucket keeps the node with the least [LastUsed]. *)
Lemma oldest_least lfu (b : list string) : forall acc k0,
  acc.1 = Some k0 -> acc.2 = lastUsedOf lfu k0 ->
  exists k,
    (fold_left (oldest_step lfu) b acc).1 = Some k /\ (k = k0 \/ k ∈ b) /\
    lastUsedOf lfu k <= lastUsedOf lfu k0 /\
    forall x, x ∈ b -> lastUsedOf lfu k <= lastUsedOf lfu x.
Proof.
  induction b as [|x b IH]; intros acc k0 Hacc Htime; simpl.
  - exists k0. split; [exact Hacc|]. split; [by left|]. split; [lia|].
    intros x Hx. by apply elem_of_nil in Hx.
  - destruct (Before (lastUsedOf lfu x) acc.2) eqn:Hbefore.
    + replace (oldest_step lfu acc x) with (Some x, lastUsedOf lfu x)
        by (unfold oldest_step; by rewrite Hacc, Hbefore).
      apply Z.ltb_lt in Hbefore.
      destruct (IH (Some x, lastUsedOf lfu x) x eq_refl eq_refl)
        as (k & Hk & Hin & Hle & Hall).
      exists k. split; [exact Hk|].
      split; [right; destruct Hin as [->|Hin]; [by left | by right]|].
      split; [lia|].
      intros y Hy. apply elem_of_cons in Hy as [->|Hy]; [exact Hle | by apply Hall].
    + replace (oldest_step lfu acc x) with acc
        by (unfold oldest_step; by rewrite Hacc, Hbefore).
      apply Z.ltb_ge in Hbefore.
      destruct (IH acc k0 Hacc Htime) as (k & Hk & Hin & Hle & Hall).
      exists k. split; [exact Hk|].
      split; [destruct Hin as [->|Hin]; [by left | right; by right]|].
      split; [exact Hle|].
      intros y Hy. apply elem_of_cons in Hy as [->|Hy]; [lia | by apply Hall].
Qed.

Lemma oldest_of_bucket lfu (b : list string) now :
  is_nil b = false ->
  exists k, (fold_left (oldest_step lfu) b (None, now)).1 = Some k /\ k ∈ b /\
            forall x, x ∈ b -> lastUsedOf lfu k <= lastUsedOf lfu x.
Proof.
  destruct b as [|x b]; [discriminate|]. intros _. simpl.
  destruct (oldest_least lfu b (Some x, lastUsedOf lfu x) x eq_refl eq_refl)
    as (k & Hk & Hin & Hle & Hall).
  exists k. split; [exact Hk|].
  split; [destruct Hin as [->|Hin]; [by left | by right]|].
  intros y Hy. apply elem_of_cons in Hy as [->|Hy]; [exact Hle | by apply Hall].
Qed.

(** When [updateMinFreq] scans, every non-empty bucket has a frequency
    of at least 2. *)
Lemma scan_buckets_live lfu :
  lfu_buckets_wf lfu -> lfu_min_bound lfu -> isEmpty lfu (minFreq lfu) = true ->
  forall e, e ∈ map_to_list (frequencies lfu) -> is_nil e.2 = false -> 2 <= e.1.
Proof.
  intros (_ & Hb & _) [Hmin1 Hmin] Hempty [f b] He Hl. simpl in *.
  apply elem_of_map_to_list in He.
  apply is_nil_false in Hl as [k Hk].
  destruct (Hb _ _ _ He Hk) as (n & Hn & Hf).
  pose proof (Hmin _ _ Hn).
  assert (f ≠ minFreq lfu); [|lia].
  intros ->. assert (isEmpty lfu (minFreq lfu) = false); [|congruence].
  apply isEmpty_false. by exists b, k.
Qed.

End LfuMore.

(** The [LFUList] behind an interface value that matches the map. *)
Lemma lfu_of_matches l d :
  list_matches l d -> is_lfu l ->
  lfu_wf (match l with OfLFU x => x | _ => LFU.NewLFUList end).
Proof. destruct l; simpl; try tauto. by intros (Hwf & _) _. Qed.

(** X20.  LFU breaks ties by last use.  On a well-formed, non-empty
    [LFUList], [RemoveLeast] returns the key of a node of the least
    frequency whose [LastUsed] is not after that of any other node of
    that frequency, and removes that node. *)
Theorem lfu_breaks_ties_by_last_use (lfu : LFU.LFUList) (now : Time) :
  lfu_wf lfu -> LFU.nodes lfu ≠ ∅ ->
  exists k n,
    (LFU.RemoveLeast now lfu).1 = k /\
    LFU.nodes lfu !! k = Some n /\
    LFU.Frequency n = LFU.minFreq lfu /\
    (forall k' n', LFU.nodes lfu !! k' = Some n' ->
       LFU.Frequency n <= LFU.Frequency n') /\
    (forall k' n', LFU.nodes lfu !! k' = Some n' ->
       LFU.Frequency n' = LFU.Frequency n -> LFU.LastUsed n <= LFU.LastUsed n') /\
    LFU.nodes (LFU.RemoveLeast now lfu).2 = delete k (LFU.nodes lfu).
Proof.
  intros (Hb & [H1 Hmin] & Hexact) Hne.
  apply map_choose in Hne as (k0 & n0 & Hn0).
  pose proof (Hexact _ _ Hn0) as Hlive.
  unfold LFU.RemoveLeast.
  rewrite bool_decide_eq_false_2
    by (intros Hsize; apply map_size_empty_iff in Hsize;
        rewrite Hsize, lookup_empty in Hn0; discriminate).
  unfold LFU.isEmpty in Hlive.
  destruct (LFU.frequencies lfu !! LFU.minFreq lfu) as [freqList|] eqn:Hfl; [|discriminate].
  rewrite Hlive.
  destruct (oldest_of_bucket lfu freqList now Hlive) as (k & Hk & Hin & Holdest).
  rewrite Hk.
  destruct Hb as (Hfwd & Hback & _).
  destruct (Hback _ _ _ Hfl Hin) as (n & Hn & Hf).
  exists k, n. split; [reflexivity|]. split; [exact Hn|]. split; [exact Hf|].
  split; [intros k' n' Hn'; rewrite Hf; by eapply Hmin|].
  split.
  - intros k' n' Hn' Hsame.
    destruct (Hfwd _ _ Hn') as (b' & Hb' & Hin').
    rewrite Hsame, Hf, Hfl in Hb'. injection Hb' as <-.
    specialize (Holdest k' Hin'). unfold LFU.lastUsedOf in Holdest.
    by rewrite Hn, Hn' in Holdest.
  - cbn [snd]. rewrite updateMinFreq_nodes. reflexivity.
Qed.

Lemma lfu_breaks_ties_by_last_use_witness :
  let s := Shard.run [(Shard.OpSet "a"%string [x61] 0, 5);
                      (Shard.OpSet "b"%string [x62] 0, 3);
                      (Shard.OpSet "c"%string [x63] 0, 4);
                      (Shard.OpGet "b"%string, 6); (Shard.OpGet "b"%string, 7)]
                     (Shard.NewCacheShard 10 EvictionLFU None 0) in
  let lfu := match Shard.evictionList s with
             | OfLFU l => l
             | _ => LFU.NewLFUList
             end in
  Shard.evictionList s = OfLFU lfu /\ lfu_wf lfu /\ LFU.nodes lfu ≠ ∅ /\
  (LFU.RemoveLeast 8 lfu).1 = "c"%string /\
  exists k n, (LFU.RemoveLeast 8 lfu).1 = k /\ LFU.nodes lfu !! k = Some n /\
              LFU.Frequency n = LFU.minFreq lfu.
Proof.
  intros s lfu.
  assert (Hl : Shard.evictionList s = OfLFU lfu) by (vm_compute; reflexivity).
  assert (Hwf : lfu_wf lfu).
  { apply (lfu_of_matches (Shard.evictionList s) (Shard.data s)).
    - apply (bounded_run [(Shard.OpSet "a"%string [x61] 0, 5);
                          (Shard.OpSet "b"%string [x62] 0, 3);
                          (Shard.OpSet "c"%string [x63] 0, 4);
                          (Shard.OpGet "b"%string, 6); (Shard.OpGet "b"%string, 7)]
               10 EvictionLFU None 0 ltac:(repeat constructor; discriminate)).
    - vm_compute. exact I. }
  assert (Hne : LFU.nodes lfu ≠ ∅).
  { assert (Ha : is_Some (LFU.nodes lfu !! "a"%string)) by (vm_compute; by eexists).
    intros Hempty. rewrite Hempty, lookup_empty in Ha.
    destruct Ha as [x Hx]. discriminate Hx. }
  split; [exact Hl|]. split; [exact Hwf|]. split; [exact Hne|].
  split; [vm_compute; reflexivity|].
  destruct (lfu_breaks_ties_by_last_use lfu 8 Hwf Hne) as (k & n & Hk & Hn & Hf & _).
  exists k, n. split; [exact Hk|]. split; [exact Hn | exact Hf].
Defined.

(** X21.  The scan of [updateMinFreq] does not depend on the order in
    which Go visits the map of buckets.  Whenever the scan runs on a
    well-formed list (the bucket of [minFreq] is empty and [minFreq] is a
    lower bound of the frequencies), every visiting order gives the same
    result: the least frequency of a node, or 1 when there is no node. *)
Theorem min_frequency_scan_ignores_map_order (lfu : LFU.LFUList)
    (order : list (Z * list string)) :
  lfu_buckets_wf lfu -> lfu_min_bound lfu ->
  LFU.isEmpty lfu (LFU.minFreq lfu) = true ->
  order ≡ₚ map_to_list (LFU.frequencies lfu) ->
  LFU.updateMinFreq_scan order = LFU.minFreq (LFU.updateMinFreq lfu) /\
  (forall k n, LFU.nodes lfu !! k = Some n ->
     LFU.updateMinFreq_scan order <= LFU.Frequency n) /\
  (LFU.nodes lfu ≠ ∅ ->
   exists k n, LFU.nodes lfu !! k = Some n /\
               LFU.Frequency n = LFU.updateMinFreq_scan order) /\
  (LFU.nodes lfu = ∅ -> LFU.updateMinFreq_scan order = 1).
Proof.
  intros Hwf Hbound Hempty Hperm.
  pose proof (scan_buckets_live lfu Hwf Hbound Hempty) as Hlive.
  assert (Heq : LFU.updateMinFreq_scan order
                = LFU.updateMinFreq_scan (map_to_list (LFU.frequencies lfu))).
  { symmetry. apply updateMinFreq_scan_order; [exact Hlive | by symmetry]. }
  rewrite Heq.
  destruct (updateMinFreq_scan_spec _ Hlive) as (Hle & Hr).
  destruct Hwf as (Hfwd & Hback & _).
  split; [unfold LFU.updateMinFreq; by rewrite Hempty|].
  split; [|split].
  - intros k n Hn. destruct (Hfwd _ _ Hn) as (b & Hb & Hin).
    apply (Hle (LFU.Frequency n, b)).
    + by apply elem_of_map_to_list.
    + apply is_nil_false. by exists k.
  - intros Hne. apply map_choose in Hne as (k & n & Hn).
    destruct (Hfwd _ _ Hn) as (b & Hb & Hin).
    destruct Hr as [[_ Hnone]|([f b'] & He & Hl & Hf)].
    + specialize (Hnone (LFU.Frequency n, b) ltac:(by apply elem_of_map_to_list)).
      simpl in Hnone. apply is_nil_true in Hnone. subst b. by apply elem_of_nil in Hin.
    + simpl in *. apply elem_of_map_to_list in He.
      apply is_nil_false in Hl as [k' Hk'].
      destruct (Hback _ _ _ He Hk') as (n' & Hn' & Hf').
      exists k', n'. split; [exact Hn'|]. congruence.
  - intros Hnodes.
    destruct Hr as [[Hr _]|([f b'] & He & Hl & Hf)]; [exact Hr|].
    simpl in *. apply elem_of_map_to_list in He.
    apply is_nil_false in Hl as [k' Hk'].
    destruct (Hback _ _ _ He Hk') as (n' & Hn' & _).
    rewrite Hnodes, lookup_empty in Hn'. discriminate.
Qed.

Lemma min_frequency_scan_ignores_map_order_witness :
  let lfu := {| LFU.nodes := {[ "b"%string := {| LFU.Frequency := 3; LFU.LastUsed := 7 |} ]};
                LFU.frequencies := <[1 := []]> {[ 3 := ["b"%string] ]};
                LFU.minFreq := 1 |} in
  lfu_buckets_wf lfu /\ lfu_min_bound lfu /\
  LFU.updateMinFreq_scan [(3, ["b"%string]); (1, [])] = 3 /\
  LFU.updateMinFreq_scan [(1, []); (3, ["b"%string])] = 3 /\
  LFU.minFreq (LFU.updateMinFreq lfu) = 3.
Proof.
  intros lfu.
  assert (Hwf : lfu_buckets_wf lfu).
  { split; [|split; [|split]].
    - intros k n Hk. cbn [lfu LFU.nodes] in Hk.
      apply lookup_singleton_Some in Hk as [<- <-].
      exists ["b"%string]. split; [reflexivity | by left].
    - intros f b k Hf Hk. cbn [lfu LFU.frequencies LFU.nodes] in *.
      apply lookup_insert_Some in Hf as [[<- <-]|[_ Hf]]; [by apply elem_of_nil in Hk|].
      apply lookup_singleton_Some in Hf as [<- <-].
      apply list_elem_of_singleton in Hk as ->.
      eexists. split; [apply lookup_singleton_eq | reflexivity].
    - intros f b Hf. cbn [lfu LFU.frequencies] in Hf.
      apply lookup_insert_Some in Hf as [[<- <-]|[_ Hf]]; [constructor|].
      apply lookup_singleton_Some in Hf as [<- <-]. apply NoDup_singleton.
    - intros k n Hk. cbn [lfu LFU.nodes] in Hk.
      apply lookup_singleton_Some in Hk as [<- <-]. simpl. lia. }
  assert (Hbound : lfu_min_bound lfu).
  { split; [simpl; lia|]. intros k n Hk. cbn [lfu LFU.nodes LFU.minFreq] in *.
    apply lookup_singleton_Some in Hk as [<- <-]. simpl. lia. }
  assert (Hempty : LFU.isEmpty lfu (LFU.minFreq lfu) = true) by reflexivity.
  assert (Hperm : [(3, ["b"%string]); (1, [])] ≡ₚ map_to_list (LFU.frequencies lfu)).
  { cbn [lfu LFU.frequencies].
    rewrite map_to_list_insert by reflexivity.
    rewrite map_to_list_singleton. apply Permutation_swap. }
  split; [exact Hwf|]. split; [exact Hbound|].
  destruct (min_frequency_scan_ignores_map_order lfu _ Hwf Hbound Hempty Hperm)
    as (Heq & _).
  split; [reflexivity|]. split; [reflexivity|]. by rewrite <- Heq.
Defined.

(** * Rounding to a power of two, in general *)

Section PowerOfTwo.

Import Utils.

Lemma land_pow2_pred (k : Z) : 0 <= k -> Z.land (2 ^ k) (2 ^ k - 1) = 0.
Proof.
  intros Hk. replace (2 ^ k - 1) with (Z.ones k) by (rewrite Z.ones_equiv; lia).
  rewrite Z.land_ones by exact Hk. apply Z_mod_same_full.
Qed.

(** A number that is not a power of two shares its top bit with its
    predecessor. *)
Lemma land_pred_nonzero (n : Z) :
  1 < n -> n ≠ 2 ^ Z.log2 n -> Z.land n (n - 1) ≠ 0.
Proof.
  intros Hn Hnp Hland.
  pose proof (Z.log2_spec n ltac:(lia)) as [Hlo Hhi].
  pose proof (Z.log2_nonneg n) as Hk.
  assert (Hlog : Z.log2 (n - 1) = Z.log2 n) by (apply Z.log2_unique; lia).
  pose proof (Z.bit_log2 n ltac:(lia)) as Hb1.
  pose proof (Z.bit_log2 (n - 1) ltac:(lia)) as Hb2. rewrite Hlog in Hb2.
  pose proof (Z.land_spec n (n - 1) (Z.log2 n)) as Hspec.
  rewrite Hland, Hb1, Hb2, Z.bits_0 in Hspec. discriminate.
Qed.

Lemma shift_double (j : Z) :
  0 <= j < 62 -> wrap_int (Z.shiftl (2 ^ j) 1) = 2 ^ (j + 1).
Proof.
  intros Hj. rewrite Z.shiftl_mul_pow2 by lia.
  replace (2 ^ j * 2 ^ 1) with (2 ^ (j + 1)) by (rewrite Z.pow_add_r; lia).
  apply wrap_int_small.
  assert (0 < 2 ^ (j + 1)) by (apply Z.pow_pos_nonneg; lia).
  assert (2 ^ (j + 1) <= 2 ^ 62) by (apply Z.pow_le_mono_r; lia).
  unfold max_int. lia.
Qed.

(** The loop stops at the first power of two that is not below [n]. *)
Lemma loop_reaches (n m : Z) :
  0 <= m <= 62 -> 2 ^ (m - 1) < n <= 2 ^ m ->
  forall (d : nat) (j : Z) (fuel : nat),
    0 <= j -> j + Z.of_nat d = m -> (d < fuel)%nat ->
    roundToPowerOfTwo_loop fuel (2 ^ j) n = Some (2 ^ m).
Proof.
  intros Hm Hn. induction d as [|d IH]; intros j fuel Hj Hjm Hfuel.
  - destruct fuel as [|fuel]; [lia|]. simpl.
    replace j with m by lia.
    by replace (2 ^ m <? n) with false by (symmetry; apply Z.ltb_ge; lia).
  - destruct fuel as [|fuel]; [lia|]. cbn [roundToPowerOfTwo_loop].
    assert (2 ^ j <= 2 ^ (m - 1)) by (apply Z.pow_le_mono_r; lia).
    replace (2 ^ j <? n) with true by (symmetry; apply Z.ltb_lt; lia).
    rewrite shift_double by lia. apply IH; lia.
Qed.

Lemma loop_zero (n : Z) (fuel : nat) :
  0 < n -> roundToPowerOfTwo_loop fuel 0 n = None.
Proof.
  intros Hn. induction fuel as [|fuel IH]; [reflexivity|].
  cbn [roundToPowerOfTwo_loop].
  replace (0 <? n) with true by (symmetry; apply Z.ltb_lt; lia). exact IH.
Qed.

(** Above [2 ^ 62] the doubling overflows to [- 2 ^ 63] and then to 0,
    where it stays: the loop never ends. *)
Lemma loop_never (n : Z) :
  2 ^ 62 < n ->
  forall (d : nat) (j : Z) (fuel : nat),
    0 <= j -> j + Z.of_nat d = 62 ->
    roundToPowerOfTwo_loop fuel (2 ^ j) n = None.
Proof.
  intros Hn. induction d as [|d IH]; intros j fuel Hj Hjd.
  - replace j with 62 by lia.
    destruct fuel as [|fuel]; [reflexivity|]. cbn [roundToPowerOfTwo_loop].
    replace (2 ^ 62 <? n) with true by (symmetry; apply Z.ltb_lt; lia).
    replace (wrap_int (Z.shiftl (2 ^ 62) 1)) with (- 2 ^ 63) by reflexivity.
    destruct fuel as [|fuel]; [reflexivity|]. cbn [roundToPowerOfTwo_loop].
    replace (- 2 ^ 63 <? n) with true by (symmetry; apply Z.ltb_lt; lia).
    replace (wrap_int (Z.shiftl (- 2 ^ 63) 1)) with 0 by reflexivity.
    apply loop_zero. lia.
  - destruct fuel as [|fuel]; [reflexivity|]. cbn [roundToPowerOfTwo_loop].
    assert (2 ^ j <= 2 ^ 62) by (apply Z.pow_le_mono_r; lia).
    replace (2 ^ j <? n) with true by (symmetry; apply Z.ltb_lt; lia).
    rewrite shift_double by lia. apply IH; lia.
Qed.

End PowerOfTwo.

(** X22.  [roundToPowerOfTwo] on every [int].  It returns 1 for
    [n <= 1]; for [1 < n <= 2 ^ 62] it returns the least power of two
    that is at least [n] ([n] itself when [n] is a power of two); and for
    [n] above [2 ^ 62], where that power of two is not an [int], the
    doubling overflows to 0 and the loop never ends. *)
Theorem round_to_power_of_two (n : Z) :
  (n <= 1 -> Utils.roundToPowerOfTwo n = Some 1) /\
  (1 < n <= 2 ^ 62 ->
   Utils.roundToPowerOfTwo n = Some (2 ^ Z.log2_up n) /\
   is_next_power_of_two n (2 ^ Z.log2_up n)) /\
  (forall k, 0 <= k <= 62 -> Utils.roundToPowerOfTwo (2 ^ k) = Some (2 ^ k)) /\
  (2 ^ 62 < n <= Utils.max_int ->
   Utils.roundToPowerOfTwo n = None /\
   forall fuel, Utils.roundToPowerOfTwo_loop fuel 1 n = None).
Proof.
  assert (Hmid : forall z, 1 < z <= 2 ^ 62 ->
            Utils.roundToPowerOfTwo z = Some (2 ^ Z.log2_up z)).
  { intros z Hz. unfold Utils.roundToPowerOfTwo.
    replace (z <=? 1) with false by (symmetry; apply Z.leb_gt; lia).
    pose proof (Z.log2_up_spec z ltac:(lia)) as Hup.
    assert (Hm : 0 <= Z.log2_up z <= 62).
    { split; [apply Z.log2_up_nonneg|]. apply Z.log2_up_le_pow2; lia. }
    destruct (Z.land z (z - 1) =? 0) eqn:Hland.
    - apply Z.eqb_eq in Hland.
      destruct (Z.eq_dec z (2 ^ Z.log2 z)) as [Hpow|Hnp].
      + f_equal. rewrite Hpow at 2. rewrite Z.log2_up_pow2 by apply Z.log2_nonneg.
        exact Hpow.
      + by destruct (land_pred_nonzero z ltac:(lia) Hnp).
    - replace (Z.pred (Z.log2_up z)) with (Z.log2_up z - 1) in Hup by lia.
      apply (loop_reaches z (Z.log2_up z) Hm Hup (Z.to_nat (Z.log2_up z)) 0 65); lia. }
  split; [|split; [|split]].
  - intros Hn. unfold Utils.roundToPowerOfTwo.
    by replace (n <=? 1) with true by (symmetry; apply Z.leb_le; lia).
  - intros Hn. split; [by apply Hmid|]. apply log2_up_next_power_of_two. lia.
  - intros k Hk. destruct (Z.eq_dec k 0) as [->|Hk0]; [reflexivity|].
    assert (2 ^ 1 <= 2 ^ k) by (apply Z.pow_le_mono_r; lia).
    assert (2 ^ k <= 2 ^ 62) by (apply Z.pow_le_mono_r; lia).
    rewrite Hmid by lia. by rewrite Z.log2_up_pow2 by lia.
  - intros Hn.
    assert (Hnever : forall fuel, Utils.roundToPowerOfTwo_loop fuel 1 n = None).
    { intros fuel. apply (loop_never n ltac:(lia) 62%nat 0 fuel); lia. }
    split; [|exact Hnever].
    unfold Utils.roundToPowerOfTwo.
    replace (n <=? 1) with false by (symmetry; apply Z.leb_gt; lia).
    assert (Hlog : Z.log2 n = 62).
    { apply Z.log2_unique; [lia|]. unfold Utils.max_int in Hn.
      change (Z.succ 62) with 63. lia. }
    replace (Z.land n (n - 1) =? 0) with false; [apply Hnever|].
    symmetry. apply Z.eqb_neq, land_pred_nonzero; [lia|]. rewrite Hlog. lia.
Qed.

(** * What [Set] stores *)

Section Compression.

Import Shard.

Lemma compressDecision_smaller s value finalValue size compressed :
  compressDecision s value = (finalValue, size, compressed) ->
  size <= len value /\
  (compressed = true -> compressSize s < len value /\ size < len value) /\
  (len value <= compressSize s \/ compressor s = None \/
   (exists c e, compressor s = Some c /\ (Compress c value).2 = Some e) \/
   (exists c, compressor s = Some c /\ len value <= len (Compress c value).1) ->
   compressed = false).
Proof.
  unfold compressDecision.
  destruct (compressSize s <? len value) eqn:Hth;
    [apply Z.ltb_lt in Hth|
     intros [= <- <- <-]; split; [lia|]; split; [discriminate|done]].
  destruct (compressor s) as [c|];
    [|intros [= <- <- <-]; split; [lia|]; split; [discriminate|done]].
  destruct (Compress c value) as [out err] eqn:Hc. simpl.
  destruct err as [e|];
    [intros [= <- <- <-]; split; [lia|]; split; [discriminate|done]|].
  destruct (len out <? len value) eqn:Hlt; intros [= <- <- <-].
  - apply Z.ltb_lt in Hlt. split; [lia|]. split; [intros _; lia|].
    intros [Hle|[Hnone|[(c' & e & Hc' & He)|(c' & Hc' & Hle)]]].
    + lia.
    + discriminate.
    + injection Hc' as <-. rewrite Hc in He. discriminate.
    + injection Hc' as <-. rewrite Hc in Hle. simpl in Hle. lia.
  - split; [lia|]. split; [discriminate|done].
Qed.

End Compression.

(** X23.  [Set] compresses only when it pays.  The entry that a [Set]
    leaves under its key has the length of its stored payload as its
    size, never more than the length of the value.  It is compressed only
    if the value is longer than the threshold and the compressor returned
    a strictly shorter payload without error; otherwise (short value, no
    compressor, a compressor error, no gain, which is always so with
    [NoCompressor]) the value is stored as it is, and no error is
    returned. *)
Theorem set_compresses_only_when_smaller (s : Shard.CacheShard) (key : string)
    (value : bytes) (ttl : Z) (now : Time) (item : CacheItem) :
  Shard.data (Shard.Set_ s key value ttl now).2 !! key = Some item ->
  (Shard.Set_ s key value ttl now).1 = None /\
  Size item = len (Value item) /\
  Size item <= len value /\
  (Compressed item = false -> Value item = value) /\
  (Compressed item = true ->
     Shard.compressSize s < len value /\ Size item < len value /\
     exists c, Shard.compressor s = Some c /\ Compress c value = (Value item, None)) /\
  (len value <= Shard.compressSize s \/ Shard.compressor s = None \/
   (exists c e, Shard.compressor s = Some c /\ (Compress c value).2 = Some e) \/
   (exists c, Shard.compressor s = Some c /\ len value <= len (Compress c value).1) ->
   Compressed item = false) /\
  (Shard.compressor s = Some NewNoCompressor -> Compressed item = false).
Proof.
  intros Hitem. split; [reflexivity|].
  destruct (Set_entry _ _ _ _ _ _ Hitem) as (Hval & Hsz & Hcomp & _).
  destruct (Shard.compressDecision s value) as [[finalValue size] compressed] eqn:Hw.
  simpl in Hval, Hsz, Hcomp.
  destruct (compressDecision_sound _ _ _ _ _ Hw) as (Hlen & Hplain & Hpacked).
  destruct (compressDecision_smaller _ _ _ _ _ Hw) as (Hle & Hgain & Hraw).
  rewrite Hval, Hsz, Hcomp.
  split; [exact Hlen|]. split; [exact Hle|]. split; [exact Hplain|].
  split; [|split; [exact Hraw|]].
  - intros Hc. destruct (Hgain Hc) as [Hth Hlt]. split; [exact Hth|].
    split; [exact Hlt | by apply Hpacked].
  - intros Hno. apply Hraw. right. right. right.
    exists NewNoCompressor. split; [exact Hno|]. simpl. lia.
Qed.

Lemma set_compresses_only_when_smaller_witness :
  let s := Shard.NewCacheShard 100 EvictionLRU (Some ToyRLE.compressor) 3 in
  let value := [x61; x61; x61; x61; x61; x61] in
  exists item,
    Shard.data (Shard.Set_ s "k"%string value 0 1).2 !! "k"%string = Some item /\
    Size item = len (Value item) /\ Size item <= len value.
Proof.
  intros s value.
  assert (Hs : is_Some (Shard.data (Shard.Set_ s "k"%string value 0 1).2 !! "k"%string))
    by (vm_compute; eexists; reflexivity).
  destruct Hs as [item Hitem]. exists item. split; [exact Hitem|].
  destruct (set_compresses_only_when_smaller s "k"%string value 0 1 item Hitem)
    as (_ & H1 & H2 & _).
  split; [exact H1 | exact H2].
Defined.

(** * A value that fits, the access count, and the cache without limit *)

Section Fitting.

Import Shard.

(** A shard that stores one key only has the size of that entry. *)
Lemma only_key_size s key item :
  accounting s -> data s !! key = Some item ->
  (forall k, is_Some (data s !! k) -> k = key) ->
  currentSize s = Size item.
Proof.
  intros [Hacc _] Hk Honly. rewrite Hacc.
  pose proof (sumSizes_delete _ _ _ Hk) as Hdel.
  assert (Hempty : delete key (data s) = ∅).
  { apply map_empty. intros k. destruct (decide (key = k)) as [->|Hne].
    - apply lookup_delete_eq.
    - rewrite lookup_delete_ne by exact Hne.
      destruct (data s !! k) as [it|] eqn:Hk'; [|reflexivity].
      destruct Hne. symmetry. apply Honly. by rewrite Hk'. }
  rewrite Hempty, sumSizes_empty in Hdel. lia.
Qed.

(** While the shard is over its limit, an entry that fits and is last
    in line is not the one [evictOne] takes. *)
Lemma evicted_last_survives s key item t b s' :
  shard_inv s -> evicted_last (evictionList s) key ->
  data s !! key = Some item -> Size item <= maxSize s ->
  overBudget 0 s = true -> evictOne t s = (b, s') ->
  evicted_last (evictionList s') key /\ data s' !! key = Some item.
Proof.
  intros Hinv Hlast Hk Hfits Hover Hev.
  pose proof Hinv as (Hacc & _ & Hlist).
  unfold overBudget in Hover. apply andb_true_iff in Hover as [_ Hover].
  apply Z.ltb_lt in Hover.
  destruct (evictionList s) as [lru|lfu|fifo] eqn:Hl; simpl in Hlast, Hlist; [| done |].
  - destruct Hlast as [rest Hrest]. destruct rest as [|r rest].
    + pose proof (only_key_size s key item Hacc Hk) as Hsize.
      rewrite Hsize in Hover; [lia|].
      intros k Hstored. apply Hlist in Hstored. rewrite Hrest in Hstored.
      by apply list_elem_of_singleton in Hstored.
    + destruct (lru_evictOne_back s lru key (r :: rest) t Hinv Hl Hrest ltac:(done))
        as (k & _ & Hkk & _ & Hdata & Hlist').
      rewrite Hev in Hdata, Hlist'. cbn [snd] in Hdata, Hlist'.
      rewrite Hlist', Hdata. split; [simpl; by eexists|].
      rewrite lookup_delete_ne by exact Hkk. exact Hk.
  - destruct Hlast as [rest Hrest]. destruct rest as [|r rest].
    + pose proof (only_key_size s key item Hacc Hk) as Hsize.
      rewrite Hsize in Hover; [lia|].
      intros k Hstored. apply Hlist in Hstored. rewrite Hrest in Hstored.
      by apply list_elem_of_singleton in Hstored.
    + destruct (fifo_evictOne_head s fifo r (rest ++ [key]) t Hinv Hl Hrest)
        as (_ & Hdata & Hlist').
      rewrite Hev in Hdata, Hlist'. cbn [snd] in Hdata, Hlist'.
      rewrite Hlist', Hdata. split; [simpl; by eexists|].
      rewrite lookup_delete_ne; [exact Hk|].
      destruct Hlist as [Hnd _]. rewrite Hrest in Hnd. simpl in Hnd.
      apply NoDup_cons in Hnd as [Hout _]. intros ->.
      apply Hout, elem_of_app. right. by left.
Qed.

(** The write of a [Set] puts its key last in line, under LRU and
    FIFO. *)
Lemma Set_store_evicted_last s key value ttl now :
  shard_inv s -> kind (evictionList s) ≠ EvictionLFU ->
  evicted_last (evictionList (Set_store s key value ttl now)) key.
Proof.
  intros Hinv Hkind. pose proof Hinv as (_ & _ & Hlist).
  destruct (evictionList s) as [lru|lfu|fifo] eqn:Hl; simpl in Hlist; [| done |].
  - rewrite (lru_Set_store_list s lru key value ttl now Hinv Hl). simpl. by eexists.
  - destruct (data s !! key) as [old|] eqn:Hold.
    + rewrite (fifo_Set_store_requeues s fifo key value ttl now Hl);
        [simpl; by eexists|apply Hlist|by eapply index_present|by rewrite Hold].
    + destruct (Set_store_list s key value ttl now) as [item ->].
      rewrite Hold, Hl. simpl. unfold FIFO.Add.
      rewrite bool_decide_eq_false_2 by (by eapply index_absent).
      simpl. by eexists.
Qed.

Lemma expired_live now item : expired now item = false <-> live_at now item.
Proof.
  unfold expired, live_at, IsZero, After.
  rewrite andb_false_iff, negb_false_iff, Z.eqb_eq, Z.ltb_ge. tauto.
Qed.

Lemma run_no_limit h s :
  maxSize s <= 0 -> Evictions (stats s) = 0 ->
  maxSize (run h s) <= 0 /\ Evictions (stats (run h s)) = 0.
Proof.
  intros Hm He.
  apply (run_invariant (fun s' => maxSize s' <= 0 /\ Evictions (stats s') = 0)
           (fun _ => True)); [|by split|by apply Forall_true].
  intros s1 e [Hm1 He1] _. destruct (step_config s1 e) as (-> & _).
  split; [exact Hm1|]. destruct (step_no_limit_evictions s1 e Hm1); congruence.
Qed.

End Fitting.

(** X24.  Under LRU and FIFO a value that fits is stored.  On a shard
    with non-empty keys whose policy is not LFU, a [Set] with a non-empty
    key of a value whose stored form is no larger than the shard's limit
    leaves the entry stored and the shard within its limit: the budget
    loop evicts other entries only.  The value is then read back by a
    [Get] before its expiry. *)
Theorem fitting_value_is_stored (s : Shard.CacheShard) (key : string) (value : bytes)
    (ttl : Z) (now : Time) :
  shard_inv s -> kind (Shard.evictionList s) ≠ EvictionLFU -> key ≠ EmptyString ->
  (0 < Shard.maxSize s -> (Shard.compressDecision s value).1.2 <= Shard.maxSize s) ->
  let s' := (Shard.Set_ s key value ttl now).2 in
  (exists item, Shard.data s' !! key = Some item /\
                Value item = (Shard.compressDecision s value).1.1 /\
                Size item = (Shard.compressDecision s value).1.2) /\
  shard_inv s' /\ within_budget s' /\
  (compressor_sound_at s value ->
   forall now', ttl <= 0 \/ now' <= now + ttl ->
     (Shard.Get s' key now').1.1 = Shard.Returned value None).
Proof.
  intros Hinv Hkind Hkey Hfits s'.
  destruct (Set_store_data s key value ttl now) as (item & Hd & Hval & Hsz & _).
  assert (Hstored : Shard.data s' !! key = Some item).
  { subst s'. unfold Shard.Set_. cbn [snd].
    apply (evictIfNeeded_invariant
             (fun s1 => shard_inv s1 /\ evicted_last (Shard.evictionList s1) key /\
                        Shard.maxSize s1 = Shard.maxSize s /\
                        Shard.data s1 !! key = Some item)).
    - intros s1 b s2 (Hinv1 & Hlast1 & Hmax1 & Hk1) Hover Hev.
      assert (Hfit1 : Size item <= Shard.maxSize s1).
      { rewrite Hsz, Hmax1. apply Hfits. rewrite <- Hmax1.
        unfold Shard.overBudget in Hover. apply andb_true_iff in Hover as [Hpos _].
        by apply Z.ltb_lt in Hpos. }
      destruct (evicted_last_survives s1 key item _ b s2 Hinv1 Hlast1 Hk1 Hfit1 Hover Hev)
        as [Hlast2 Hk2].
      split; [by destruct (shard_inv_evictOne _ _ _ _ Hinv1 Hev)|].
      split; [exact Hlast2|]. split; [|exact Hk2].
      destruct (evictOne_config _ _ _ _ Hev) as (-> & _). exact Hmax1.
    - split; [by apply shard_inv_Set_store|].
      split; [by apply Set_store_evicted_last|].
      split; [by destruct (Set_store_config s key value ttl now) as (-> & _)|].
      rewrite Hd. apply lookup_insert_eq. }
  destruct (shard_inv_Set s key value ttl now Hinv Hkey) as [Hinv' Hb].
  split; [by exists item|]. split; [exact Hinv'|]. split; [exact Hb|].
  intros Hsound now' Httl.
  apply (Get_after_Set s key value ttl now [] now' Hsound ltac:(constructor));
    [by exists item | exact Httl].
Qed.

Lemma fitting_value_is_stored_witness :
  let s := Shard.run [(Shard.OpSet "a"%string [x61] 0, 1);
                      (Shard.OpSet "b"%string [x62] 0, 2)]
                     (Shard.NewCacheShard 2 EvictionLRU None 0) in
  shard_inv s /\ Shard.currentSize s = 2 /\
  (exists item, Shard.data (Shard.Set_ s "c"%string [x63] 0 3).2 !! "c"%string = Some item /\
                Value item = [x63]) /\
  Shard.data (Shard.Set_ s "c"%string [x63] 0 3).2 !! "a"%string = None.
Proof.
  intros s.
  assert (Hinv : shard_inv s).
  { apply (bounded_run _ 2 EvictionLRU None 0). repeat constructor; discriminate. }
  split; [exact Hinv|]. split; [vm_compute; reflexivity|].
  pose proof (fitting_value_is_stored s "c"%string [x63] 0 3 Hinv) as H.
  cbv zeta in H.
  destruct H as ((item & Hitem & Hval & _) & _).
  - vm_compute. discriminate.
  - discriminate.
  - intros _. vm_compute. discriminate.
  - split; [|vm_compute; reflexivity].
    exists item. split; [exact Hitem | exact Hval].
Defined.

(** X25.  Only a hit changes the access count.  For an entry that is
    stored before and after a call on its shard, the call leaves the
    entry's key and creation time as they are, and its access count too,
    except that a [Get] of the key that finds it not expired adds one; a
    call other than [Set] leaves payload and expiry as well. *)
Theorem only_hits_change_access_count (s : Shard.CacheShard) (e : Shard.Op * Time)
    (key : string) (item item' : CacheItem) :
  Shard.data s !! key = Some item ->
  Shard.data (Shard.step s e) !! key = Some item' ->
  Key item' = Key item /\ CreatedAt item' = CreatedAt item /\
  AccessCount item' = AccessCount item + (if hits key item e then 1 else 0) /\
  (no_set e -> same_payload item item').
Proof.
  intros Hk Hk'. unfold Shard.step, hits, no_set in *.
  destruct e as [[k value ttl|k|k|] t]; cbn [fst snd] in *.
  - apply evictIfNeeded_lookup in Hk'.
    destruct (Set_store_data s k value ttl t) as (it & Hd & _ & _ & _ & _ & _ & Hkeep).
    rewrite Hd in Hk'. apply lookup_insert_Some in Hk' as [[-> <-]|[_ Hk']].
    + rewrite Hk in Hkeep. destruct Hkeep as (-> & -> & ->).
      split; [reflexivity|]. split; [reflexivity|]. split; [lia | done].
    + rewrite Hk in Hk'. injection Hk' as <-.
      split; [reflexivity|]. split; [reflexivity|]. split; [lia | done].
  - destruct (decide (k = key)) as [->|Hne].
    + rewrite bool_decide_eq_true_2 by reflexivity. cbn [andb].
      destruct (expired t item) eqn:Hexp; cbn [negb].
      * destruct (Get_miss_shard s key t) as [_ Hs].
        { intros it Hit Hlive. rewrite Hk in Hit. injection Hit as <-.
          apply expired_live in Hlive. congruence. }
        rewrite Hs in Hk'. cbn in Hk'. rewrite Hk in Hk'. injection Hk' as <-.
        split; [reflexivity|]. split; [reflexivity|]. split; [lia|].
        intros _. apply same_payload_refl.
      * apply expired_live in Hexp.
        destruct (Get_live_shard s key item t Hk Hexp) as [Hs _].
        rewrite Hs in Hk'. cbn in Hk'. rewrite lookup_insert_eq in Hk'.
        injection Hk' as <-.
        split; [reflexivity|]. split; [reflexivity|]. split; [reflexivity|].
        intros _. by repeat split.
    + rewrite bool_decide_eq_false_2 by exact Hne. cbn [andb].
      assert (Hsame : item' = item).
      { destruct (Get_data s k t) as [Hd|(it & it' & _ & _ & _ & _ & Hd)];
          rewrite Hd in Hk'.
        - congruence.
        - rewrite lookup_insert_ne in Hk' by exact Hne. congruence. }
      subst item'. split; [reflexivity|]. split; [reflexivity|]. split; [lia|].
      intros _. apply same_payload_refl.
  - rewrite Delete_data in Hk'. apply lookup_delete_Some in Hk' as [_ Hk'].
    rewrite Hk in Hk'. injection Hk' as <-.
    split; [reflexivity|]. split; [reflexivity|]. split; [lia|].
    intros _. apply same_payload_refl.
  - cbn in Hk'. rewrite lookup_empty in Hk'. discriminate.
Qed.

Lemma only_hits_change_access_count_witness :
  let s := Shard.run [(Shard.OpSet "a"%string [x61] 10, 1);
                      (Shard.OpSet "b"%string [x62] 0, 2)]
                     (Shard.NewCacheShard 10 EvictionLFU None 0) in
  exists item item',
    Shard.data s !! "a"%string = Some item /\
    Shard.data (Shard.step s (Shard.OpGet "a"%string, 5)) !! "a"%string = Some item' /\
    AccessCount item' = AccessCount item + 1.
Proof.
  intros s.
  assert (Ha : is_Some (Shard.data s !! "a"%string))
    by (vm_compute; eexists; reflexivity).
  assert (Ha' : is_Some (Shard.data (Shard.step s (Shard.OpGet "a"%string, 5))
                           !! "a"%string))
    by (vm_compute; eexists; reflexivity).
  destruct Ha as [item Hitem], Ha' as [item' Hitem'].
  exists item, item'. split; [exact Hitem|]. split; [exact Hitem'|].
  destruct (only_hits_change_access_count s (Shard.OpGet "a"%string, 5) "a"%string
              item item' Hitem Hitem') as (_ & _ & Hcount & _).
  assert (Hhit : hits "a"%string item (Shard.OpGet "a"%string, 5) = true).
  { assert (Hexp : ExpireAt item = 11).
    { assert (Hit : Shard.data s !! "a"%string
                    = Some {| Key := "a"%string; Value := [x61]; Size := 1;
                              ExpireAt := 11; CreatedAt := 1; AccessAt := 1;
                              AccessCount := 0; Compressed := false |})
        by (vm_compute; reflexivity).
      rewrite Hitem in Hit. by injection Hit as ->. }
    unfold hits, expired, IsZero, After. cbn [fst snd].
    rewrite Hexp. reflexivity. }
  by rewrite Hhit in Hcount.
Defined.

(** X26.  A cache without limit never evicts.  When the configured
    [MaxSize] is 0 or negative every shard is created without limit, and
    after any sequence of calls the cache's [Evictions] is 0. *)
Theorem unlimited_cache_never_evicts (numCPU : Z) (opts : list Cache.Option)
    (h : list (CacheOp * Time)) :
  Cache.opt_maxSize (fold_left (fun o opt => opt o) opts Cache.defaultOptions) <= 0 ->
  exists c c',
    Cache.NewCache numCPU opts = Some c /\ cache_run h c = Some c' /\
    all_shards (fun s => Shard.maxSize s <= 0 /\ Shard.Evictions (Shard.stats s) = 0) c' /\
    Cache.Evictions (Cache.Stats_ c') = 0.
Proof.
  intros Hm.
  destruct (NewCache_returns numCPU opts)
    as (c & n & Hnew & _ & Hrange & Hn & Hmax & _ & Hshards).
  cbv zeta in Hmax, Hshards.
  pose proof (NewCache_wf _ _ _ Hnew) as Hwf.
  destruct (cache_run_shards h c Hwf) as (c' & Hrun & Hwf' & Hn' & _ & _ & Hsh).
  exists c, c'. split; [exact Hnew|]. split; [exact Hrun|].
  set (m := Cache.opt_maxSize (fold_left (fun o opt => opt o) opts Cache.defaultOptions))
    in *.
  assert (Hper : Cache.shardMaxSizeOf m n <= 0).
  { unfold Cache.shardMaxSizeOf.
    replace (0 <? m) with false by (symmetry; apply Z.ltb_ge; lia).
    rewrite andb_false_r.
    replace m with (- - m) by lia. rewrite Z.quot_opp_l by lia.
    pose proof (Z.quot_pos (- m) n ltac:(lia) ltac:(lia)). lia. }
  assert (Hevery : forall s, s ∈ Cache.shards c' ->
            Shard.maxSize s <= 0 /\ Shard.Evictions (Shard.stats s) = 0).
  { intros s Hs. apply list_elem_of_lookup in Hs as [i Hi].
    assert (is_Some (Cache.shards c !! i)) as [s0 Hs0].
    { apply lookup_lt_is_Some. apply lookup_lt_Some in Hi.
      destruct Hwf as [_ Hlen], Hwf' as [_ Hlen']. rewrite Hn' in Hlen'. lia. }
    rewrite (Hsh i s0 Hs0) in Hi. injection Hi as <-.
    rewrite Hshards in Hs0. apply lookup_replicate in Hs0 as [-> _].
    apply run_no_limit.
    - by rewrite NewCacheShard_maxSize.
    - by destruct (NewCacheShard_fields (Cache.shardMaxSizeOf m n)
                     (Cache.evictionPolicy c)
                     (Cache.opt_compressor
                        (fold_left (fun o opt => opt o) opts Cache.defaultOptions))
                     (Cache.opt_compressSize
                        (fold_left (fun o opt => opt o) opts Cache.defaultOptions)))
        as (_ & -> & _). }
  split; [unfold all_shards; by rewrite Forall_forall|].
  unfold Cache.Stats_. cbn [Cache.Evictions].
  rewrite (fold_left_add_const
             (fun s => Shard.snap_Evictions (Shard.getStats s)) _ 0); [lia|].
  intros s Hs. destruct (Hevery s Hs) as [_ He]. exact He.
Qed.

Lemma unlimited_cache_never_evicts_witness :
  let h := [(COpSet "a"%string [x61; x61] 0, 1); (COpSet "b"%string [x62] 0, 2)] in
  Cache.opt_maxSize (fold_left (fun o opt => opt o) [Cache.WithMaxSize 0]
                       Cache.defaultOptions) <= 0 /\
  exists c c',
    Cache.NewCache 2 [Cache.WithMaxSize 0] = Some c /\ cache_run h c = Some c' /\
    Cache.Evictions (Cache.Stats_ c') = 0.
Proof.
  intros h.
  assert (Hm : Cache.opt_maxSize (fold_left (fun o opt => opt o) [Cache.WithMaxSize 0]
                                    Cache.defaultOptions) <= 0) by (simpl; lia).
  split; [exact Hm|].
  destruct (unlimited_cache_never_evicts 2 [Cache.WithMaxSize 0] h Hm)
    as (c & c' & Hnew & Hrun & _ & Hev).
  exists c, c'. split; [exact Hnew|]. split; [exact Hrun | exact Hev].
Defined.
